(** * excel2javascript: the dependency resolver and the formula translator

    A shallow embedding of [excel2javascript.py]: [convert_to_js],
    [extract_and_convert_all_cells], [topological_sort_all_cells],
    [resolve_and_sort], [detect_and_break_cycles], the part of
    [convert_excel_to_js] that starts from the active sheet,
    [build_tree], [extract_formula] and [reverse_graph].

    Conventions of the embedding.
    - A Python call either returns or raises: [result].
    - A [CellId] is a Python [str]; the graph part only compares them.
    - The dependency graph is a Python [defaultdict(set)].  It is kept as
      an association list: the bindings in insertion order (the order of
      [graph.keys()]) and every value set as the list of its elements in
      the iteration order of that set object.  CPython fixes that order
      by the hashes of the strings, so every order can occur; theorems
      quantify over all of them.
    - [resolved], [unresolved], [states] and [cycle_edges] are only
      tested, extended and reduced, so they are finite sets and maps.
    - The recursive searches take a fuel argument.  The entry points pass
      one more than the number of vertices, and [resolve_fuel_enough] and
      [dfs_fuel_enough] show that this never runs out.  The two loops of
      [topological_sort_all_cells] and the recursion of [build_tree] take
      fuel in the same way.
    - Where a function walks a set it has built itself, as
      [topological_sort_all_cells] does, the order of the walk is a
      parameter [set_order], of which the theorems assume only that it
      lists the members of the set, each once.
    - [build_tree] returns the branches it adds to [parent] and carries
      [visited] and the lines it prints in a record; the labels come
      from the [formatter] it is given.
    - Formula text is a list of characters, and the regular expressions
      are written out as matchers over it.  Python's [\d] and [\w] also
      accept digits and letters outside ASCII, which the matchers do not.
    - The one float of the program,
      [int(m.group(1)) + int(m.group(2)) / 100.0], is printed by a
      function the translator takes as a parameter, so that what is
      proved of the translator holds however a float is printed; only
      the conversion of an [int] that is too large, which raises, is
      written into the translator.  [py_float_repr] is the printer of
      Python: the sum as an IEEE 754 double, computed with the Standard
      Library's [SpecFloat], and [str] of it, the shortest decimal that
      reads back as the same double.
    - [get_column_letter] and [column_index_from_string] are openpyxl's;
      they are written out from the behaviour of that library.
    - What the interpreter can be configured to refuse (the depth of the
      recursion, the number of digits [int] and [str] convert) is not
      part of the embedding. *)

From Stdlib Require Import ZArith QArith Ascii String DecimalString DecimalZ SpecFloat.
From stdpp Require Import base option list gmap strings sets relations.

Local Open Scope string_scope.
Local Open Scope list_scope.
Local Open Scope nat_scope.

(** ** Outcomes of a call *)

Inductive exn : Type :=
  | ValueError (msg : string)
  | OverflowError (msg : string).

Inductive result (A : Type) : Type :=
  | Ok (a : A)
  | Raise (e : exn).
Arguments Ok {A} a.
Arguments Raise {A} e.

#[global] Instance result_ret : MRet result := λ A, Ok.

#[global] Instance result_bind : MBind result := λ A B k r,
  match r with
  | Ok a => k a
  | Raise e => Raise e
  end.

#[global] Instance result_fmap : FMap result := λ A B f r,
  match r with
  | Ok a => Ok (f a)
  | Raise e => Raise e
  end.

(** ** The dependency graph *)

Abbreviation CellId := string (only parsing).

(** [dict] from a cell to the set of cells it references. *)
Abbreviation graph := (list (string * list string)) (only parsing).

Fixpoint graph_lookup (g : graph) (node : CellId) : option (list CellId) :=
  match g with
  | [] => None
  | (k, deps) :: g' => if decide (k = node) then Some deps else graph_lookup g' node
  end.

(** [graph.get(node, [])] *)
Definition graph_get (g : graph) (node : CellId) : list CellId :=
  default [] (graph_lookup g node).

(** [graph[vertex]] on a [defaultdict(set)]: a missing key is inserted
    with an empty set. *)
Definition graph_getitem (g : graph) (vertex : CellId) : list CellId * graph :=
  match graph_lookup g vertex with
  | Some deps => (deps, g)
  | None => ([], g ++ [(vertex, [])])
  end.

(** [graph[u].remove(v)] *)
Fixpoint graph_remove (g : graph) (u v : CellId) : graph :=
  match g with
  | [] => []
  | (k, deps) :: g' =>
      if decide (k = u) then (k, filter (λ d, d ≠ v) deps) :: g'
      else (k, deps) :: graph_remove g' u v
  end.

(** Edge A→B: A references B. *)
Definition edge (g : graph) (a b : CellId) : Prop := b ∈ graph_get g a.

Definition acyclic (g : graph) : Prop := ∀ v, ¬ tc (edge g) v v.

(** Every vertex the searches can meet: the cells of the mapping, the
    keys of the graph and the members of its sets. *)
Definition vertices (g : graph) (cells : list CellId) : list CellId :=
  cells ++ (g.*1) ++ concat (g.*2).

(** ** resolve_and_sort *)

Record resolve_state : Type := ResolveState {
  resolved : gset string;
  unresolved : gset string;
  sorted_nodes : list string
}.

(** The [for dep in graph.get(node, [])] loop of [resolve]; [rec] is the
    recursive call. *)
Fixpoint resolve_deps (rec : CellId → resolve_state → option (bool * resolve_state))
    (deps : list CellId) (st : resolve_state) : option (bool * resolve_state) :=
  match deps with
  | [] => Some (true, st)
  | dep :: deps' =>
      match rec dep st with
      | None => None
      | Some (false, st') => Some (false, st')
      | Some (true, st') => resolve_deps rec deps' st'
      end
  end.

Fixpoint resolve (fuel : nat) (g : graph) (node : CellId) (st : resolve_state)
    : option (bool * resolve_state) :=
  match fuel with
  | O => None
  | S fuel' =>
      if decide (node ∈ resolved st) then Some (true, st)
      else if decide (node ∈ unresolved st) then Some (false, st)
      else
        let st1 := ResolveState (resolved st) ({[node]} ∪ unresolved st) (sorted_nodes st) in
        match resolve_deps (resolve fuel' g) (graph_get g node) st1 with
        | None => None
        | Some (false, st2) => Some (false, st2)
        | Some (true, st2) =>
            Some (true, ResolveState ({[node]} ∪ resolved st2)
                                     (unresolved st2 ∖ {[node]})
                                     (sorted_nodes st2 ++ [node]))
        end
  end.

Definition cycle_message (node : CellId) : string :=
  "The graph has a cycle, possibly due to a circular reference involving " +:+ node.

(** The [for node in all_cells] loop. *)
Fixpoint resolve_all (fuel : nat) (g : graph) (nodes : list CellId) (st : resolve_state)
    : option (result resolve_state) :=
  match nodes with
  | [] => Some (Ok st)
  | node :: nodes' =>
      match resolve fuel g node st with
      | None => None
      | Some (false, _) => Some (Raise (ValueError (cycle_message node)))
      | Some (true, st') => resolve_all fuel g nodes' st'
      end
  end.

(** [cells] are the keys of [all_cells], in the order of the dict. *)
Definition resolve_and_sort (g : graph) (cells : list CellId) : option (result (list CellId)) :=
  match resolve_all (S (length (vertices g cells))) g cells (ResolveState ∅ ∅ []) with
  | None => None
  | Some r => Some (sorted_nodes <$> r)
  end.

(** B is emitted before A. *)
Definition precedes (b a : CellId) (order : list CellId) : Prop :=
  ∃ l1 l2, order = l1 ++ a :: l2 ∧ b ∈ l1.

(** The cell mapping is complete: both ends of every edge are cells. *)
Definition complete (g : graph) (cells : list CellId) : Prop :=
  ∀ a b, edge g a b → a ∈ cells ∧ b ∈ cells.

(** ** detect_and_break_cycles *)

Inductive color : Type := WHITE | GRAY | BLACK.

#[global] Instance color_eq_dec : EqDecision color.
Proof. solve_decision. Defined.

(** What the nested [dfs] reads and writes: the graph (only [graph[vertex]]
    touches it, by inserting a missing key), the [states] table and
    [cycle_edges]. *)
Record dfs_state : Type := DfsState {
  dfs_graph : list (string * list string);
  states : gmap string color;
  cycle_edges : gset (string * string)
}.

(** [states[v]] on [defaultdict(lambda: State.WHITE)] *)
Definition state_of (st : dfs_state) (v : CellId) : color :=
  default WHITE (states st !! v).

Definition set_state (v : CellId) (c : color) (st : dfs_state) : dfs_state :=
  DfsState (dfs_graph st) (<[v := c]> (states st)) (cycle_edges st).

Definition add_cycle_edge (u v : CellId) (st : dfs_state) : dfs_state :=
  DfsState (dfs_graph st) (states st) ({[(u, v)]} ∪ cycle_edges st).

(** The [for neighbor in graph[vertex]] loop of [dfs].  [Some (true, _)]
    is the [return True] inside the loop, [Some (false, _)] is the loop
    running to its end. *)
Fixpoint dfs_neighbors (rec : CellId → dfs_state → option (bool * dfs_state))
    (vertex : CellId) (neighbors : list CellId) (st : dfs_state)
    : option (bool * dfs_state) :=
  match neighbors with
  | [] => Some (false, st)
  | neighbor :: neighbors' =>
      match state_of st neighbor with
      | WHITE =>
          match rec neighbor st with
          | None => None
          | Some (true, st') =>
              dfs_neighbors rec vertex neighbors' (add_cycle_edge vertex neighbor st')
          | Some (false, st') => dfs_neighbors rec vertex neighbors' st'
          end
      | GRAY => Some (true, add_cycle_edge vertex neighbor st)
      | BLACK => dfs_neighbors rec vertex neighbors' st
      end
  end.

(** [dfs(vertex, path)]; [path] is built and passed on but never read, so
    it is left out. *)
Fixpoint dfs (fuel : nat) (vertex : CellId) (st : dfs_state) : option (bool * dfs_state) :=
  match fuel with
  | O => None
  | S fuel' =>
      let st1 := set_state vertex GRAY st in
      let '(neighbors, g1) := graph_getitem (dfs_graph st1) vertex in
      let st2 := DfsState g1 (states st1) (cycle_edges st1) in
      match dfs_neighbors (dfs fuel') vertex neighbors st2 with
      | None => None
      | Some (true, st3) => Some (true, st3)
      | Some (false, st3) => Some (false, set_state vertex BLACK st3)
      end
  end.

(** The [for vertex in list(graph.keys())] loop. *)
Fixpoint dfs_roots (fuel : nat) (roots : list CellId) (st : dfs_state) : option dfs_state :=
  match roots with
  | [] => Some st
  | vertex :: roots' =>
      match state_of st vertex with
      | WHITE =>
          match dfs fuel vertex st with
          | None => None
          | Some (_, st') => dfs_roots fuel roots' st'
          end
      | _ => dfs_roots fuel roots' st
      end
  end.

(** The [for edge in cycle_edges] loop.  Every member of [cycle_edges]
    is an edge of the graph ([cycle_edges_are_edges]), so [remove] finds
    its element; removals of different edges commute, so the order in
    which the set is walked does not show in the result. *)
Definition remove_cycle_edges (g : graph) (edges : list (CellId * CellId)) : graph :=
  foldl (λ g e, graph_remove g e.1 e.2) g edges.

(** The graph after the call (Python mutates it in place). *)
Definition detect_and_break_cycles (g : graph) : option (list (string * list string)) :=
  match dfs_roots (S (length (vertices g []))) g.*1 (DfsState g ∅ ∅) with
  | None => None
  | Some st => Some (remove_cycle_edges (dfs_graph st) (elements (cycle_edges st)))
  end.

(** Lines 247-250 of [convert_excel_to_js]: break the cycles, then sort. *)
Definition break_and_sort (g : graph) (cells : list CellId) : option (result (list CellId)) :=
  match detect_and_break_cycles g with
  | None => None
  | Some g' => resolve_and_sort g' cells
  end.

(** ** Formula text

    Formula text is a list of characters.  Python's [\d] and [\w] also
    accept digits and letters outside ASCII; the model classifies ASCII
    only, so statements about arbitrary text assume [ascii_text]. *)

Abbreviation text := (list ascii) (only parsing).

Definition txt (s : string) : list ascii := list_ascii_of_string s.

Definition code (c : ascii) : nat := nat_of_ascii c.

Definition ascii_text (s : list ascii) : Prop := Forall (λ c, code c < 128) s.

(** [\d] *)
Definition is_digit (c : ascii) : bool := (48 <=? code c) && (code c <=? 57).

(** [[A-Z]] *)
Definition is_upper (c : ascii) : bool := (65 <=? code c) && (code c <=? 90).

Definition is_lower (c : ascii) : bool := (97 <=? code c) && (code c <=? 122).

Definition is_letter (c : ascii) : bool := is_upper c || is_lower c.

(** [\w] *)
Definition is_word (c : ascii) : bool := is_letter c || is_digit c || (code c =? 95).

(** The longest prefix of characters in a class, and the rest: what a
    greedy [c+] takes.  In each pattern below the character that must
    follow the run is outside the class, so giving characters back never
    yields a match and the longest run is the only candidate. *)
Fixpoint span (p : ascii → bool) (s : text) : list ascii * list ascii :=
  match s with
  | [] => ([], [])
  | c :: s' => if p c then let '(run, rest) := span p s' in (c :: run, rest) else ([], s)
  end.

Fixpoint strip_prefix (pre s : text) : option (list ascii) :=
  match pre, s with
  | [], _ => Some s
  | p :: pre', c :: s' => if decide (p = c) then strip_prefix pre' s' else None
  | _ :: _, [] => None
  end.

(** [sep.join(parts)] *)
Fixpoint join (sep : text) (parts : list (list ascii)) : list ascii :=
  match parts with
  | [] => []
  | [p] => p
  | p :: parts' => p ++ sep ++ join sep parts'
  end.

(** [int(digits)] *)
Definition py_int (digits : text) : Z :=
  fold_left (λ acc c, 10 * acc + Z.of_nat (code c - 48))%Z digits 0%Z.

(** [str(n)] for an [int] *)
Definition py_str (n : Z) : list ascii :=
  list_ascii_of_string (DecimalString.NilZero.string_of_int (Z.to_int n)).

(** [re.sub(pattern, repl, s)].  [m s] tells whether the pattern matches
    at the head of [s], and then gives what [repl] returns (or raises)
    and how many characters the match takes (never zero).  Matches are
    looked for from left to right and do not overlap: [skip] counts the
    characters of the current match still to be dropped. *)
Fixpoint re_sub_from (m : text → option (result (list ascii) * nat)) (skip : nat) (s : text)
    : result (list ascii) :=
  match s with
  | [] => Ok []
  | c :: s' =>
      match skip with
      | S skip' => re_sub_from m skip' s'
      | O =>
          match m s with
          | Some (repl, len) =>
              r ← repl; rest ← re_sub_from m (pred len) s'; mret (r ++ rest)
          | None => rest ← re_sub_from m 0 s'; mret (c :: rest)
          end
      end
  end.

Definition re_sub (m : text → option (result (list ascii) * nat)) (s : text)
    : result (list ascii) :=
  re_sub_from m 0 s.

(** [s.replace(old, new)] *)
Definition replace_at (old new s : text) : option (result (list ascii) * nat) :=
  match strip_prefix old s with
  | Some _ => Some (Ok new, length old)
  | None => None
  end.

Definition str_replace (old new s : text) : result (list ascii) :=
  re_sub (replace_at old new) s.

(** *** openpyxl.utils *)

(** The index of a column letter, after [upper()]. *)
Definition letter_index (c : ascii) : option Z :=
  if is_upper c then Some (Z.of_nat (code c - 64))
  else if is_lower c then Some (Z.of_nat (code c - 96))
  else None.

(** [column_index_from_string]: the index of a column name of one to
    three letters; any other string raises ValueError. *)
Definition column_index_from_string (name : text) : result Z :=
  let invalid := Raise (ValueError (string_of_list_ascii name +:+ " is not a valid column name")) in
  match name with
  | [a] =>
      match letter_index a with
      | Some i => Ok i
      | None => invalid
      end
  | [a; b] =>
      match letter_index a, letter_index b with
      | Some i, Some j => Ok (26 * i + j)%Z
      | _, _ => invalid
      end
  | [a; b; c] =>
      match letter_index a, letter_index b, letter_index c with
      | Some i, Some j, Some k => Ok (676 * i + 26 * j + k)%Z
      | _, _, _ => invalid
      end
  | _ => invalid
  end.

Definition letter (i : Z) : ascii := ascii_of_nat (64 + Z.to_nat i).

(** [get_column_letter]: the column name of an index from 1 to 18278;
    any other index raises ValueError. *)
Definition get_column_letter (idx : Z) : result (list ascii) :=
  if (1 <=? idx)%Z && (idx <=? 26)%Z then Ok [letter idx]
  else if (27 <=? idx)%Z && (idx <=? 702)%Z then
    let n := (idx - 27)%Z in Ok [letter (n / 26 + 1); letter (n mod 26 + 1)]
  else if (703 <=? idx)%Z && (idx <=? 18278)%Z then
    let n := (idx - 703)%Z in
    Ok [letter (n / 676 + 1); letter (n / 26 mod 26 + 1); letter (n mod 26 + 1)]
  else Raise (ValueError ("Invalid column index " +:+ string_of_list_ascii (py_str idx))).

(** ** convert_to_js *)

(** An [int] at or above this bound does not convert to a [float]:
    Python raises OverflowError. *)
Definition FLOAT_LIMIT : Z := (2 ^ 1024 - 2 ^ 970)%Z.

Section translator.

(** [float_repr a b] stands for [str(a + b / 100.0)], the text of a
    floating-point number; it is left open, so that what is proved holds
    however the float is printed. *)
Variable float_repr : Z → Z → list ascii.

(** The replacement of pass 1:
    [str(int(m.group(1)) + int(m.group(2)) / 100.0) + "/100"]. *)
Definition comma_percent_repl (d1 d2 : text) : result (list ascii) :=
  let a := py_int d1 in
  let b := py_int d2 in
  if (FLOAT_LIMIT <=? b)%Z || (FLOAT_LIMIT <=? a)%Z
  then Raise (OverflowError "int too large to convert to float")
  else Ok (float_repr a b ++ txt "/100").

(** [(\d+),(\d+)%] *)
Definition comma_percent (s : text) : option (result (list ascii) * nat) :=
  let '(d1, r1) := span is_digit s in
  match d1, r1 with
  | _ :: _, "," :: r2 =>
      let '(d2, r3) := span is_digit r2 in
      match d2, r3 with
      | _ :: _, "%" :: _ => Some (comma_percent_repl d1 d2, length d1 + 1 + length d2 + 1)
      | _, _ => None
      end
  | _, _ => None
  end%char.

(** [(\d+)%], replaced by [str(int(m.group(1))) + "/100"] *)
Definition percent (s : text) : option (result (list ascii) * nat) :=
  let '(d, r) := span is_digit s in
  match d, r with
  | _ :: _, "%" :: _ => Some (Ok (py_str (py_int d) ++ txt "/100"), length d + 1)
  | _, _ => None
  end%char.

(** The replacement of pass 3: one term per [i] in
    [range(column(ref2[:1]) - column(ref1[:1]) + 1)], joined by [+]. *)
Definition sum_range_repl (ref1 ref2 : text) : result (list ascii) :=
  c2 ← column_index_from_string (take 1 ref2);
  c1 ← column_index_from_string (take 1 ref1);
  terms ← mapM (λ i, col ← get_column_letter (c1 + i); mret (col ++ drop 1 ref1))
               (seqZ 0 (c2 - c1 + 1));
  mret (join (txt "+") terms).

(** [SUM\((\w+):(\w+)\)] *)
Definition sum_range (s : text) : option (result (list ascii) * nat) :=
  match strip_prefix (txt "SUM(") s with
  | None => None
  | Some r0 =>
      let '(ref1, r1) := span is_word r0 in
      match ref1, r1 with
      | _ :: _, ":" :: r2 =>
          let '(ref2, r3) := span is_word r2 in
          match ref2, r3 with
          | _ :: _, ")" :: _ =>
              Some (sum_range_repl ref1 ref2, 4 + length ref1 + 1 + length ref2 + 1)
          | _, _ => None
          end
      | _, _ => None
      end
  end%char.

(** [(\d+),(\d+)], replaced by [\1.\2] *)
Definition comma_decimal (s : text) : option (result (list ascii) * nat) :=
  let '(d1, r1) := span is_digit s in
  match d1, r1 with
  | _ :: _, "," :: r2 =>
      let '(d2, _) := span is_digit r2 in
      match d2 with
      | _ :: _ => Some (Ok (d1 ++ txt "." ++ d2), length d1 + 1 + length d2)
      | [] => None
      end
  | _, _ => None
  end%char.

Definition convert_to_js (formula : text) : result (list ascii) :=
  formula ← re_sub comma_percent formula;
  formula ← re_sub percent formula;
  formula ← re_sub sum_range formula;
  formula ← str_replace (txt "MIN") (txt "Math.min") formula;
  formula ← str_replace (txt "MAX") (txt "Math.max") formula;
  formula ← re_sub comma_decimal formula;
  str_replace (txt "$") [] formula.

End translator.

(** The float printer that writes [a + b/100] as an exact decimal
    ([10.05], [10.5], [15.0]).  [str] agrees with it where the double
    sum is the double nearest to that decimal, as at [10 + 5/100.0]; it
    is only used to run examples. *)
Definition decimal_repr (a b : Z) : list ascii :=
  let n := (100 * a + b)%Z in
  let frac := (n mod 100)%Z in
  py_str (n / 100) ++ txt "."
  ++ (if (frac mod 10 =? 0)%Z then py_str (frac / 10)
      else py_str (frac / 10) ++ py_str (frac mod 10)).

(** ** Floats

    A Python [float] is an IEEE 754 double.  Its arithmetic is that of
    the Standard Library's [SpecFloat] at 53 bits, rounding to nearest,
    ties to even.  [str] of a float is written out from the behaviour of
    CPython: the shortest decimal that reads back as the same float, in
    positional notation from 1e-4 up to 1e16 and with an exponent
    outside. *)

(** [float(n)] for an [int] below [FLOAT_LIMIT] *)
Definition float_of_int (n : Z) : spec_float := binary_normalize 53 1024 n 0 false.

(** The double nearest to [p / q]: what reading a decimal text gives. *)
Definition nearest_float (p q : positive) : spec_float :=
  SFdiv 53 1024 (S754_finite false p 0) (S754_finite false q 0).

(** [int(m.group(1)) + int(m.group(2)) / 100.0] *)
Definition comma_percent_float (a b : Z) : spec_float :=
  SFadd 53 1024 (float_of_int a) (SFdiv 53 1024 (float_of_int b) (float_of_int 100)).

(** The least [j] from [j0] on with [q ≤ p * 10 ^ j]. *)
Fixpoint scale_up (fuel : nat) (p q j : Z) : Z :=
  match fuel with
  | O => j
  | S fuel' => if (q <=? p * 10 ^ j)%Z then j else scale_up fuel' p q (j + 1)%Z
  end.

(** [k] with [10 ^ k ≤ p / q < 10 ^ (k + 1)], for a double [p / q]. *)
Definition decimal_exponent (p q : Z) : Z :=
  if (q <=? p)%Z then (Z.of_nat (length (py_str (p / q))) - 1)%Z
  else (- scale_up 400 p q 1)%Z.

(** [d * 10 ^ (- t)] read as a double *)
Definition read_scaled (d t : Z) : spec_float :=
  if (0 <=? t)%Z then nearest_float (Z.to_pos d) (Z.to_pos (10 ^ t))
  else nearest_float (Z.to_pos (d * 10 ^ (- t))) 1.

Definition same_float (x y : spec_float) : bool :=
  match SFcompare x y with
  | Some Eq => true
  | _ => false
  end.

(** The decimal of [n] significant digits that reads back as the double
    [m * 2 ^ e], if there is one: [(d, t)] stands for [d * 10 ^ (- t)].
    Of the two decimals around the double the nearer one is taken. *)
Definition round_trip (m : positive) (e : Z) (n : nat) : option (Z * Z) :=
  let x := S754_finite false m e in
  let p := if (0 <=? e)%Z then (Zpos m * 2 ^ e)%Z else Zpos m in
  let q := if (0 <=? e)%Z then 1%Z else (2 ^ (- e))%Z in
  let t := (Z.of_nat n - 1 - decimal_exponent p q)%Z in
  let num := if (0 <=? t)%Z then (p * 10 ^ t)%Z else p in
  let den := if (0 <=? t)%Z then q else (q * 10 ^ (- t))%Z in
  let lo := (num / den)%Z in
  let hi := (lo + 1)%Z in
  let lo_ok := same_float (read_scaled lo t) x in
  let hi_ok := same_float (read_scaled hi t) x in
  let lo_nearer :=
    match (2 * num ?= (2 * lo + 1) * den)%Z with
    | Lt => true
    | Eq => Z.even lo
    | Gt => false
    end in
  if lo_ok && hi_ok then Some (if lo_nearer then lo else hi, t)
  else if lo_ok then Some (lo, t)
  else if hi_ok then Some (hi, t)
  else None.

(** The shortest such decimal; seventeen digits always suffice. *)
Fixpoint shortest (m : positive) (e : Z) (n : nat) (more : nat) : Z * Z :=
  match round_trip m e n, more with
  | Some dt, _ => dt
  | None, S more' => shortest m e (S n) more'
  | None, O => (0%Z, 0%Z)
  end.

Fixpoint strip_zeros (rev_digits : list ascii) : list ascii :=
  match rev_digits with
  | "0"%char :: rest => strip_zeros rest
  | _ => rev_digits
  end.

(** The digits [digits] with the decimal point after the first [decpt]
    of them, as [repr] lays them out. *)
Definition float_layout (digits : list ascii) (decpt : Z) : list ascii :=
  if (decpt <=? -4)%Z || (16 <? decpt)%Z then
    let exponent := (decpt - 1)%Z in
    let exp_digits := py_str (Z.abs exponent) in
    take 1 digits
    ++ (match drop 1 digits with [] => [] | rest => "."%char :: rest end)
    ++ "e"%char :: (if (exponent <? 0)%Z then "-"%char else "+"%char)
    :: (if length exp_digits <? 2 then "0"%char :: exp_digits else exp_digits)
  else if (decpt <=? 0)%Z then
    txt "0." ++ replicate (Z.to_nat (- decpt)) "0"%char ++ digits
  else if (Z.of_nat (length digits) <=? decpt)%Z then
    digits ++ replicate (Z.to_nat decpt - length digits) "0"%char ++ txt ".0"
  else take (Z.to_nat decpt) digits ++ "."%char :: drop (Z.to_nat decpt) digits.

(** [str(x)] for a float *)
Definition float_str (x : spec_float) : list ascii :=
  match x with
  | S754_zero false => txt "0.0"
  | S754_zero true => txt "-0.0"
  | S754_infinity false => txt "inf"
  | S754_infinity true => txt "-inf"
  | S754_nan => txt "nan"
  | S754_finite sign m e =>
      let '(d, t) := shortest m e 1 16 in
      let all_digits := py_str d in
      let digits := rev (strip_zeros (rev all_digits)) in
      (if sign then txt "-" else [])
      ++ float_layout digits (Z.of_nat (length all_digits) - t)
  end.

(** [str(a + b / 100.0)], the printer of pass 1. *)
Definition py_float_repr (a b : Z) : list ascii := float_str (comma_percent_float a b).

(** ** extract_and_convert_all_cells *)

(** What [cell.value] can be. *)
Inductive cell_value : Type :=
  | Number (shown : list ascii)  (** an [int] or a [float]; [shown] is how the f-string prints it *)
  | Text (s : list ascii)        (** a [str] *)
  | Blank.                       (** [None], or a value of any other type *)

(** [sheet.iter_rows()] *)
Abbreviation sheet := (list (list cell_value)) (only parsing).

(** [[A-Z]+\$?\d+] *)
Definition cell_reference (s : text) : option (list ascii * nat) :=
  let '(cols, r1) := span is_upper s in
  match cols with
  | [] => None
  | _ :: _ =>
      let '(dollar, r2) := match r1 with
                           | "$"%char :: r => (["$"%char], r)
                           | _ => ([], r1)
                           end in
      let '(digits, _) := span is_digit r2 in
      match digits with
      | [] => None
      | _ :: _ => Some (cols ++ dollar ++ digits, length cols + length dollar + length digits)
      end
  end.

(** [re.findall(pattern, s)] for a pattern without groups *)
Fixpoint findall_from (m : text → option (list ascii * nat)) (skip : nat) (s : text)
    : list (list ascii) :=
  match s with
  | [] => []
  | c :: s' =>
      match skip with
      | S skip' => findall_from m skip' s'
      | O =>
          match m s with
          | Some (found, len) => found :: findall_from m (pred len) s'
          | None => findall_from m 0 s'
          end
      end
  end.

Definition findall (m : text → option (list ascii * nat)) (s : text) : list (list ascii) :=
  findall_from m 0 s.

(** [d[k] = v] on a dict kept in insertion order *)
Fixpoint dict_set {V : Type} (d : list (string * V)) (k : string) (v : V) : list (string * V) :=
  match d with
  | [] => [(k, v)]
  | (k', v') :: d' => if decide (k' = k) then (k, v) :: d' else (k', v') :: dict_set d' k v
  end.

(** [d.get(k)] *)
Fixpoint dict_get {V : Type} (d : list (string * V)) (k : string) : option V :=
  match d with
  | [] => None
  | (k', v) :: d' => if decide (k' = k) then Some v else dict_get d' k
  end.

(** [graph[k].add(x)] on a [defaultdict(set)]; a new member goes last in
    the iteration order of the model. *)
Fixpoint graph_add (g : graph) (k x : CellId) : list (string * list string) :=
  match g with
  | [] => [(k, [x])]
  | (k', deps) :: g' =>
      if decide (k' = k)
      then (k', if decide (x ∈ deps) then deps else deps ++ [x]) :: g'
      else (k', deps) :: graph_add g' k x
  end.

Record extraction : Type := Extraction {
  all_cells : list (string * list ascii);
  dependency_graph : list (string * list string);
  original_formulas : list (string * list ascii);
  defined_cells : gset string
}.

(** [f"var {cell_ref} = {value};"] *)
Definition declaration (cell_ref : CellId) (value : text) : list ascii :=
  txt "var " ++ txt cell_ref ++ txt " = " ++ value ++ txt ";".

Section extractor.
Variable float_repr : Z → Z → list ascii.

(** The body of the two nested loops, for the cell at [row_idx],
    [col_idx] (both from 1). *)
Definition extract_cell (row_idx col_idx : nat) (value : cell_value) (st : extraction)
    : result extraction :=
  col ← get_column_letter (Z.of_nat col_idx);
  let cell_ref := string_of_list_ascii (col ++ py_str (Z.of_nat row_idx)) in
  match value with
  | Number shown =>
      Ok (Extraction (dict_set (all_cells st) cell_ref (declaration cell_ref shown))
                     (dependency_graph st) (original_formulas st)
                     ({[cell_ref]} ∪ defined_cells st))
  | Text ("="%char :: formula) =>
      js_formula ← convert_to_js float_repr formula;
      let var_refs := findall cell_reference formula in
      let cleaned := (λ r, string_of_list_ascii (filter (λ c, c ≠ "$"%char) r)) <$> var_refs in
      Ok (Extraction (dict_set (all_cells st) cell_ref (declaration cell_ref js_formula))
                     (foldl (λ g r, graph_add g cell_ref r) (dependency_graph st) cleaned)
                     (dict_set (original_formulas st) cell_ref ("="%char :: formula))
                     ({[cell_ref]} ∪ defined_cells st))
  | _ => Ok st
  end.

Fixpoint extract_row (row_idx col_idx : nat) (row : list cell_value) (st : extraction)
    : result extraction :=
  match row with
  | [] => Ok st
  | value :: row' =>
      st' ← extract_cell row_idx col_idx value st;
      extract_row row_idx (S col_idx) row' st'
  end.

Fixpoint extract_rows (row_idx : nat) (rows : sheet) (st : extraction) : result extraction :=
  match rows with
  | [] => Ok st
  | row :: rows' =>
      st' ← extract_row row_idx 1 row st;
      extract_rows (S row_idx) rows' st'
  end.

(** [all_vars - defined_cells], walked in the order of first
    occurrence (Python walks the set in the order of its hashes). *)
Definition undefined_vars (st : extraction) : list string :=
  filter (λ v, v ∉ defined_cells st)
         (remove_dups ((all_cells st).*1 ++ concat ((dependency_graph st).*2))).

Definition extract_and_convert_all_cells (s : sheet)
    : result (list (string * list ascii) * list (string * list string)
              * list (string * list ascii)) :=
  st ← extract_rows 1 s (Extraction [] [] [] ∅);
  let cells := foldl (λ cells var, dict_set cells var (declaration var (txt "0")))
                     (all_cells st) (undefined_vars st) in
  Ok (cells, dependency_graph st, original_formulas st).

(** [all_cells_js[cell_ref]] for the cells of the order that are keys. *)
Definition declaration_lines (cells : list (string * list ascii)) (order : list string)
    : list (list ascii) :=
  omap (dict_get cells) order.

(** [convert_excel_to_js], from the active sheet on.  [None] only if a
    search ran out of fuel, which does not happen. *)
Definition convert_excel_to_js (s : sheet)
    : option (result (list ascii * list (string * list ascii))) :=
  match extract_and_convert_all_cells s with
  | Raise e => Some (Raise e)
  | Ok (all_cells_js, dependency_graph, original_formulas) =>
      match break_and_sort dependency_graph (all_cells_js.*1) with
      | None => None
      | Some (Raise e) => Some (Raise e)
      | Some (Ok sorted_all_cells) =>
          Some (Ok (join [ascii_of_nat 10] (declaration_lines all_cells_js sorted_all_cells),
                    original_formulas))
      end
  end.

End extractor.

(** ** reverse_graph *)

(** [reversed_graph] is a plain dict, filled by
    [if dependent in reversed_graph: reversed_graph[dependent].add(node)]
    [else: reversed_graph[dependent] = set([node])], which is what
    [graph_add] does. *)
Definition reverse_graph (g : graph) : list (string * list string) :=
  foldl (λ reversed_graph item,
           foldl (λ reversed_graph dependent, graph_add reversed_graph dependent item.1)
                 reversed_graph item.2)
        [] g.

(** ** build_tree *)

(** A [rich.tree.Tree]: a label and the branches added to it, in the
    order in which [add] was called. *)
#[warnings="-register-all"] Inductive tree (L : Type) : Type :=
  | Tree (label : L) (children : list (tree L)).
Arguments Tree {L} label children.

Definition tree_label {L : Type} (t : tree L) : L :=
  match t with Tree label _ => label end.

(** What [build_tree] shares with its callers besides the tree: the set
    [visited], and the lines it prints. *)
Record walk : Type := Walk {
  visited : gset string;
  printed : list string
}.

Inductive walk_result (A : Type) : Type :=
  | Done (a : A)
  | KeyError (key : string).  (** [visited.remove(node)] when [node] is not in the set *)
Arguments Done {A} a.
Arguments KeyError {A} key.

Definition circular_warning (node : CellId) : string :=
  "Warning: Detected a circular dependency involving " +:+ node.

Section build_tree.
Context {L : Type}.

(** The label of a cell; [build_tree] gets it as an argument. *)
Variable formatter : CellId → L.

(** The [for neighbor in graph.get(node, [])] loop: the branches added to
    [parent], each with what the recursive call [rec] added below it. *)
Fixpoint build_branches (rec : CellId → walk → option (walk_result (list (tree L) * walk)))
    (neighbors : list CellId) (st : walk) : option (walk_result (list (tree L) * walk)) :=
  match neighbors with
  | [] => Some (Done ([], st))
  | neighbor :: neighbors' =>
      match rec neighbor st with
      | None => None
      | Some (KeyError key) => Some (KeyError key)
      | Some (Done (children, st')) =>
          match build_branches rec neighbors' st' with
          | None => None
          | Some (KeyError key) => Some (KeyError key)
          | Some (Done (branches, st'')) =>
              Some (Done (Tree (formatter neighbor) children :: branches, st''))
          end
      end
  end.

(** [build_tree(graph, node, parent, formatter, visited)]; the result
    holds the branches added to [parent]. *)
Fixpoint build_tree (fuel : nat) (g : graph) (node : CellId) (st : walk)
    : option (walk_result (list (tree L) * walk)) :=
  match fuel with
  | O => None
  | S fuel' =>
      if decide (node ∈ visited st)
      then Some (Done ([], Walk (visited st) (printed st ++ [circular_warning node])))
      else
        match build_branches (build_tree fuel' g) (graph_get g node)
                (Walk ({[node]} ∪ visited st) (printed st)) with
        | None => None
        | Some (KeyError key) => Some (KeyError key)
        | Some (Done (branches, st')) =>
            if decide (node ∈ visited st')
            then Some (Done (branches, Walk (visited st' ∖ {[node]}) (printed st')))
            else Some (KeyError node)
        end
  end.

End build_tree.

(** ** topological_sort_all_cells *)

(** [indegree[node]] on [defaultdict(int)].  The table is only read and
    written by key, so the keys that reading inserts do not show and are
    left out. *)
Definition indegree_of (indegree : gmap string Z) (node : CellId) : Z :=
  default 0%Z (indegree !! node).

(** [indegree[neighbor] += d] *)
Definition indegree_add (d : Z) (indegree : gmap string Z) (neighbor : CellId)
    : gmap string Z :=
  <[neighbor := (indegree_of indegree neighbor + d)%Z]> indegree.

(** The first two loops, over [graph.items()] and the members of each
    set. *)
Definition count_indegree (g : graph) : gmap string Z :=
  foldl (λ indegree item, foldl (indegree_add 1) indegree item.2) ∅ g.

(** [min(nodes, key=key)] for the nodes [best :: nodes]: the first of
    those with the smallest key. *)
Fixpoint min_by (key : CellId → Z) (best : CellId) (nodes : list CellId) : CellId :=
  match nodes with
  | [] => best
  | node :: nodes' =>
      if (key node <? key best)%Z then min_by key node nodes' else min_by key best nodes'
  end.

Section sequencer.

(** [set_order X] is the order in which Python walks the set [X], which
    depends on the hashes of the strings; it is left open, and what is
    proved holds for every order. *)
Variable set_order : gset string → list string.

(** The body of [for neighbor in graph.get(node, [])] in the first
    [while] loop, on the table and the queue. *)
Definition release (st : gmap string Z * list CellId) (neighbor : CellId)
    : gmap string Z * list CellId :=
  let indegree := indegree_add (-1) st.1 neighbor in
  (indegree,
   if decide (indegree_of indegree neighbor = 0%Z) then st.2 ++ [neighbor] else st.2).

(** [while queue:] *)
Fixpoint drain_queue (fuel : nat) (g : graph) (queue : list CellId)
    (indegree : gmap string Z) (sorted_nodes : list CellId)
    : option (gmap string Z * list CellId) :=
  match queue with
  | [] => Some (indegree, sorted_nodes)
  | node :: queue' =>
      match fuel with
      | O => None
      | S fuel' =>
          let st := foldl release (indegree, queue') (graph_get g node) in
          drain_queue fuel' g st.2 st.1 (sorted_nodes ++ [node])
      end
  end.

(** [while remaining_nodes:] *)
Fixpoint force_emit (fuel : nat) (g : graph) (remaining_nodes : gset string)
    (indegree : gmap string Z) (sorted_nodes : list CellId) : option (list CellId) :=
  match set_order remaining_nodes with
  | [] => Some sorted_nodes
  | first :: rest =>
      match fuel with
      | O => None
      | S fuel' =>
          let min_indegree_node := min_by (indegree_of indegree) first rest in
          force_emit fuel' g (remaining_nodes ∖ {[min_indegree_node]})
            (foldl (indegree_add (-1)) indegree (graph_get g min_indegree_node))
            (sorted_nodes ++ [min_indegree_node])
      end
  end.

(** [cells] are the keys of [all_cells].  The function has no [raise]:
    [None] only if a loop ran out of fuel, which does not happen. *)
Definition topological_sort_all_cells (g : graph) (cells : list CellId)
    : option (list CellId) :=
  let indegree := count_indegree g in
  let zero_indegree_nodes : gset string :=
    list_to_set (filter (λ node, indegree_of indegree node = 0%Z) cells) in
  match drain_queue (S (length (vertices g cells))) g (set_order zero_indegree_nodes)
          indegree [] with
  | None => None
  | Some (indegree', sorted_nodes) =>
      force_emit (length cells) g (list_to_set cells ∖ list_to_set sorted_nodes)
        indegree' sorted_nodes
  end.

End sequencer.

(** ** extract_formula *)

(** What [.] matches and [;] is not: any character but a line feed and
    the semicolon that ends the lazy [(.*?)]. *)
Definition in_expression (c : ascii) : bool :=
  negb (bool_decide (c = ";"%char)) && negb (bool_decide (c = ascii_of_nat 10)).

(** [var {cell} = (.*?);] at the head of [s], for a cell name of
    letters, digits and underscores (any other character of the name
    would be read as syntax of the pattern): the text of group 1, which
    runs to the first semicolon and cannot cross a line feed. *)
Definition declared_expression (cell : CellId) (s : text) : option (list ascii) :=
  match strip_prefix (txt "var " ++ txt cell ++ txt " = ") s with
  | None => None
  | Some r =>
      let '(body, rest) := span in_expression r in
      match rest with
      | ";"%char :: _ => Some body
      | _ => None
      end
  end.

(** [re.search(pattern, s)]: the match at the first position that has
    one. *)
Fixpoint re_search (m : text → option (list ascii)) (s : text) : option (list ascii) :=
  match m s with
  | Some found => Some found
  | None =>
      match s with
      | [] => None
      | _ :: s' => re_search m s'
      end
  end.

Definition extract_formula (js_code : text) (cell : CellId) : list ascii :=
  match re_search (declared_expression cell) js_code with
  | Some formula => formula
  | None => []
  end.

(** * Vocabulary of the statements *)

Definition fresh (st : resolve_state) (v : string) : Prop :=
  (v ∉ resolved st) ∧ (v ∉ unresolved st).

Definition fresh_count (V : list string) (st : resolve_state) : nat :=
  length (filter (fresh st) V).

(** Every cell of [l] comes after the cells it references. *)
Definition respects (g : list (string * list string)) (l : list string) : Prop :=
  ∀ a b, a ∈ l → edge g a b → precedes b a l.

(** What [resolve] keeps true of its state between calls. *)
Record sort_inv (g : list (string * list string)) (st : resolve_state) : Prop := SortInv {
  inv_resolved : ∀ x, x ∈ resolved st ↔ x ∈ sorted_nodes st;
  inv_nodup : NoDup (sorted_nodes st);
  inv_respects : respects g (sorted_nodes st)
}.

(** The contract of one call on an acyclic graph, with the cells still
    being resolved (the call stack) all reaching [node]. *)
Definition resolve_post (g : list (string * list string)) (node : string)
    (st : resolve_state) (b : bool) (st' : resolve_state) : Prop :=
  b = true ∧ sort_inv g st' ∧ unresolved st' = unresolved st
  ∧ node ∈ sorted_nodes st'
  ∧ (∀ x, x ∈ sorted_nodes st → x ∈ sorted_nodes st')
  ∧ (∀ x, x ∈ sorted_nodes st' → x ∈ sorted_nodes st ∨ rtc (edge g) node x).

Definition resolve_spec (g : list (string * list string)) (fuel : nat) : Prop :=
  ∀ node st b st',
    resolve fuel g node st = Some (b, st') → sort_inv g st →
    (∀ u, u ∈ unresolved st → tc (edge g) u node) →
    resolve_post g node st b st'.

(** No cell is both resolved and still being resolved. *)
Definition apart (st : resolve_state) : Prop :=
  ∀ x, x ∈ unresolved st → x ∉ resolved st.

(** The contract of a call that returns [True], on any graph. *)
Definition resolve_true_post (g : list (string * list string)) (node : string)
    (st st' : resolve_state) : Prop :=
  sort_inv g st' ∧ apart st' ∧ unresolved st' = unresolved st
  ∧ node ∈ sorted_nodes st'
  ∧ (∀ x, x ∈ sorted_nodes st → x ∈ sorted_nodes st').

Definition resolve_true_spec (g : list (string * list string)) (fuel : nat) : Prop :=
  ∀ node st st',
    resolve fuel g node st = Some (true, st') → sort_inv g st → apart st →
    resolve_true_post g node st st'.

Definition white (st : dfs_state) (v : string) : Prop := state_of st v = WHITE.

#[global] Instance white_dec st v : Decision (white st v).
Proof. unfold white. apply _. Defined.

Definition white_count (V : list string) (st : dfs_state) : nat :=
  length (filter (white st) V).

(** [graph[vertex]] may insert keys, but the edges stay those of [g0]. *)
Definition same_edges (g0 : list (string * list string)) (st : dfs_state) : Prop :=
  ∀ u, graph_get (dfs_graph st) u = graph_get g0 u.

(** What one run of the search does to the state, whatever it returns. *)
Record dfs_frame (g0 : list (string * list string)) (st st' : dfs_state) : Prop := DfsFrame {
  frame_edges : same_edges g0 st';
  frame_white : ∀ x, white st' x → white st x;
  frame_cycle_mono : cycle_edges st ⊆ cycle_edges st';
  frame_cycle_edges : ∀ u v, (u, v) ∈ cycle_edges st' → (u, v) ∈ cycle_edges st ∨ edge g0 u v
}.

(** The run keeps the edges, and only cells reachable from the start
    change their state. *)
Definition dfs_run_ok (g0 : list (string * list string)) (v : string) (st st' : dfs_state) : Prop :=
  dfs_frame g0 st st' ∧ ∀ x, state_of st' x ≠ state_of st x → rtc (edge g0) v x.

Definition dfs_runs (g0 : list (string * list string)) (fuel : nat) : Prop :=
  ∀ v st b st', dfs fuel v st = Some (b, st') → same_edges g0 st → dfs_run_ok g0 v st st'.

Definition dfs_returns (g0 : list (string * list string)) (V : list string) (fuel : nat)
    : Prop :=
  ∀ v st, same_edges g0 st → v ∈ V → white st v → white_count V st ≤ fuel →
    is_Some (dfs fuel v st).

(** A→B→A, and no other edge leaves or enters A or B. *)
Definition isolated_two_cycle (g : list (string * list string)) (A B : string) : Prop :=
  A ≠ B ∧ graph_get g A = [B] ∧ graph_get g B = [A]
  ∧ ∀ u, u ≠ A → u ≠ B → (A ∉ graph_get g u) ∧ (B ∉ graph_get g u).

(** Every set only holds cells of smaller rank than its key. *)
Definition ranked (rank : string → nat) (g : list (string * list string)) : bool :=
  forallb (λ kd, forallb (λ d, rank d <? rank kd.1) kd.2) g.

(** The position of a cell in a list (its length when absent). *)
Fixpoint position (l : list string) (v : string) : nat :=
  match l with
  | [] => 0
  | x :: l' => if decide (x = v) then 0 else S (position l' v)
  end.

Definition cells_cover (g : list (string * list string)) (cells : list string) : bool :=
  forallb (λ kd, bool_decide (kd.1 ∈ cells) && forallb (λ d, bool_decide (d ∈ cells)) kd.2) g.

(** An isolated two-cycle A1, B1 beside three cells that all reference
    each other. *)
Definition two_cycle_and_tangle : list (string * list string) :=
  [("A1", ["B1"]); ("B1", ["A1"]);
   ("C1", ["D1"; "E1"]); ("D1", ["C1"; "E1"]); ("E1", ["C1"; "D1"])].

(** Three formula cells that reference each other: A1 = B1+C1,
    B1 = A1+C1, C1 = A1+B1. *)
Definition tangle : list (string * list string) :=
  [("A1", ["B1"; "C1"]); ("B1", ["A1"; "C1"]); ("C1", ["A1"; "B1"])].

(** The pattern matches at no position of [s]. *)
Definition matches_nowhere (m : list ascii → option (result (list ascii) * nat))
    (s : list ascii) : Prop :=
  ∀ pre u, s = pre ++ u → m u = None.

(** The text [SUM(ref1:ref2)]. *)
Definition range_sum (ref1 ref2 : list ascii) : list ascii :=
  txt "SUM(" ++ ref1 ++ ":"%char :: ref2 ++ [")"%char].

(** The column letters from [c1] to [c2], both included. *)
Definition columns_between (c1 c2 : ascii) : list ascii :=
  ascii_of_nat <$> seq (code c1) (S (code c2) - code c1).

(** The references of row [row] in the columns from [c1] to [c2], from
    left to right, joined by [+]. *)
Definition addition_chain (c1 c2 : ascii) (row : list ascii) : list ascii :=
  join (txt "+") ((λ c, c :: row) <$> columns_between c1 c2).

(** Every capital is followed by a digit. *)
Fixpoint capitals_lead_digits (s : list ascii) : bool :=
  match s with
  | [] => true
  | c :: s' =>
      (negb (is_upper c) || match s' with d :: _ => is_digit d | [] => false end)
      && capitals_lead_digits s'
  end.

(** The characters of an addition chain. *)
Definition chain_char (c : ascii) : bool := is_upper c || is_digit c || (code c =? 43).

Definition starts_with_letter (ref : list ascii) : Prop :=
  ∃ c rest, ref = c :: rest ∧ is_letter c = true.

(** Wherever [SUM(ref1:ref2)] occurs in [s], both references begin with
    a letter. *)
Definition range_refs_lettered (s : list ascii) : Prop :=
  ∀ pre ref1 ref2 post,
    s = pre ++ range_sum ref1 ref2 ++ post →
    ref1 ≠ [] → ref2 ≠ [] →
    Forall (λ c, is_word c = true) ref1 → Forall (λ c, is_word c = true) ref2 →
    starts_with_letter ref1 ∧ starts_with_letter ref2.

(** Some range sum in [s] has a reference that does not begin with a
    letter. *)
Definition range_ref_unlettered (s : list ascii) : Prop :=
  ∃ pre ref1 ref2 post,
    s = pre ++ range_sum ref1 ref2 ++ post
    ∧ ref1 ≠ [] ∧ ref2 ≠ []
    ∧ Forall (λ c, is_word c = true) ref1 ∧ Forall (λ c, is_word c = true) ref2
    ∧ ¬ (starts_with_letter ref1 ∧ starts_with_letter ref2).

(** None of the patterns of the six passes matches anywhere in [s]. *)
Definition untouched (float_repr : Z → Z → list ascii) (s : list ascii) : Prop :=
  matches_nowhere (comma_percent float_repr) s
  ∧ matches_nowhere percent s
  ∧ matches_nowhere sum_range s
  ∧ matches_nowhere (replace_at (txt "MIN") (txt "Math.min")) s
  ∧ matches_nowhere (replace_at (txt "MAX") (txt "Math.max")) s
  ∧ matches_nowhere comma_decimal s
  ∧ matches_nowhere (replace_at (txt "$") []) s.

Fixpoint suffixes (s : list ascii) : list (list ascii) :=
  s :: match s with
       | [] => []
       | _ :: s' => suffixes s'
       end.

Definition no_raise (r : option (result (list ascii) * nat)) : bool :=
  match r with
  | Some (Raise _, _) => false
  | _ => true
  end.

(** The characters [str] writes a float with. *)
Definition float_char (c : ascii) : bool :=
  is_digit c || bool_decide (c ∈ txt ".e+-infa").

(** The characters of a replacement of the two percent passes: those of
    a float or an int, and the slash of [/100]. *)
Definition inert_char (c : ascii) : bool := float_char c || (code c =? 47).

Definition inert_text (r : list ascii) : Prop :=
  Forall (λ c, inert_char c = true) r ∧ "/"%char ∈ r.

(** The characters of a match of the two percent passes. *)
Definition percent_char (c : ascii) : bool := is_digit c || bool_decide (c ∈ txt ",%").

(** A match of a percent pass: digits and at most one comma, closed by
    the percent sign. *)
Definition percent_text (matched : list ascii) : Prop :=
  Forall (λ c, percent_char c = true) matched ∧ "%"%char ∈ matched.

(** [rewrites s t]: [t] is [s] with some percentages replaced by inert
    texts, which is what the two percent passes do. *)
Inductive rewrites : list ascii → list ascii → Prop :=
  | rewrites_nil : rewrites [] []
  | rewrites_copy c s t : rewrites s t → rewrites (c :: s) (c :: t)
  | rewrites_repl matched r s t :
      percent_text matched → inert_text r → rewrites s t → rewrites (matched ++ s) (r ++ t).

(** No run of digits in [s] is longer than [n]. *)
Definition digit_runs_within (n : nat) (s : list ascii) : Prop :=
  ∀ pre d post, s = pre ++ d ++ post → Forall (λ c, is_digit c = true) d → length d ≤ n.

(** Graph keys are defined cells, and defined cells are keys of
    [all_cells]. *)
Definition extraction_inv (st : extraction) : Prop :=
  (∀ k deps, (k, deps) ∈ dependency_graph st → k ∈ defined_cells st)
  ∧ (∀ x, x ∈ defined_cells st → x ∈ (all_cells st).*1).

Definition gray (st : dfs_state) (v : string) : Prop := state_of st v = GRAY.

Definition black (st : dfs_state) (v : string) : Prop := state_of st v = BLACK.

(** What a run of the search does on a graph without cycles, started
    with every cell in progress reaching the start. *)
Definition dfs_quiet_post (g0 : list (string * list string)) (st : dfs_state) (b : bool)
    (st' : dfs_state) : Prop :=
  b = false ∧ cycle_edges st' = cycle_edges st ∧ (∀ u, gray st' u ↔ gray st u)
  ∧ same_edges g0 st'.

Definition dfs_quiet (g0 : list (string * list string)) (fuel : nat) : Prop :=
  ∀ v st b st',
    dfs fuel v st = Some (b, st') → same_edges g0 st →
    (∀ u, gray st u → tc (edge g0) u v) →
    dfs_quiet_post g0 st b st'.

(** The finished cells, in the order in which they were finished: each
    comes after the cells it references. *)
Definition finished (g0 : list (string * list string)) (st : dfs_state) (l : list string)
    : Prop :=
  (∀ x, black st x ↔ x ∈ l) ∧ NoDup l ∧ respects g0 l.

(** What a run that records no edge does. *)
Definition dfs_clean_post (g0 : list (string * list string)) (st : dfs_state) (l : list string)
    (b : bool) (st' : dfs_state) (l' : list string) : Prop :=
  b = false ∧ finished g0 st' l' ∧ (∀ x, x ∈ l → x ∈ l')
  ∧ (∀ x, ¬ white st x → state_of st' x = state_of st x)
  ∧ (∀ x, gray st' x → gray st x).

Definition dfs_clean (g0 : list (string * list string)) (fuel : nat) : Prop :=
  ∀ v st b st' l,
    dfs fuel v st = Some (b, st') → same_edges g0 st → cycle_edges st' = ∅ →
    white st v → finished g0 st l →
    ∃ l', dfs_clean_post g0 st l b st' l' ∧ v ∈ l'.

(** A graph as a dict of sets has it: no key twice, no member twice. *)
Definition graph_wf (g : list (string * list string)) : Prop :=
  NoDup g.*1 ∧ ∀ k deps, (k, deps) ∈ g → NoDup deps.

(** Every line of the cell mapping declares its own key, and every
    formula kept begins with [=]. *)
Definition extraction_wf (st : extraction) : Prop :=
  NoDup (all_cells st).*1
  ∧ (∀ k line, (k, line) ∈ all_cells st → ∃ value, line = declaration k value)
  ∧ NoDup (original_formulas st).*1
  ∧ (∀ k f, (k, f) ∈ original_formulas st →
       k ∈ (all_cells st).*1 ∧ ∃ formula, f = "="%char :: formula)
  ∧ graph_wf (dependency_graph st).

Definition unvisited (st : walk) (v : string) : Prop := v ∉ visited st.

Definition unvisited_count (V : list string) (st : walk) : nat :=
  length (filter (unvisited st) V).

(** A warning names a cell on a cycle that [start] reaches. *)
Definition warns_of_cycle (g : list (string * list string)) (start : string) (line : string)
    : Prop :=
  ∃ x, line = circular_warning x ∧ rtc (edge g) start x ∧ tc (edge g) x x.

(** What a call of [build_tree] that returns leaves behind. *)
Definition build_tree_post {L : Type} (formatter : string → L) (g : list (string * list string))
    (node : string) (st : walk) (r : walk_result (list (tree L) * walk)) : Prop :=
  ∃ branches lines,
    r = Done (branches, Walk (visited st) (printed st ++ lines))
    ∧ (node ∈ visited st → branches = [] ∧ lines = [circular_warning node])
    ∧ (node ∉ visited st → tree_label <$> branches = formatter <$> graph_get g node).

Definition build_tree_spec {L : Type} (formatter : string → L) (g : list (string * list string))
    (fuel : nat) : Prop :=
  ∀ node st r, build_tree formatter fuel g node st = Some r → build_tree_post formatter g node st r.

(** The cells emitted or queued are distinct, and none of them is still
    waited for. *)
Definition queue_inv (indegree : gmap string Z) (listed : list string) : Prop :=
  NoDup listed ∧ ∀ v, v ∈ listed → (indegree_of indegree v ≤ 0)%Z.

(** The bindings of the graph whose key is not yet emitted and whose set
    holds [v]. *)
Definition pending (g : list (string * list string)) (sorted_nodes : list string) (v : string)
    : list (string * list string) :=
  filter (λ item, (item.1 ∉ sorted_nodes) ∧ v ∈ item.2) g.

(** What the first loop keeps true on a well-formed graph whose cells
    are complete. *)
Record kahn_inv (g : list (string * list string)) (cells : list string)
    (queue : list string) (indegree : gmap string Z) (sorted_nodes : list string)
    : Prop := KahnInv {
  kahn_nodup : NoDup (sorted_nodes ++ queue);
  kahn_count : ∀ v, indegree_of indegree v = Z.of_nat (length (pending g sorted_nodes v));
  kahn_zero : ∀ v, v ∈ sorted_nodes ++ queue → indegree_of indegree v = 0%Z;
  kahn_queued : ∀ v, v ∈ cells → indegree_of indegree v = 0%Z → v ∈ sorted_nodes ++ queue;
  kahn_order : ∀ a b, edge g a b → b ∈ sorted_nodes → precedes a b sorted_nodes;
  kahn_cells : ∀ v, v ∈ sorted_nodes ++ queue → v ∈ cells
}.

(** The text [var <cell> = ] begins at no position of [pre], in the
    text [pre ++ rest]. *)
Definition not_declared_in (cell : string) (pre rest : list ascii) : Prop :=
  ∀ p1 c p2, pre = p1 ++ c :: p2 →
    strip_prefix (txt "var " ++ txt cell ++ txt " = ") (c :: p2 ++ rest) = None.

(** The formula of a cell, without its [=], if it holds one. *)
Definition formula_of (value : cell_value) : option (list ascii) :=
  match value with
  | Text ("="%char :: formula) => Some formula
  | _ => None
  end.

(** The formulas of a sheet, row by row. *)
Definition formulas_of (s : list (list cell_value)) : list (list ascii) :=
  concat ((λ row : list cell_value, omap formula_of row) <$> s).

(** The name line 72 gives the cell in row [row_idx], column [col_idx]:
    [get_column_letter(col_idx) + str(row_idx)]. *)
Definition cell_name (row_idx col_idx : nat) : result string :=
  col ← get_column_letter (Z.of_nat col_idx);
  Ok (string_of_list_ascii (col ++ py_str (Z.of_nat row_idx))).

(** The references of a formula, as lines 83 to 85 find and clean
    them. *)
Definition references (formula : list ascii) : list string :=
  (λ r, string_of_list_ascii (filter (λ c, c ≠ "$"%char) r)) <$> findall cell_reference formula.

(** What the extractor holds for the cell [name] with the value
    [value]. *)
Definition recorded (float_repr : Z → Z → list ascii) (st : extraction) (name : string)
    (value : cell_value) : Prop :=
  match value with
  | Number shown =>
      name ∈ defined_cells st ∧ dict_get (all_cells st) name = Some (declaration name shown)
  | _ =>
      match formula_of value with
      | Some formula =>
          name ∈ defined_cells st
          ∧ (∃ js, convert_to_js float_repr formula = Ok js
                   ∧ dict_get (all_cells st) name = Some (declaration name js))
          ∧ dict_get (original_formulas st) name = Some ("="%char :: formula)
          ∧ ∀ b, edge (dependency_graph st) name b ↔ b ∈ references formula
      | None => name ∉ defined_cells st
      end
  end.

(** The cells of a row and of a sheet with their indices, in the order
    of the two loops. *)
Fixpoint row_cells (row_idx col_idx : nat) (row : list cell_value)
    : list (nat * nat * cell_value) :=
  match row with
  | [] => []
  | value :: row' => (row_idx, col_idx, value) :: row_cells row_idx (S col_idx) row'
  end.

Fixpoint sheet_cells (row_idx : nat) (rows : list (list cell_value))
    : list (nat * nat * cell_value) :=
  match rows with
  | [] => []
  | row :: rows' => row_cells row_idx 1 row ++ sheet_cells (S row_idx) rows'
  end.

(** Every cell gone through has a name and is recorded under it, every
    defined name is the name of such a cell, and only defined names are
    keys of [all_cells]. *)
Definition extraction_record (float_repr : Z → Z → list ascii) (st : extraction)
    (seen : list (nat * nat * cell_value)) : Prop :=
  (∀ r c v, (r, c, v) ∈ seen →
     ∃ name, cell_name r c = Ok name ∧ recorded float_repr st name v)
  ∧ (∀ x, x ∈ defined_cells st → ∃ r c v, (r, c, v) ∈ seen ∧ cell_name r c = Ok x)
  ∧ (∀ k, k ∈ (all_cells st).*1 → k ∈ defined_cells st).

(** Every binding of the graph belongs to a formula cell gone through
    and holds at least one reference. *)
Definition graph_of_formulas (st : extraction) (seen : list (nat * nat * cell_value)) : Prop :=
  ∀ k deps, (k, deps) ∈ dependency_graph st →
    deps ≠ []
    ∧ ∃ r c formula, (r, c, Text ("="%char :: formula)) ∈ seen ∧ cell_name r c = Ok k.

(** * Properties *)

(** ** Lists and the graph *)

Section filter_length.
Context {A : Type} (P Q : A → Prop) `{!∀ x, Decision (P x)} `{!∀ x, Decision (Q x)}.

Lemma filter_length_mono (l : list A) :
  (∀ x, x ∈ l → P x → Q x) → length (filter P l) ≤ length (filter Q l).
Proof.
  induction l as [|a l IH]; intros HPQ; [done|].
  rewrite !filter_cons.
  assert (length (filter P l) ≤ length (filter Q l)) by (apply IH; set_solver).
  destruct (decide (P a)) as [HP|HP]; destruct (decide (Q a)) as [HQ|HQ]; simpl; try lia.
  exfalso. apply HQ, HPQ; [set_solver|done].
Qed.

Lemma filter_length_lt (l : list A) (v : A) :
  (∀ x, x ∈ l → P x → Q x) → v ∈ l → Q v → ¬ P v →
  length (filter P l) < length (filter Q l).
Proof.
  induction l as [|a l IH]; intros HPQ Hv HQv HPv; [by apply elem_of_nil in Hv|].
  rewrite !filter_cons.
  assert (length (filter P l) ≤ length (filter Q l)).
  { apply filter_length_mono. intros x Hx. apply HPQ. by right. }
  apply elem_of_cons in Hv as [->|Hv].
  - rewrite (decide_True _ _ HQv), (decide_False _ _ HPv). simpl. lia.
  - assert (length (filter P l) < length (filter Q l)) by (apply IH; set_solver).
    destruct (decide (P a)) as [HP|HP]; destruct (decide (Q a)) as [HQ|HQ]; simpl; try lia.
    exfalso. apply HQ, HPQ; [set_solver|done].
Qed.
End filter_length.

Lemma graph_get_vertices (g : list (string * list string)) (cells : list string) a b :
  edge g a b → b ∈ vertices g cells.
Proof.
  unfold edge, graph_get, vertices. intros Hb.
  apply elem_of_app; right. apply elem_of_app; right.
  induction g as [|[k deps] g IH]; simpl in *; [by apply elem_of_nil in Hb|].
  apply elem_of_app. destruct (decide (k = a)); simpl in *; eauto.
Qed.

(** ** The depth-first sort never runs out of fuel *)

Section resolve_fuel.
Variable g : list (string * list string).
Variable V : list string.
Hypothesis V_closed : ∀ a b, edge g a b → b ∈ V.

Lemma fresh_count_mono st st' :
  (∀ x, fresh st' x → fresh st x) → fresh_count V st' ≤ fresh_count V st.
Proof. intros H. apply filter_length_mono. auto. Qed.

Lemma resolve_deps_fuel_enough fuel :
  (∀ node st, node ∈ V → fresh_count V st < fuel →
     ∃ b st', resolve fuel g node st = Some (b, st') ∧ ∀ x, fresh st' x → fresh st x) →
  ∀ deps st, (∀ d, d ∈ deps → d ∈ V) → fresh_count V st < fuel →
    ∃ b st', resolve_deps (resolve fuel g) deps st = Some (b, st')
             ∧ ∀ x, fresh st' x → fresh st x.
Proof.
  intros IH deps. induction deps as [|d deps IHd]; intros st Hd Hlt; simpl.
  - eauto.
  - destruct (IH d st) as (b & st1 & -> & Hmono); [set_solver|done|].
    destruct b; [|eauto].
    destruct (IHd st1) as (b & st2 & -> & Hmono2).
    + intros d' Hd'. apply Hd. by right.
    + pose proof (fresh_count_mono _ _ Hmono). lia.
    + eexists _, _. split; [done|]. auto.
Qed.

Lemma resolve_fuel_enough fuel node st :
  node ∈ V → fresh_count V st < fuel →
  ∃ b st', resolve fuel g node st = Some (b, st') ∧ ∀ x, fresh st' x → fresh st x.
Proof.
  revert node st. induction fuel as [|fuel IH]; intros node st HV Hlt; [lia|].
  simpl. destruct (decide (node ∈ resolved st)); [eauto|].
  destruct (decide (node ∈ unresolved st)); [eauto|].
  set (st1 := ResolveState _ _ _).
  assert (fresh_count V st1 < fresh_count V st) as Hdec.
  { apply (filter_length_lt _ _ _ node); [|done|done|].
    - intros x _ [Hr Hu]; split; [done|]. intros Hx. apply Hu. simpl. set_solver.
    - intros [_ Hu]. apply Hu. simpl. set_solver. }
  destruct (resolve_deps_fuel_enough fuel IH (graph_get g node) st1)
    as (b & st2 & -> & Hmono); [by intros; eapply V_closed|lia|].
  assert (∀ x, fresh st1 x → fresh st x) as Hst1.
  { intros x [Hr Hu]; split; [done|]. intros Hx. apply Hu. simpl. set_solver. }
  destruct b; eexists _, _; (split; [done|]); intros x Hx; apply Hst1, Hmono; [|done].
  destruct Hx as [Hr Hu]; simpl in *. split; [set_solver|].
  intros Hx. apply Hu. apply elem_of_difference. split; [done|]. set_solver.
Qed.
End resolve_fuel.

Lemma fresh_count_le (V : list string) st : fresh_count V st ≤ length V.
Proof. apply length_filter. Qed.

Lemma resolve_all_fuel_enough (g : list (string * list string)) (V : list string) fuel :
  (∀ a b, edge g a b → b ∈ V) → length V < fuel →
  ∀ nodes st, (∀ n, n ∈ nodes → n ∈ V) → is_Some (resolve_all fuel g nodes st).
Proof.
  intros HV Hfuel. induction nodes as [|n nodes IH]; intros st Hnodes; simpl; [done|].
  destruct (resolve_fuel_enough g V HV fuel n st) as (b & st1 & -> & _).
  - apply Hnodes. by left.
  - pose proof (fresh_count_le V st). lia.
  - destruct b; [|done]. apply IH. intros n' Hn'. apply Hnodes. by right.
Qed.

(** [resolve_and_sort] returns or raises: the fuel it passes is enough. *)
Lemma resolve_and_sort_fuel_enough (g : list (string * list string)) (cells : list string) :
  is_Some (resolve_and_sort g cells).
Proof.
  unfold resolve_and_sort.
  destruct (resolve_all_fuel_enough g (vertices g cells) (S (length (vertices g cells)))
              (graph_get_vertices g cells) ltac:(lia) cells (ResolveState ∅ ∅ []))
    as [r ->]; [|done].
  intros n Hn. unfold vertices. apply elem_of_app. by left.
Qed.

(** ** The depth-first sort on an acyclic graph *)

Lemma precedes_snoc b a x (l : list string) : precedes b a l → precedes b a (l ++ [x]).
Proof.
  intros (l1 & l2 & -> & Hb). exists l1, (l2 ++ [x]). split; [|done].
  by rewrite <- app_assoc.
Qed.

Lemma precedes_last b a (l : list string) : b ∈ l → precedes b a (l ++ [a]).
Proof. intros Hb. by exists l, []. Qed.

Lemma precedes_in b a (l : list string) : precedes b a l → b ∈ l ∧ a ∈ l.
Proof. intros (l1 & l2 & -> & Hb). set_solver. Qed.

Section resolve_acyclic.
Variable g : list (string * list string).
Hypothesis g_acyclic : acyclic g.

Lemma resolve_deps_acyclic fuel (IH : resolve_spec g fuel) deps :
  ∀ st b st',
    resolve_deps (resolve fuel g) deps st = Some (b, st') → sort_inv g st →
    (∀ d u, d ∈ deps → u ∈ unresolved st → tc (edge g) u d) →
    b = true ∧ sort_inv g st' ∧ unresolved st' = unresolved st
    ∧ (∀ d, d ∈ deps → d ∈ sorted_nodes st')
    ∧ (∀ x, x ∈ sorted_nodes st → x ∈ sorted_nodes st')
    ∧ (∀ x, x ∈ sorted_nodes st' →
         x ∈ sorted_nodes st ∨ ∃ d, d ∈ deps ∧ rtc (edge g) d x).
Proof.
  induction deps as [|d deps IHd]; intros st b st' Hrun Hinv Hstack; simpl in Hrun.
  - injection Hrun as <- <-. split_and!; try done; [intros d Hd; by apply elem_of_nil in Hd|auto].
  - destruct (resolve fuel g d st) as [[b1 st1]|] eqn:Hd; [|done].
    destruct (IH _ _ _ _ Hd Hinv) as (-> & Hinv1 & Hun1 & Hd1 & Hsub1 & Hnew1).
    { intros u Hu. apply Hstack; [by left|done]. }
    destruct (IHd _ _ _ Hrun Hinv1) as (-> & Hinv2 & Hun2 & Hd2 & Hsub2 & Hnew2).
    { intros d' u Hd' Hu. apply Hstack; [by right|congruence]. }
    split_and!; try done; [congruence| |auto|].
    + intros d' [->|Hd']%elem_of_cons; auto.
    + intros x Hx. destruct (Hnew2 x Hx) as [Hx1|(d' & Hd' & Hr)].
      * destruct (Hnew1 x Hx1) as [?|?]; [by left|right].
        exists d. split; [by left|done].
      * right. exists d'. split; [by right|done].
Qed.

Lemma resolve_acyclic fuel : resolve_spec g fuel.
Proof.
  induction fuel as [|fuel IH]; intros node st b st' Hrun Hinv Hstack; [done|].
  simpl in Hrun.
  destruct (decide (node ∈ resolved st)) as [Hres|Hres].
  { injection Hrun as <- <-. split_and!; auto. by apply Hinv. }
  destruct (decide (node ∈ unresolved st)) as [Hun|Hun].
  { destruct (g_acyclic node). by apply Hstack. }
  set (st1 := ResolveState _ _ _) in Hrun.
  destruct (resolve_deps _ _ st1) as [[b2 st2]|] eqn:Hdeps; [|done].
  assert (sort_inv g st1) as Hinv1 by (destruct Hinv; by split).
  destruct (resolve_deps_acyclic fuel IH _ _ _ _ Hdeps Hinv1)
    as (-> & Hinv2 & Hun2 & Hd2 & Hsub2 & Hnew2).
  { intros d u Hd [->%elem_of_singleton|Hu]%elem_of_union.
    - by apply tc_once.
    - eapply tc_r; [by apply Hstack|done]. }
  injection Hrun as <- <-. simpl in *.
  assert (node ∉ sorted_nodes st2) as Hfresh.
  { intros Hin. destruct (Hnew2 _ Hin) as [Hold|(d & Hd & Hr)].
    - apply Hres. by apply Hinv.
    - destruct (g_acyclic node). eapply tc_rtc_r; [|done]. by apply tc_once. }
  split; [done|]. split; [|split_and!].
  - destruct Hinv2 as [Hr2 Hnd2 Hresp2]. split; simpl.
    + intros x. rewrite elem_of_union, elem_of_singleton, elem_of_app, Hr2.
      rewrite list_elem_of_singleton. tauto.
    + apply NoDup_app. repeat split; [done| |apply NoDup_singleton].
      intros x Hx ->%list_elem_of_singleton. done.
    + intros a b [Ha| ->%list_elem_of_singleton]%elem_of_app Hab.
      * by apply precedes_snoc, Hresp2.
      * by apply precedes_last, Hd2.
  - rewrite Hun2. simpl. apply set_eq. intros x.
    rewrite elem_of_difference, elem_of_union, elem_of_singleton.
    split; [tauto|]. intros Hx. split; [by right|]. by intros ->.
  - apply elem_of_app. right. by left.
  - intros x Hx. apply elem_of_app. left. auto.
  - intros x [Hx| ->%list_elem_of_singleton]%elem_of_app.
    + destruct (Hnew2 _ Hx) as [?|(d & Hd & Hr)]; [by left|right].
      eapply rtc_l; [|done]. done.
    + by right.
Qed.
End resolve_acyclic.

Lemma resolve_all_acyclic (g : list (string * list string)) (V : list string) fuel :
  acyclic g → (∀ a b, edge g a b → b ∈ V) → length V < fuel →
  ∀ nodes st,
    (∀ n, n ∈ nodes → n ∈ V) → sort_inv g st → unresolved st = ∅ →
    ∃ st', resolve_all fuel g nodes st = Some (Ok st')
      ∧ sort_inv g st' ∧ unresolved st' = ∅
      ∧ (∀ n, n ∈ nodes → n ∈ sorted_nodes st')
      ∧ (∀ x, x ∈ sorted_nodes st → x ∈ sorted_nodes st')
      ∧ (∀ x, x ∈ sorted_nodes st' →
           x ∈ sorted_nodes st ∨ ∃ n, n ∈ nodes ∧ rtc (edge g) n x).
Proof.
  intros Hac HV Hfuel nodes.
  induction nodes as [|n nodes IH]; intros st Hnodes Hinv Hun; simpl.
  - exists st. split_and!; try done; [intros n Hn; by apply elem_of_nil in Hn|auto].
  - destruct (resolve_fuel_enough g V HV fuel n st) as (b & st1 & Hrun & _).
    { apply Hnodes. by left. }
    { pose proof (fresh_count_le V st). lia. }
    rewrite Hrun.
    destruct (resolve_acyclic g Hac fuel _ _ _ _ Hrun Hinv)
      as (-> & Hinv1 & Hun1 & Hn1 & Hsub1 & Hnew1).
    { intros u. rewrite Hun. by intros ?%elem_of_empty. }
    destruct (IH st1) as (st2 & -> & Hinv2 & Hun2 & Hn2 & Hsub2 & Hnew2);
      [by intros; apply Hnodes; right|done|congruence|].
    exists st2. split_and!; try done.
    + intros n' [->|Hn']%elem_of_cons; auto.
    + auto.
    + intros x Hx. destruct (Hnew2 x Hx) as [Hx1|(n' & Hn' & Hr)].
      * destruct (Hnew1 x Hx1); [by left|right]. exists n. split; [by left|done].
      * right. exists n'. split; [by right|done].
Qed.

Lemma sort_inv_init (g : list (string * list string)) : sort_inv g (ResolveState ∅ ∅ []).
Proof.
  split; simpl.
  - intros x. split; [by intros ?%elem_of_empty|by intros ?%elem_of_nil].
  - apply NoDup_nil_2.
  - intros a b Ha. by apply elem_of_nil in Ha.
Qed.

Lemma complete_reach (g : list (string * list string)) (cells : list string) n x :
  complete g cells → n ∈ cells → rtc (edge g) n x → x ∈ cells.
Proof.
  intros Hc Hn Hr. induction Hr as [|a b c Hab _ IH]; [done|].
  apply IH. by apply (Hc a b).
Qed.

(** On an acyclic graph the loop over the cells ends without raising,
    with every cell sorted and nothing but what the cells reach. *)
Lemma resolve_and_sort_acyclic (g : list (string * list string)) (cells : list string) :
  acyclic g →
  ∃ st, resolve_all (S (length (vertices g cells))) g cells (ResolveState ∅ ∅ []) = Some (Ok st)
    ∧ sort_inv g st
    ∧ (∀ n, n ∈ cells → n ∈ sorted_nodes st)
    ∧ (∀ x, x ∈ sorted_nodes st → ∃ n, n ∈ cells ∧ rtc (edge g) n x).
Proof.
  intros Hac.
  destruct (resolve_all_acyclic g (vertices g cells) (S (length (vertices g cells))) Hac)
    with (nodes := cells) (st := ResolveState ∅ ∅ [])
    as (st & Hrun & Hinv & _ & Hin & _ & Hnew).
  - intros a b. apply graph_get_vertices.
  - lia.
  - intros n Hn. unfold vertices. apply elem_of_app. by left.
  - apply sort_inv_init.
  - done.
  - exists st. split_and!; try done.
    intros x Hx. destruct (Hnew x Hx) as [Hnil|?]; [|done]. by apply elem_of_nil in Hnil.
Qed.

(** ** The depth-first sort on any graph: what an order returned means *)

Section resolve_true.
Variable g : list (string * list string).

Lemma resolve_deps_true fuel (IH : resolve_true_spec g fuel) deps :
  ∀ st st',
    resolve_deps (resolve fuel g) deps st = Some (true, st') → sort_inv g st → apart st →
    sort_inv g st' ∧ apart st' ∧ unresolved st' = unresolved st
    ∧ (∀ d, d ∈ deps → d ∈ sorted_nodes st')
    ∧ (∀ x, x ∈ sorted_nodes st → x ∈ sorted_nodes st').
Proof.
  induction deps as [|d deps IHd]; intros st st' Hrun Hinv Hap; simpl in Hrun.
  - injection Hrun as <-. split_and!; try done. intros d Hd. by apply elem_of_nil in Hd.
  - destruct (resolve fuel g d st) as [[[] st1]|] eqn:Hd; [|done..].
    destruct (IH _ _ _ Hd Hinv Hap) as (Hinv1 & Hap1 & Hun1 & Hd1 & Hsub1).
    destruct (IHd _ _ Hrun Hinv1 Hap1) as (Hinv2 & Hap2 & Hun2 & Hd2 & Hsub2).
    split_and!; try done; [congruence| |auto].
    intros d' [->|Hd']%elem_of_cons; auto.
Qed.

Lemma resolve_true fuel : resolve_true_spec g fuel.
Proof.
  induction fuel as [|fuel IH]; intros node st st' Hrun Hinv Hap; [done|].
  simpl in Hrun.
  destruct (decide (node ∈ resolved st)) as [Hres|Hres].
  { injection Hrun as <-. split_and!; auto. by apply Hinv. }
  destruct (decide (node ∈ unresolved st)) as [Hun|Hun]; [done|].
  set (st1 := ResolveState _ _ _) in Hrun.
  destruct (resolve_deps _ _ st1) as [[[] st2]|] eqn:Hdeps; [|done..].
  assert (sort_inv g st1) as Hinv1 by (destruct Hinv; by split).
  assert (apart st1) as Hap1.
  { intros x [->%elem_of_singleton|Hx]%elem_of_union; [done|by apply Hap]. }
  destruct (resolve_deps_true fuel IH _ _ _ Hdeps Hinv1 Hap1)
    as (Hinv2 & Hap2 & Hun2 & Hd2 & Hsub2).
  injection Hrun as <-. simpl in *.
  assert (node ∉ sorted_nodes st2) as Hfresh.
  { intros Hin. apply (Hap2 node); [|by apply Hinv2].
    rewrite Hun2. apply elem_of_union. left. by apply elem_of_singleton. }
  split; [|split_and!].
  - destruct Hinv2 as [Hr2 Hnd2 Hresp2]. split; simpl.
    + intros x. rewrite elem_of_union, elem_of_singleton, elem_of_app, Hr2.
      rewrite list_elem_of_singleton. tauto.
    + apply NoDup_app. repeat split; [done| |apply NoDup_singleton].
      intros x Hx ->%list_elem_of_singleton. done.
    + intros a b [Ha| ->%list_elem_of_singleton]%elem_of_app Hab.
      * by apply precedes_snoc, Hresp2.
      * by apply precedes_last, Hd2.
  - intros x [Hx Hne]%elem_of_difference. simpl.
    intros [->%elem_of_singleton|Hx']%elem_of_union.
    + apply Hne. by apply elem_of_singleton.
    + by apply (Hap2 x).
  - rewrite Hun2. simpl. apply set_eq. intros x.
    rewrite elem_of_difference, elem_of_union, elem_of_singleton.
    split; [tauto|]. intros Hx. split; [by right|]. by intros ->.
  - apply elem_of_app. right. by left.
  - intros x Hx. apply elem_of_app. left. auto.
Qed.

Lemma resolve_all_Ok fuel nodes :
  ∀ st st',
    resolve_all fuel g nodes st = Some (Ok st') → sort_inv g st → apart st →
    sort_inv g st' ∧ apart st'
    ∧ (∀ n, n ∈ nodes → n ∈ sorted_nodes st')
    ∧ (∀ x, x ∈ sorted_nodes st → x ∈ sorted_nodes st').
Proof.
  induction nodes as [|n nodes IH]; intros st st' Hrun Hinv Hap; simpl in Hrun.
  - injection Hrun as <-. split_and!; try done. intros n Hn. by apply elem_of_nil in Hn.
  - destruct (resolve fuel g n st) as [[[] st1]|] eqn:Hn; [|done..].
    destruct (resolve_true fuel _ _ _ Hn Hinv Hap) as (Hinv1 & Hap1 & _ & Hn1 & Hsub1).
    destruct (IH _ _ Hrun Hinv1 Hap1) as (Hinv2 & Hap2 & Hn2 & Hsub2).
    split_and!; try done; [|auto].
    intros n' [->|Hn']%elem_of_cons; auto.
Qed.

(** The only exception the loop raises is the one that names a cell. *)
Lemma resolve_all_Raise fuel nodes :
  ∀ st e,
    resolve_all fuel g nodes st = Some (Raise e) →
    ∃ node, node ∈ nodes ∧ e = ValueError (cycle_message node).
Proof.
  induction nodes as [|n nodes IH]; intros st e Hrun; simpl in Hrun; [done|].
  destruct (resolve fuel g n st) as [[[] st1]|] eqn:Hn; [| |done].
  - destruct (IH _ _ Hrun) as (node & Hin & ->). exists node. split; [by right|done].
  - injection Hrun as <-. exists n. split; [by left|done].
Qed.
End resolve_true.

Lemma position_app_in (l1 l2 : list string) b :
  b ∈ l1 → position (l1 ++ l2) b < length l1.
Proof.
  induction l1 as [|x l1 IH]; simpl; [by intros ?%elem_of_nil|].
  intros Hb. destruct (decide (x = b)); [lia|].
  apply elem_of_cons in Hb as [->|Hb]; [done|]. specialize (IH Hb). lia.
Qed.

Lemma position_app_notin (l1 l2 : list string) a :
  a ∉ l1 → position (l1 ++ a :: l2) a = length l1.
Proof.
  induction l1 as [|x l1 IH]; simpl; intros Ha.
  - by rewrite decide_True.
  - rewrite decide_False; [|intros ->; apply Ha; by left].
    rewrite IH; [done|]. intros Hin. apply Ha. by right.
Qed.

Lemma precedes_position (l : list string) b a :
  NoDup l → precedes b a l → position l b < position l a.
Proof.
  intros Hnd (l1 & l2 & -> & Hb).
  apply NoDup_app in Hnd as (_ & Hdis & _).
  rewrite position_app_notin.
  - by apply position_app_in.
  - intros Ha. apply (Hdis a Ha). by left.
Qed.

Lemma acyclic_rank (rank : string → nat) (g : list (string * list string)) :
  (∀ a b, edge g a b → rank b < rank a) → acyclic g.
Proof.
  intros Hr v Hv.
  assert (∀ x y, tc (edge g) x y → rank y < rank x) as Htc.
  { intros x y Hxy. induction Hxy as [x y Hxy|x y z Hxy _ IH].
    - by apply Hr.
    - pose proof (Hr x y Hxy). lia. }
  specialize (Htc v v Hv). lia.
Qed.

(** An order is only returned for a graph without cycles. *)
Lemma resolve_and_sort_Ok_acyclic (g : list (string * list string)) (cells order : list string) :
  resolve_and_sort g cells = Some (Ok order) → complete g cells → acyclic g.
Proof.
  unfold resolve_and_sort. intros Hrun Hc.
  destruct (resolve_all _ g cells _) as [[st|e]|] eqn:Hall; [|done..].
  injection Hrun as <-.
  destruct (resolve_all_Ok g _ _ _ _ Hall (sort_inv_init g)) as ([_ Hnd Hresp] & _ & Hin & _).
  { intros x Hx. by apply elem_of_empty in Hx. }
  apply (acyclic_rank (position (sorted_nodes st))).
  intros a b Hab. apply precedes_position; [done|].
  apply Hresp; [|done]. apply Hin. by apply (Hc a b).
Qed.

(** [resolve_and_sort] raises nothing but the ValueError that names a
    cell. *)
Lemma resolve_and_sort_Raise (g : list (string * list string)) (cells : list string) e :
  resolve_and_sort g cells = Some (Raise e) →
  ∃ node, node ∈ cells ∧ e = ValueError (cycle_message node).
Proof.
  unfold resolve_and_sort. intros Hrun.
  destruct (resolve_all _ g cells _) as [[st|e']|] eqn:Hall; [done| |done].
  injection Hrun as <-. by apply (resolve_all_Raise g _ _ _ _ Hall).
Qed.

(** C1: on an acyclic graph with a complete cell mapping, [resolve_and_sort]
    returns an order in which every cell of the mapping occurs exactly
    once (and nothing else occurs), and in which, for every edge A→B of
    the graph, B comes before A. *)
Theorem resolve_and_sort_topological (g : list (string * list string)) (cells : list string) :
  acyclic g → complete g cells →
  ∃ order, resolve_and_sort g cells = Some (Ok order)
    ∧ NoDup order
    ∧ (∀ c, c ∈ order ↔ c ∈ cells)
    ∧ (∀ a b, edge g a b → precedes b a order).
Proof.
  intros Hac Hc. unfold resolve_and_sort.
  destruct (resolve_and_sort_acyclic g cells Hac) as (st & -> & Hinv & Hin & Hnew).
  exists (sorted_nodes st). destruct Hinv as [_ Hnd Hresp]. split_and!; try done.
  - intros c. split; [|apply Hin].
    intros Hx. destruct (Hnew c Hx) as (n & Hn & Hr). by apply (complete_reach g cells n).
  - intros a b Hab. apply Hresp; [|done]. apply Hin. by apply (Hc a b).
Qed.

(** ** The cycle breaker: graph operations *)

Lemma graph_lookup_app (g h : list (string * list string)) u :
  graph_lookup (g ++ h) u
  = match graph_lookup g u with Some deps => Some deps | None => graph_lookup h u end.
Proof.
  induction g as [|[k deps] g IH]; simpl; [done|]. by destruct (decide (k = u)).
Qed.

Lemma graph_getitem_deps (g : list (string * list string)) v :
  (graph_getitem g v).1 = graph_get g v.
Proof. unfold graph_getitem, graph_get. by destruct (graph_lookup g v). Qed.

Lemma graph_getitem_get (g : list (string * list string)) v u :
  graph_get (graph_getitem g v).2 u = graph_get g u.
Proof.
  unfold graph_getitem, graph_get. destruct (graph_lookup g v) eqn:Hv; simpl; [done|].
  rewrite graph_lookup_app. destruct (graph_lookup g u); simpl; [done|].
  by destruct (decide (v = u)).
Qed.

Lemma graph_get_remove (g : list (string * list string)) u v x :
  graph_get (graph_remove g u v) x
  = if decide (x = u) then filter (λ d, d ≠ v) (graph_get g x) else graph_get g x.
Proof.
  unfold graph_get. induction g as [|[k deps] g IH]; simpl.
  - by destruct (decide (x = u)).
  - destruct (decide (k = u)) as [->|Hku]; simpl.
    + destruct (decide (u = x)) as [->|Hux].
      * by rewrite decide_True.
      * by rewrite decide_False.
    + destruct (decide (k = x)) as [->|Hkx]; simpl; [|done].
      by rewrite decide_False.
Qed.

Lemma edge_remove (g : list (string * list string)) u v a b :
  edge (graph_remove g u v) a b ↔ edge g a b ∧ (a, b) ≠ (u, v).
Proof.
  unfold edge. rewrite graph_get_remove. destruct (decide (a = u)) as [->|Hau].
  - rewrite list_elem_of_filter. split.
    + intros [Hne Hb]. split; [done|]. congruence.
    + intros [Hb Hne]. split; [|done]. congruence.
  - split; [|tauto]. intros Hb. split; [done|]. congruence.
Qed.

Lemma edge_remove_cycle_edges (edges : list (string * string)) :
  ∀ (g : list (string * list string)) a b,
    edge (remove_cycle_edges g edges) a b ↔ edge g a b ∧ (a, b) ∉ edges.
Proof.
  unfold remove_cycle_edges.
  induction edges as [|[u v] edges IH]; intros g a b; simpl.
  - split; [|tauto]. intros Hb. split; [done|]. by intros ?%elem_of_nil.
  - rewrite IH, edge_remove, not_elem_of_cons. tauto.
Qed.

(** ** States and frames of the search *)

Lemma state_of_set_state v c st u :
  state_of (set_state v c st) u = if decide (u = v) then c else state_of st u.
Proof.
  unfold state_of, set_state; simpl. destruct (decide (u = v)) as [->|Hne].
  - by rewrite lookup_insert_eq.
  - by rewrite lookup_insert_ne.
Qed.

Lemma dfs_frame_refl g0 st : same_edges g0 st → dfs_frame g0 st st.
Proof. intros H. split; auto. Qed.

Lemma dfs_frame_trans g0 st1 st2 st3 :
  dfs_frame g0 st1 st2 → dfs_frame g0 st2 st3 → dfs_frame g0 st1 st3.
Proof.
  intros [E1 W1 M1 C1] [E2 W2 M2 C2]. split; auto.
  - set_solver.
  - intros u v Huv. destruct (C2 u v Huv); auto.
Qed.

Lemma dfs_frame_add_cycle_edge g0 st u v :
  same_edges g0 st → edge g0 u v → dfs_frame g0 st (add_cycle_edge u v st).
Proof.
  intros HE Huv. split; simpl; auto.
  - set_solver.
  - intros u' v' [Heq%elem_of_singleton|?]%elem_of_union; [|by left].
    right. by injection Heq as -> ->.
Qed.

Lemma dfs_frame_set_state g0 st v c :
  same_edges g0 st → c ≠ WHITE → dfs_frame g0 st (set_state v c st).
Proof.
  intros HE Hc. split; simpl; auto.
  intros x. unfold white. rewrite state_of_set_state.
  by destruct (decide (x = v)).
Qed.

Lemma dfs_frame_getitem g0 st v :
  same_edges g0 st →
  dfs_frame g0 st (DfsState (graph_getitem (dfs_graph st) v).2 (states st) (cycle_edges st)).
Proof.
  intros HE. split; simpl; auto.
  intros u. unfold same_edges in *. simpl. by rewrite graph_getitem_get.
Qed.

Lemma dfs_S fuel v st :
  dfs (S fuel) v st
  = let st1 := set_state v GRAY st in
    let item := graph_getitem (dfs_graph st1) v in
    match dfs_neighbors (dfs fuel) v item.1 (DfsState item.2 (states st1) (cycle_edges st1)) with
    | None => None
    | Some (true, st3) => Some (true, st3)
    | Some (false, st3) => Some (false, set_state v BLACK st3)
    end.
Proof. simpl. by destruct (graph_getitem _ _). Qed.

(** ** What a run of the search changes *)

Section dfs_run.
Variable g0 : list (string * list string).

Lemma dfs_neighbors_run fuel vertex (IH : dfs_runs g0 fuel) neighbors :
  ∀ st b st',
    dfs_neighbors (dfs fuel) vertex neighbors st = Some (b, st') →
    (∀ n, n ∈ neighbors → edge g0 vertex n) → same_edges g0 st →
    dfs_frame g0 st st'
    ∧ ∀ x, state_of st' x ≠ state_of st x → ∃ n, n ∈ neighbors ∧ rtc (edge g0) n x.
Proof.
  induction neighbors as [|n ns IHn]; intros st b st' Hrun Hns HE; simpl in Hrun.
  - injection Hrun as <- <-. split; [by apply dfs_frame_refl|done].
  - assert (edge g0 vertex n) as Hn by (apply Hns; by left).
    assert (∀ n', n' ∈ ns → edge g0 vertex n') as Hns' by (intros; apply Hns; by right).
    assert (∀ s1 : dfs_state,
      dfs_frame g0 st s1 →
      (∀ x, state_of s1 x ≠ state_of st x → rtc (edge g0) n x) →
      dfs_neighbors (dfs fuel) vertex ns s1 = Some (b, st') →
      dfs_frame g0 st st'
      ∧ ∀ x, state_of st' x ≠ state_of st x → ∃ n', n' ∈ n :: ns ∧ rtc (edge g0) n' x)
      as Hrest.
    { intros s1 Hf1 Hch1 Hrun1.
      destruct (IHn _ _ _ Hrun1 Hns' (frame_edges _ _ _ Hf1)) as [Hf2 Hch2].
      split; [by eapply dfs_frame_trans|]. intros x Hx.
      destruct (decide (state_of st' x = state_of s1 x)) as [Heq|Hne].
      - exists n. split; [by left|]. apply Hch1. congruence.
      - destruct (Hch2 x Hne) as (n' & Hn' & Hr). exists n'. split; [by right|done]. }
    destruct (state_of st n) eqn:Hcol.
    + destruct (dfs fuel n st) as [[b1 st1]|] eqn:Hdfs; [|done].
      destruct (IH _ _ _ _ Hdfs HE) as [Hf1 Hch1].
      destruct b1; [|by apply (Hrest st1)].
      apply (Hrest (add_cycle_edge vertex n st1)); [|done|done].
      eapply dfs_frame_trans; [done|].
      apply dfs_frame_add_cycle_edge; [apply Hf1|done].
    + injection Hrun as <- <-. split; [by apply dfs_frame_add_cycle_edge|done].
    + apply (Hrest st); [by apply dfs_frame_refl|done|done].
Qed.

Lemma dfs_run fuel : dfs_runs g0 fuel.
Proof.
  induction fuel as [|fuel IH]; intros v st b st' Hrun HE; [done|].
  rewrite dfs_S in Hrun. cbv zeta in Hrun.
  pose proof (dfs_frame_set_state g0 st v GRAY HE ltac:(done)) as Hf1.
  set (st1 := set_state v GRAY st) in *.
  pose proof (dfs_frame_getitem g0 st1 v (frame_edges _ _ _ Hf1)) as Hf2.
  rewrite graph_getitem_deps in Hrun.
  set (st2 := DfsState _ _ _) in *.
  destruct (dfs_neighbors _ _ _ st2) as [[b3 st3]|] eqn:Hloop; [|done].
  destruct (dfs_neighbors_run fuel v IH _ _ _ _ Hloop) as [Hf3 Hch3].
  { intros n Hn. unfold edge. by rewrite <- (frame_edges _ _ _ Hf1 v). }
  { apply Hf2. }
  assert (dfs_frame g0 st st3) as Hf
    by (eapply dfs_frame_trans; [done|]; by eapply dfs_frame_trans).
  assert (∀ x, state_of st3 x ≠ state_of st x → rtc (edge g0) v x) as Hch.
  { intros x Hx. destruct (decide (x = v)) as [->|Hxv]; [done|].
    destruct (Hch3 x) as (n & Hn & Hr).
    - change (state_of st2 x) with (state_of st1 x).
      unfold st1. by rewrite state_of_set_state, decide_False.
    - eapply rtc_l; [|done]. unfold edge.
      rewrite <- (frame_edges _ _ _ Hf1 v). done. }
  destruct b3; injection Hrun as <- <-; [by split|].
  split.
  - eapply dfs_frame_trans; [done|]. apply dfs_frame_set_state; [apply Hf3|done].
  - intros x. rewrite state_of_set_state.
    destruct (decide (x = v)) as [->|Hxv]; [done|]. apply Hch.
Qed.

Lemma dfs_roots_run fuel roots :
  ∀ st st', dfs_roots fuel roots st = Some st' → same_edges g0 st → dfs_frame g0 st st'.
Proof.
  induction roots as [|r roots IH]; intros st st' Hrun HE; simpl in Hrun.
  - injection Hrun as <-. by apply dfs_frame_refl.
  - destruct (state_of st r); [|by apply IH..].
    destruct (dfs fuel r st) as [[b st1]|] eqn:Hdfs; [|done].
    destruct (dfs_run _ _ _ _ _ Hdfs HE) as [Hf1 _].
    eapply dfs_frame_trans; [done|]. apply IH; [done|apply Hf1].
Qed.
End dfs_run.

(** ** The cycle breaker never runs out of fuel *)

Section dfs_fuel.
Variable g0 : list (string * list string).
Variable V : list string.
Hypothesis V_closed : ∀ a b, edge g0 a b → b ∈ V.

Lemma white_count_mono st st' :
  (∀ x, white st' x → white st x) → white_count V st' ≤ white_count V st.
Proof. intros H. apply filter_length_mono. auto. Qed.

Lemma dfs_neighbors_fuel_enough fuel vertex (IH : dfs_returns g0 V fuel) neighbors :
  ∀ st, (∀ n, n ∈ neighbors → edge g0 vertex n) → same_edges g0 st →
    white_count V st ≤ fuel →
    is_Some (dfs_neighbors (dfs fuel) vertex neighbors st).
Proof.
  induction neighbors as [|n ns IHn]; intros st Hns HE Hfuel; simpl; [done|].
  assert (edge g0 vertex n) as Hn by (apply Hns; by left).
  assert (∀ n', n' ∈ ns → edge g0 vertex n') as Hns' by (intros; apply Hns; by right).
  destruct (state_of st n) eqn:Hcol; [|done|by apply IHn].
  destruct (IH n st) as [[b st1] Hdfs]; [done|by eapply V_closed|done|done|].
  rewrite Hdfs. destruct (dfs_run g0 _ _ _ _ _ Hdfs HE) as [Hf1 _].
  pose proof (white_count_mono _ _ (frame_white _ _ _ Hf1)) as Hle.
  destruct b; apply IHn; try done; try apply Hf1; [|lia].
  change (white_count V st1 ≤ fuel). lia.
Qed.

Lemma dfs_fuel_enough fuel : dfs_returns g0 V fuel.
Proof.
  induction fuel as [|fuel IH]; intros v st HE HV Hw Hfuel.
  - exfalso. unfold white_count in Hfuel.
    assert (v ∈ filter (white st) V) as Hin by (by apply list_elem_of_filter).
    destruct (filter (white st) V); [by apply elem_of_nil in Hin|simpl in Hfuel; lia].
  - rewrite dfs_S.
    pose proof (dfs_frame_set_state g0 st v GRAY HE ltac:(done)) as Hf1.
    set (st1 := set_state v GRAY st) in *. cbv zeta.
    assert (white_count V st1 < white_count V st) as Hdec.
    { apply (filter_length_lt _ _ _ v); [intros x _; apply Hf1|done|done|].
      unfold white, st1. rewrite state_of_set_state, decide_True; done. }
    pose proof (dfs_frame_getitem g0 st1 v (frame_edges _ _ _ Hf1)) as Hf2.
    rewrite graph_getitem_deps.
    set (st2 := DfsState _ _ _) in *.
    destruct (dfs_neighbors_fuel_enough fuel v IH (graph_get (dfs_graph st1) v) st2)
      as [[b st3] ->].
    + intros n Hn. unfold edge. by rewrite <- (frame_edges _ _ _ Hf1 v).
    + apply Hf2.
    + pose proof (white_count_mono _ _ (frame_white _ _ _ Hf2)). lia.
    + by destruct b.
Qed.

Lemma dfs_roots_fuel_enough fuel roots :
  length V ≤ fuel →
  ∀ st, (∀ r, r ∈ roots → r ∈ V) → same_edges g0 st → is_Some (dfs_roots fuel roots st).
Proof.
  intros Hfuel. induction roots as [|r roots IH]; intros st Hroots HE; simpl; [done|].
  assert (∀ r', r' ∈ roots → r' ∈ V) as Hroots' by (intros; apply Hroots; by right).
  destruct (state_of st r) eqn:Hcol; [|by apply IH..].
  destruct (dfs_fuel_enough fuel r st) as [[b st1] Hdfs]; [done| |done| |].
  - apply Hroots. by left.
  - unfold white_count. pose proof (length_filter (white st) V). lia.
  - rewrite Hdfs. apply IH; [done|]. by apply (dfs_run g0 _ _ _ _ _ Hdfs).
Qed.
End dfs_fuel.

(** ** What the cycle breaker returns *)

Lemma same_edges_init (g : list (string * list string)) : same_edges g (DfsState g ∅ ∅).
Proof. by intros u. Qed.

(** The call always returns, and the graph it leaves is the input graph
    without the edges collected in [cycle_edges]. *)
Lemma detect_and_break_cycles_spec (g : list (string * list string)) :
  ∃ st g',
    dfs_roots (S (length (vertices g []))) (g.*1) (DfsState g ∅ ∅) = Some st
    ∧ dfs_frame g (DfsState g ∅ ∅) st
    ∧ detect_and_break_cycles g = Some g'
    ∧ (∀ a b, edge g' a b ↔ edge g a b ∧ (a, b) ∉ cycle_edges st).
Proof.
  destruct (dfs_roots_fuel_enough g (vertices g []) (graph_get_vertices g [])
              (S (length (vertices g []))) (g.*1) ltac:(lia) (DfsState g ∅ ∅))
    as [st Hrun].
  - intros r Hr. unfold vertices. simpl. apply elem_of_app. by left.
  - apply same_edges_init.
  - pose proof (dfs_roots_run g _ _ _ _ Hrun (same_edges_init g)) as Hf.
    exists st, (remove_cycle_edges (dfs_graph st) (elements (cycle_edges st))).
    split_and!; [done|done|unfold detect_and_break_cycles; by rewrite Hrun|].
    intros a b. rewrite edge_remove_cycle_edges, elem_of_elements.
    unfold edge. by rewrite (frame_edges _ _ _ Hf a).
Qed.

(** C10: the cycle breaker only removes edges: every edge of the graph
    after the call was an edge before it (and the call does return). *)
Theorem detect_and_break_cycles_only_removes (g : list (string * list string)) :
  ∃ g', detect_and_break_cycles g = Some g' ∧ ∀ u v, edge g' u v → edge g u v.
Proof.
  destruct (detect_and_break_cycles_spec g) as (st & g' & _ & _ & Hg' & Hedges).
  exists g'. split; [done|]. intros u v Huv. by apply Hedges in Huv as [? _].
Qed.

(** Every member of [cycle_edges] is an edge of the graph, so the
    [remove] of the last loop finds its element. *)
Lemma cycle_edges_are_edges (g : list (string * list string)) st u v :
  dfs_roots (S (length (vertices g []))) (g.*1) (DfsState g ∅ ∅) = Some st →
  (u, v) ∈ cycle_edges st → edge g u v.
Proof.
  intros Hrun Huv.
  pose proof (dfs_roots_run g _ _ _ _ Hrun (same_edges_init g)) as Hf.
  destruct (frame_cycle_edges _ _ _ Hf u v Huv) as [Hin|]; [|done].
  by apply elem_of_empty in Hin.
Qed.

(** The two steps of the pipeline return or raise. *)
Lemma break_and_sort_fuel_enough (g : list (string * list string)) (cells : list string) :
  is_Some (break_and_sort g cells).
Proof.
  unfold break_and_sort.
  destruct (detect_and_break_cycles_spec g) as (st & g' & _ & _ & -> & _).
  apply resolve_and_sort_fuel_enough.
Qed.

(** ** An isolated two-cycle *)

Lemma graph_lookup_key (g : list (string * list string)) k deps :
  graph_lookup g k = Some deps → k ∈ g.*1.
Proof.
  induction g as [|[k' d'] g IH]; simpl; [done|].
  destruct (decide (k' = k)) as [->|Hne]; [by left|]. intros H. right. auto.
Qed.

Lemma graph_get_key (g : list (string * list string)) k d :
  d ∈ graph_get g k → k ∈ g.*1.
Proof.
  unfold graph_get. destruct (graph_lookup g k) eqn:Hk; simpl.
  - intros _. by eapply graph_lookup_key.
  - by intros ?%elem_of_nil.
Qed.

Lemma acyclic_subgraph (g h : list (string * list string)) :
  (∀ a b, edge g a b → edge h a b) → acyclic h → acyclic g.
Proof.
  intros Hsub Hac v Hv. apply (Hac v).
  assert (∀ x y, tc (edge g) x y → tc (edge h) x y) as Htc; [|by apply Htc].
  clear v Hv. intros x y Hxy. induction Hxy as [x y Hxy|x y z Hxy _ IH].
  - by apply tc_once, Hsub.
  - eapply tc_l; [by apply Hsub|done].
Qed.

(** The search started at one end of a two-cycle, both ends still
    white, records both edges. *)
Lemma dfs_two_cycle (g : list (string * list string)) fuel X Y st b st' :
  X ≠ Y → graph_get g X = [Y] → graph_get g Y = [X] →
  same_edges g st → state_of st Y = WHITE →
  dfs fuel X st = Some (b, st') →
  (X, Y) ∈ cycle_edges st' ∧ (Y, X) ∈ cycle_edges st'.
Proof.
  intros Hne HX HY HE HwY Hrun.
  destruct fuel as [|fuel]; [done|].
  rewrite dfs_S in Hrun. cbv zeta in Hrun.
  pose proof (dfs_frame_set_state g st X GRAY HE ltac:(done)) as Hf1.
  set (st1 := set_state X GRAY st) in *.
  pose proof (dfs_frame_getitem g st1 X (frame_edges _ _ _ Hf1)) as Hf2.
  rewrite graph_getitem_deps, (frame_edges _ _ _ Hf1 X), HX in Hrun.
  set (st2 := DfsState _ _ _) in *.
  assert (state_of st2 Y = WHITE) as HwY2.
  { change (state_of st1 Y = WHITE). unfold st1.
    by rewrite state_of_set_state, decide_False. }
  assert (state_of st2 X = GRAY) as HgX2.
  { change (state_of st1 X = GRAY). unfold st1.
    by rewrite state_of_set_state, decide_True. }
  simpl in Hrun. rewrite HwY2 in Hrun.
  destruct fuel as [|fuel]; [done|].
  rewrite dfs_S in Hrun. cbv zeta in Hrun.
  pose proof (dfs_frame_set_state g st2 Y GRAY (frame_edges _ _ _ Hf2) ltac:(done)) as Hf3.
  set (st3 := set_state Y GRAY st2) in *.
  rewrite graph_getitem_deps, (frame_edges _ _ _ Hf3 Y), HY in Hrun.
  set (st4 := DfsState (graph_getitem (dfs_graph st3) Y).2 (states st3) (cycle_edges st3)) in *.
  assert (state_of st4 X = GRAY) as HgX4.
  { change (state_of st3 X = GRAY). unfold st3.
    by rewrite state_of_set_state, decide_False. }
  simpl in Hrun. rewrite HgX4 in Hrun. simpl in Hrun.
  injection Hrun as <- <-. simpl. set_solver.
Qed.

Section two_cycle.
Variable g : list (string * list string).
Variables A B : string.
Hypothesis pair : isolated_two_cycle g A B.

Lemma outside_closed v x :
  v ≠ A → v ≠ B → rtc (edge g) v x → x ≠ A ∧ x ≠ B.
Proof.
  intros HA HB Hr. induction Hr as [|a b c Hab _ IH]; [done|].
  destruct pair as (_ & _ & _ & Hout). destruct (Hout a HA HB) as [HnA HnB].
  apply IH; intros ->; contradiction.
Qed.

Lemma dfs_roots_two_cycle fuel roots :
  ∀ st st', dfs_roots fuel roots st = Some st' → same_edges g st →
    state_of st A = WHITE → state_of st B = WHITE →
    A ∈ roots ∨ B ∈ roots →
    (A, B) ∈ cycle_edges st' ∧ (B, A) ∈ cycle_edges st'.
Proof.
  destruct pair as (Hne & HgA & HgB & Hout).
  induction roots as [|r roots IH]; intros st st' Hrun HE HwA HwB Hin; simpl in Hrun.
  { destruct Hin as [Hin|Hin]; by apply elem_of_nil in Hin. }
  destruct (decide (r = A)) as [->|HrA]; [|destruct (decide (r = B)) as [->|HrB]].
  - rewrite HwA in Hrun.
    destruct (dfs fuel A st) as [[b st1]|] eqn:Hdfs; [|done].
    destruct (dfs_two_cycle g _ A B _ _ _ Hne HgA HgB HE HwB Hdfs) as [H1 H2].
    pose proof (dfs_roots_run g _ _ _ _ Hrun
                  (frame_edges _ _ _ (proj1 (dfs_run g _ _ _ _ _ Hdfs HE)))) as Hf.
    split; by apply (frame_cycle_mono _ _ _ Hf).
  - rewrite HwB in Hrun.
    destruct (dfs fuel B st) as [[b st1]|] eqn:Hdfs; [|done].
    destruct (dfs_two_cycle g _ B A _ _ _ (not_eq_sym Hne) HgB HgA HE HwA Hdfs) as [H1 H2].
    pose proof (dfs_roots_run g _ _ _ _ Hrun
                  (frame_edges _ _ _ (proj1 (dfs_run g _ _ _ _ _ Hdfs HE)))) as Hf.
    split; by apply (frame_cycle_mono _ _ _ Hf).
  - assert (A ∈ roots ∨ B ∈ roots) as Hin'.
    { destruct Hin as [[?|?]%elem_of_cons|[?|?]%elem_of_cons]; auto; congruence. }
    destruct (state_of st r); [|by apply (IH st)..].
    destruct (dfs fuel r st) as [[b st1]|] eqn:Hdfs; [|done].
    destruct (dfs_run g _ _ _ _ _ Hdfs HE) as [Hf1 Hch1].
    apply (IH st1); [done|apply Hf1| | |done].
    + destruct (decide (state_of st1 A = state_of st A)) as [->|Hc]; [done|].
      by destruct (outside_closed r A HrA HrB (Hch1 A Hc)).
    + destruct (decide (state_of st1 B = state_of st B)) as [->|Hc]; [done|].
      by destruct (outside_closed r B HrA HrB (Hch1 B Hc)).
Qed.

(** The cycle breaker removes both edges of the two-cycle. *)
Lemma two_cycle_broken :
  ∃ g', detect_and_break_cycles g = Some g'
    ∧ ¬ edge g' A B ∧ ¬ edge g' B A
    ∧ ∀ a b, edge g' a b → edge g a b ∧ (a, b) ≠ (A, B) ∧ (a, b) ≠ (B, A).
Proof.
  destruct (detect_and_break_cycles_spec g) as (st & g' & Hrun & Hf & Hg' & Hedges).
  destruct (dfs_roots_two_cycle _ _ _ _ Hrun (same_edges_init g)) as [HAB HBA];
    [done|done| |].
  { destruct pair as (_ & HgA & _). left. apply (graph_get_key g A B).
    rewrite HgA. by left. }
  exists g'. split; [done|]. split_and!.
  - intros H. by apply Hedges in H as [_ H].
  - intros H. by apply Hedges in H as [_ H].
  - intros a b [Hab Hnot]%Hedges. split_and!; [done|..]; by intros [= -> ->].
Qed.
End two_cycle.

(** ** Checking a concrete graph *)

Lemma graph_lookup_elem (g : list (string * list string)) k deps :
  graph_lookup g k = Some deps → (k, deps) ∈ g.
Proof.
  induction g as [|[k' d'] g IH]; simpl; [done|].
  destruct (decide (k' = k)) as [->|Hne].
  - intros [= ->]. by left.
  - intros H. right. auto.
Qed.

Lemma edge_elem (g : list (string * list string)) a b :
  edge g a b → ∃ deps, (a, deps) ∈ g ∧ b ∈ deps.
Proof.
  unfold edge, graph_get. destruct (graph_lookup g a) as [deps|] eqn:Ha; simpl.
  - intros Hb. exists deps. split; [by apply graph_lookup_elem|done].
  - by intros ?%elem_of_nil.
Qed.

Lemma ranked_edge rank (g : list (string * list string)) a b :
  ranked rank g = true → edge g a b → rank b < rank a.
Proof.
  unfold ranked. rewrite forallb_forall. intros Hall (deps & Hin & Hb)%edge_elem.
  apply list_elem_of_In, Hall in Hin. simpl in Hin. rewrite forallb_forall in Hin.
  apply list_elem_of_In, Hin in Hb. by apply Nat.ltb_lt in Hb.
Qed.

Lemma acyclic_ranked rank (g : list (string * list string)) :
  ranked rank g = true → acyclic g.
Proof. intros Hr. apply (acyclic_rank rank). intros a b. by apply ranked_edge. Qed.

Lemma complete_cover (g : list (string * list string)) (cells : list string) :
  cells_cover g cells = true → complete g cells.
Proof.
  unfold cells_cover. rewrite forallb_forall. intros Hall a b (deps & Hin & Hb)%edge_elem.
  apply list_elem_of_In, Hall in Hin. simpl in Hin.
  apply andb_true_iff in Hin as [Ha Hdeps]. apply bool_decide_eq_true in Ha.
  split; [done|]. rewrite forallb_forall in Hdeps.
  apply list_elem_of_In, Hdeps in Hb. by apply bool_decide_eq_true in Hb.
Qed.

(** ** Claims about the sequencer and the cycle breaker *)

Lemma resolve_and_sort_topological_witness :
  ∃ order,
    resolve_and_sort [("C1", ["A1"; "B1"]); ("D1", ["C1"])] ["A1"; "B1"; "C1"; "D1"]
    = Some (Ok order)
    ∧ NoDup order
    ∧ (∀ c, c ∈ order ↔ c ∈ ["A1"; "B1"; "C1"; "D1"])
    ∧ (∀ a b, edge [("C1", ["A1"; "B1"]); ("D1", ["C1"])] a b → precedes b a order).
Proof.
  apply resolve_and_sort_topological.
  - apply (acyclic_ranked (position ["A1"; "B1"; "C1"; "D1"])). reflexivity.
  - apply complete_cover. reflexivity.
Defined.

(** C6 (as amended): when the graph holds an isolated two-cycle A→B→A,
    the cycle breaker removes both edges A→B and B→A; [resolve_and_sort]
    then returns an order in which A and B each occur exactly once when
    the cycle breaker has left no cycle in the graph, and raises
    ValueError when it has left one. *)
Theorem two_cycle_broken_and_sorted (g : list (string * list string)) (cells : list string)
    (A B : string) :
  isolated_two_cycle g A B →
  complete g cells →
  ∃ g',
    detect_and_break_cycles g = Some g'
    ∧ ¬ edge g' A B ∧ ¬ edge g' B A
    ∧ (acyclic g' →
         ∃ order, resolve_and_sort g' cells = Some (Ok order)
           ∧ NoDup order ∧ A ∈ order ∧ B ∈ order)
    ∧ (¬ acyclic g' →
         ∃ node, node ∈ cells
           ∧ resolve_and_sort g' cells = Some (Raise (ValueError (cycle_message node)))).
Proof.
  intros Hpair Hc.
  destruct (two_cycle_broken g A B Hpair) as (g' & Hg' & HAB & HBA & Hsub).
  assert (complete g' cells) as Hc'.
  { intros a b Hab. apply Hc. by apply Hsub in Hab as [? _]. }
  assert (edge g A B) as HAB'.
  { destruct Hpair as (_ & HgA & _). unfold edge. rewrite HgA. by left. }
  exists g'. split_and!; try done.
  - intros Hac.
    destruct (resolve_and_sort_acyclic g' cells Hac) as (st & Hsort & [_ Hnd _] & Hin & _).
    exists (sorted_nodes st). unfold resolve_and_sort. rewrite Hsort.
    split_and!; try done; apply Hin; by apply (Hc A B).
  - intros Hcyc.
    destruct (resolve_and_sort_fuel_enough g' cells) as [[order|e] Hrun].
    + destruct Hcyc. by apply (resolve_and_sort_Ok_acyclic g' cells order).
    + destruct (resolve_and_sort_Raise g' cells e Hrun) as (node & Hin & ->). by exists node.
Qed.

Lemma isolated_two_cycle_check (g : list (string * list string)) (A B : string) :
  A ≠ B → graph_get g A = [B] → graph_get g B = [A] →
  forallb (λ kd, bool_decide (kd.1 = A) || bool_decide (kd.1 = B)
                 || forallb (λ d, bool_decide ((d ≠ A) ∧ (d ≠ B))) kd.2) g = true →
  isolated_two_cycle g A B.
Proof.
  intros Hne HA HB Hall. split_and!; try done. intros u HuA HuB.
  rewrite forallb_forall in Hall.
  assert (∀ d, d ∈ graph_get g u → d ≠ A ∧ d ≠ B) as Hd.
  { intros d (deps & Hin & Hd)%edge_elem. apply list_elem_of_In, Hall in Hin.
    simpl in Hin. apply orb_true_iff in Hin as [Hin|Hin].
    - apply orb_true_iff in Hin as [Hin|Hin]; by apply bool_decide_eq_true in Hin.
    - rewrite forallb_forall in Hin. apply list_elem_of_In, Hin in Hd.
      by apply bool_decide_eq_true in Hd. }
  split; intros Hin; apply Hd in Hin; tauto.
Qed.

(** A two-cycle beside a ring of three cells: the cycle breaker frees
    both, and the order holds A1 and B1. *)
Lemma two_cycle_broken_and_sorted_witness :
  ∃ g',
    detect_and_break_cycles
      [("A1", ["B1"]); ("B1", ["A1"]); ("C1", ["D1"]); ("D1", ["E1"]); ("E1", ["C1"])]
    = Some g'
    ∧ ¬ edge g' "A1" "B1" ∧ ¬ edge g' "B1" "A1"
    ∧ (acyclic g' →
         ∃ order, resolve_and_sort g' ["A1"; "B1"; "C1"; "D1"; "E1"] = Some (Ok order)
           ∧ NoDup order ∧ "A1" ∈ order ∧ "B1" ∈ order)
    ∧ (¬ acyclic g' →
         ∃ node, node ∈ ["A1"; "B1"; "C1"; "D1"; "E1"]
           ∧ resolve_and_sort g' ["A1"; "B1"; "C1"; "D1"; "E1"]
             = Some (Raise (ValueError (cycle_message node)))).
Proof.
  apply two_cycle_broken_and_sorted.
  - by apply isolated_two_cycle_check.
  - apply complete_cover. reflexivity.
Defined.

(** C6 fails as stated: the two-cycle is isolated, yet the sequencer
    raises (for the cycle left between D1 and E1) and emits nothing. *)
Lemma two_cycle_sequencer_raises :
  isolated_two_cycle two_cycle_and_tangle "A1" "B1"
  ∧ complete two_cycle_and_tangle ["A1"; "B1"; "C1"; "D1"; "E1"]
  ∧ break_and_sort two_cycle_and_tangle ["A1"; "B1"; "C1"; "D1"; "E1"]
    = Some (Raise (ValueError (cycle_message "D1"))).
Proof.
  split_and!.
  - by apply isolated_two_cycle_check.
  - apply complete_cover. reflexivity.
  - vm_compute. reflexivity.
Qed.

(** C2 (as amended): the cycle breaker followed by [resolve_and_sort]
    always returns or raises; with a complete cell mapping it returns
    an order of all the cells when no cycle is left in the graph after
    the cycle breaker, and it raises ValueError when one is left. *)
Theorem break_and_sort_total_order (g : list (string * list string)) (cells : list string) :
  complete g cells →
  ∃ g', detect_and_break_cycles g = Some g'
    ∧ (acyclic g' →
         ∃ order, break_and_sort g cells = Some (Ok order)
           ∧ NoDup order ∧ (∀ c, c ∈ order ↔ c ∈ cells))
    ∧ (¬ acyclic g' →
         ∃ node, node ∈ cells
           ∧ break_and_sort g cells = Some (Raise (ValueError (cycle_message node)))).
Proof.
  intros Hc. unfold break_and_sort.
  destruct (detect_and_break_cycles_spec g) as (st0 & g' & _ & _ & -> & Hedges).
  assert (complete g' cells) as Hc'.
  { intros a b Hab. apply Hc. by apply Hedges in Hab as [? _]. }
  exists g'. split; [done|]. split.
  - intros Hac.
    destruct (resolve_and_sort_acyclic g' cells Hac) as (st & Hsort & [_ Hnd _] & Hin & Hnew).
    exists (sorted_nodes st). unfold resolve_and_sort. rewrite Hsort.
    split_and!; try done. intros c. split; [|apply Hin].
    intros Hx. destruct (Hnew c Hx) as (n & Hn & Hr). by apply (complete_reach g' cells n).
  - intros Hcyc.
    destruct (resolve_and_sort_fuel_enough g' cells) as [[order|e] Hrun].
    + destruct Hcyc. by apply (resolve_and_sort_Ok_acyclic g' cells order).
    + destruct (resolve_and_sort_Raise g' cells e Hrun) as (node & Hin & ->). by exists node.
Qed.

Lemma break_and_sort_total_order_witness :
  ∃ g', detect_and_break_cycles [("A1", ["B1"]); ("B1", ["C1"]); ("C1", ["A1"]); ("D1", ["A1"])]
        = Some g'
    ∧ (acyclic g' →
         ∃ order,
           break_and_sort [("A1", ["B1"]); ("B1", ["C1"]); ("C1", ["A1"]); ("D1", ["A1"])]
             ["A1"; "B1"; "C1"; "D1"] = Some (Ok order)
           ∧ NoDup order ∧ (∀ c, c ∈ order ↔ c ∈ ["A1"; "B1"; "C1"; "D1"]))
    ∧ (¬ acyclic g' →
         ∃ node, node ∈ ["A1"; "B1"; "C1"; "D1"]
           ∧ break_and_sort [("A1", ["B1"]); ("B1", ["C1"]); ("C1", ["A1"]); ("D1", ["A1"])]
               ["A1"; "B1"; "C1"; "D1"]
             = Some (Raise (ValueError (cycle_message node)))).
Proof.
  apply break_and_sort_total_order.
  apply complete_cover. reflexivity.
Defined.

(** C2 fails as stated: the cycle breaker leaves the cycle B1→C1→B1 in
    [tangle], and the sequencer of the pipeline raises ValueError; so
    does [convert_excel_to_js] on the sheet that holds the three
    formulas. *)
Lemma break_and_sort_raises :
  detect_and_break_cycles tangle = Some [("A1", []); ("B1", ["C1"]); ("C1", ["B1"])]
  ∧ break_and_sort tangle ["A1"; "B1"; "C1"]
    = Some (Raise (ValueError (cycle_message "B1")))
  ∧ convert_excel_to_js decimal_repr
      [[Text (txt "=B1+C1"); Text (txt "=A1+C1"); Text (txt "=A1+B1")]]
    = Some (Raise (ValueError (cycle_message "B1"))).
Proof. split_and!; vm_compute; reflexivity. Qed.

(** ** Scanning text *)

Lemma span_app (p : ascii → bool) (s : list ascii) : (span p s).1 ++ (span p s).2 = s.
Proof.
  induction s as [|c s IH]; simpl; [done|].
  destruct (p c); [|done]. destruct (span p s) as [run rest]. simpl in *. by rewrite IH.
Qed.

Lemma span_run (p : ascii → bool) (s : list ascii) : Forall (λ c, p c = true) (span p s).1.
Proof.
  induction s as [|c s IH]; simpl; [done|].
  destruct (p c) eqn:Hc; [|done]. destruct (span p s) as [run rest]. simpl in *. by constructor.
Qed.

(** A run of the class followed by a character outside it is what [span]
    takes. *)
Lemma span_all (p : ascii → bool) (l rest : list ascii) :
  Forall (λ c, p c = true) l → (∀ c, head rest = Some c → p c = false) →
  span p (l ++ rest) = (l, rest).
Proof.
  intros Hl Hrest. induction Hl as [|c l Hc _ IH]; simpl.
  - destruct rest as [|c rest]; [done|]. simpl. by rewrite (Hrest c).
  - by rewrite Hc, IH.
Qed.

Lemma strip_prefix_app (pre s : list ascii) : strip_prefix pre (pre ++ s) = Some s.
Proof. induction pre as [|c pre IH]; simpl; [done|]. by rewrite decide_True. Qed.

Lemma strip_prefix_Some (pre s rest : list ascii) :
  strip_prefix pre s = Some rest → s = pre ++ rest.
Proof.
  revert s. induction pre as [|c pre IH]; intros s; simpl.
  - by intros [= ->].
  - destruct s as [|c' s]; [done|]. destruct (decide (c = c')) as [->|]; [|done].
    intros H. by rewrite (IH _ H).
Qed.

Section re_sub.
Variable m : list ascii → option (result (list ascii) * nat).

Lemma re_sub_from_skip (l rest : list ascii) :
  re_sub_from m (length l) (l ++ rest) = re_sub_from m 0 rest.
Proof.
  induction l as [|c l IH]; simpl; [|done].
  destruct rest; done.
Qed.

Lemma re_sub_from_skip_all k (s : list ascii) :
  length s ≤ k → re_sub_from m k s = Ok [].
Proof.
  revert k. induction s as [|c s IH]; intros k Hk; simpl; [done|].
  destruct k as [|k]; simpl in Hk; [lia|]. apply IH. lia.
Qed.

Lemma matches_nowhere_tail c (s : list ascii) :
  matches_nowhere m (c :: s) → matches_nowhere m s.
Proof. intros H pre u ->. by apply (H (c :: pre)). Qed.

Lemma re_sub_no_match (s : list ascii) : matches_nowhere m s → re_sub m s = Ok s.
Proof.
  unfold re_sub. induction s as [|c s IH]; intros Hs; simpl; [done|].
  rewrite (Hs [] (c :: s) eq_refl).
  by rewrite (IH (matches_nowhere_tail _ _ Hs)).
Qed.

(** A match at the head is replaced and the scan goes on behind it. *)
Lemma re_sub_match (matched rest r : list ascii) :
  matched ≠ [] → m (matched ++ rest) = Some (Ok r, length matched) →
  re_sub m (matched ++ rest) = (r ++.) <$> re_sub m rest.
Proof.
  unfold re_sub. destruct matched as [|c matched]; [done|]. intros _ Hm.
  cbn [app re_sub_from]. change ((c :: matched) ++ rest) with (c :: matched ++ rest) in Hm.
  rewrite Hm. simpl. rewrite re_sub_from_skip.
  by destruct (re_sub_from m 0 rest).
Qed.

(** If the replacement never raises, neither does the substitution. *)
Lemma re_sub_from_returns k (s : list ascii) :
  (∀ pre u r n, s = pre ++ u → m u = Some (r, n) → ∃ t, r = Ok t) →
  ∃ out, re_sub_from m k s = Ok out.
Proof.
  revert k. induction s as [|c s IH]; intros k Hs; simpl; [eauto|].
  assert (∀ k, ∃ out, re_sub_from m k s = Ok out) as IH'.
  { intros k'. apply IH. intros pre u r n ->. apply (Hs (c :: pre)). done. }
  destruct k as [|k]; [|apply IH'].
  destruct (m (c :: s)) as [[r n]|] eqn:Hm.
  - destruct (Hs [] _ _ _ eq_refl Hm) as [t ->]. destruct (IH' (pred n)) as [out ->].
    simpl. eauto.
  - destruct (IH' 0) as [out ->]. simpl. eauto.
Qed.
End re_sub.

(** ** The patterns of convert_to_js *)

Lemma span_eq (p : ascii → bool) (s run rest : list ascii) :
  span p s = (run, rest) → s = run ++ rest ∧ Forall (λ c, p c = true) run.
Proof.
  intros H. pose proof (span_app p s) as Happ. pose proof (span_run p s) as Hrun.
  rewrite H in Happ, Hrun. simpl in *. by split.
Qed.

Lemma comma_percent_Some float_repr (u : list ascii) x :
  comma_percent float_repr u = Some x → "%"%char ∈ u.
Proof.
  unfold comma_percent. destruct (span is_digit u) as [d1 r1] eqn:H1.
  destruct (span_eq _ _ _ _ H1) as [-> _].
  destruct d1 as [|? ?]; [done|]. destruct r1 as [|c r2]; [done|].
  destruct (span is_digit r2) as [d2 r3] eqn:H2.
  destruct (span_eq _ _ _ _ H2) as [-> _].
  destruct (decide (c = ","%char)) as [->|Hc].
  - destruct d2 as [|? ?]; [done|]. destruct r3 as [|c3 r4]; [done|].
    destruct (decide (c3 = "%"%char)) as [->|Hc3].
    + intros _. set_solver.
    + intros H. exfalso. revert H. clear -Hc3.
      destruct c3 as [[] [] [] [] [] [] [] []]; done.
  - intros H. exfalso. revert H. clear -Hc.
    destruct c as [[] [] [] [] [] [] [] []]; done.
Qed.

Lemma percent_Some (u : list ascii) x : percent u = Some x → "%"%char ∈ u.
Proof.
  unfold percent. destruct (span is_digit u) as [d r] eqn:H1.
  destruct (span_eq _ _ _ _ H1) as [-> _].
  destruct d as [|? ?]; [done|]. destruct r as [|c r]; [done|].
  destruct (decide (c = "%"%char)) as [->|Hc].
  - intros _. set_solver.
  - intros H. exfalso. revert H. clear -Hc.
    destruct c as [[] [] [] [] [] [] [] []]; done.
Qed.

Lemma comma_decimal_Some (u : list ascii) x : comma_decimal u = Some x → ","%char ∈ u.
Proof.
  unfold comma_decimal. destruct (span is_digit u) as [d1 r1] eqn:H1.
  destruct (span_eq _ _ _ _ H1) as [-> _].
  destruct d1 as [|? ?]; [done|]. destruct r1 as [|c r2]; [done|].
  destruct (decide (c = ","%char)) as [->|Hc].
  - intros _. set_solver.
  - intros H. exfalso. revert H. clear -Hc.
    destruct c as [[] [] [] [] [] [] [] []]; done.
Qed.

Lemma replace_at_Some (old new u : list ascii) x :
  replace_at old new u = Some x → ∃ rest, u = old ++ rest.
Proof.
  unfold replace_at. destruct (strip_prefix old u) as [rest|] eqn:H; [|done].
  intros _. exists rest. by apply strip_prefix_Some.
Qed.

(** A pattern that needs a character [c] matches nowhere in a text
    without [c]. *)
Lemma matches_nowhere_without (m : list ascii → option (result (list ascii) * nat))
    (c : ascii) (s : list ascii) :
  (∀ u x, m u = Some x → c ∈ u) → c ∉ s → matches_nowhere m s.
Proof.
  intros Hm Hc pre u ->. destruct (m u) as [x|] eqn:Hu; [|done].
  destruct Hc. apply elem_of_app. right. by eapply Hm.
Qed.

(** ** Range sums *)

Lemma mapM_Ok {A B : Type} (f : A → result B) (g : A → B) (l : list A) :
  (∀ x, x ∈ l → f x = Ok (g x)) → mapM f l = Ok (g <$> l).
Proof.
  induction l as [|x l IH]; intros Hf; simpl; [done|].
  rewrite (Hf x) by (by left). simpl. rewrite IH; [done|].
  intros y Hy. apply Hf. by right.
Qed.

Lemma is_word_digit c : is_digit c = true → is_word c = true.
Proof. unfold is_word. intros ->. by rewrite orb_true_r. Qed.

Lemma is_word_upper c : is_upper c = true → is_word c = true.
Proof. unfold is_word, is_letter. by intros ->. Qed.

Lemma is_upper_code c : is_upper c = true ↔ 65 ≤ code c ≤ 90.
Proof. unfold is_upper. rewrite andb_true_iff, !Nat.leb_le. done. Qed.

Lemma is_digit_code c : is_digit c = true ↔ 48 ≤ code c ≤ 57.
Proof. unfold is_digit. rewrite andb_true_iff, !Nat.leb_le. done. Qed.

Lemma code_ascii_of_nat n : n < 256 → code (ascii_of_nat n) = n.
Proof. apply nat_ascii_embedding. Qed.

Lemma ascii_of_code c : ascii_of_nat (code c) = c.
Proof. apply ascii_nat_embedding. Qed.

Lemma sum_range_match (ref1 ref2 rest : list ascii) :
  ref1 ≠ [] → ref2 ≠ [] →
  Forall (λ c, is_word c = true) ref1 → Forall (λ c, is_word c = true) ref2 →
  sum_range (range_sum ref1 ref2 ++ rest)
  = Some (sum_range_repl ref1 ref2, length (range_sum ref1 ref2)).
Proof.
  intros Hne1 Hne2 Hw1 Hw2. unfold sum_range, range_sum.
  rewrite <- !app_assoc, strip_prefix_app.
  rewrite (span_all is_word ref1) by (done || by intros c [= <-]).
  destruct ref1 as [|a1 ref1]; [done|].
  rewrite <- app_comm_cons, <- app_assoc.
  rewrite (span_all is_word ref2) by (done || by intros c [= <-]).
  destruct ref2 as [|a2 ref2]; [done|]. simpl.
  do 2 f_equal. rewrite !length_app. simpl. rewrite !length_app. simpl. lia.
Qed.

(** What pass 3 writes for references in single-letter columns. *)
Lemma sum_range_repl_letters (c1 c2 : ascii) (row1 row2 : list ascii) :
  is_upper c1 = true → is_upper c2 = true →
  sum_range_repl (c1 :: row1) (c2 :: row2)
  = Ok (join (txt "+") ((λ c, c :: row1) <$> columns_between c1 c2)).
Proof.
  intros [H1 H1']%is_upper_code [H2 H2']%is_upper_code.
  unfold sum_range_repl. simpl take. simpl drop. unfold column_index_from_string, letter_index.
  rewrite (proj2 (is_upper_code c1)), (proj2 (is_upper_code c2)) by done. simpl.
  rewrite (mapM_Ok _ (λ i, ascii_of_nat (code c1 + Z.to_nat i) :: row1)).
  - simpl. do 2 f_equal. unfold columns_between, seqZ.
    replace (Z.to_nat (Z.of_nat (code c2 - 64) - Z.of_nat (code c1 - 64) + 1))
      with (S (code c2) - code c1) by lia.
    replace (seq (code c1) (S (code c2) - code c1))
      with (Nat.add (code c1) <$> seq 0 (S (code c2) - code c1))
      by (rewrite fmap_add_seq; f_equal; lia).
    rewrite <- !list_fmap_compose.
    apply list_fmap_ext. intros _ j _. simpl. do 2 f_equal. lia.
  - intros i [Hi Hi']%elem_of_seqZ. unfold get_column_letter.
    rewrite (proj2 (andb_true_iff _ _)) by (split; apply Z.leb_le; lia).
    simpl. unfold letter. do 3 f_equal. lia.
Qed.

Lemma re_sub_range_sum (c1 c2 : ascii) (row1 row2 : list ascii) :
  is_upper c1 = true → is_upper c2 = true →
  Forall (λ c, is_digit c = true) row1 → Forall (λ c, is_digit c = true) row2 →
  re_sub sum_range (range_sum (c1 :: row1) (c2 :: row2))
  = Ok (join (txt "+") ((λ c, c :: row1) <$> columns_between c1 c2)).
Proof.
  intros H1 H2 Hr1 Hr2.
  rewrite <- (app_nil_r (range_sum _ _)).
  rewrite (re_sub_match _ _ _ (join (txt "+") ((λ c, c :: row1) <$> columns_between c1 c2))).
  - simpl. by rewrite app_nil_r.
  - done.
  - rewrite sum_range_match, sum_range_repl_letters; try done.
    + constructor; [by apply is_word_upper|]. eapply Forall_impl; [done|]. apply is_word_digit.
    + constructor; [by apply is_word_upper|]. eapply Forall_impl; [done|]. apply is_word_digit.
Qed.

Lemma capitals_lead_digits_suffix (pre u : list ascii) :
  capitals_lead_digits (pre ++ u) = true → capitals_lead_digits u = true.
Proof.
  induction pre as [|c pre IH]; [done|]. simpl. intros [_ H]%andb_true_iff. auto.
Qed.

(** [MIN] and [MAX] occur nowhere in such a text. *)
Lemma capitals_lead_digits_replace (x y : ascii) (new s : list ascii) :
  is_digit x = false → capitals_lead_digits s = true →
  matches_nowhere (replace_at ["M"%char; x; y] new) s.
Proof.
  intros Hx Hs pre u ->. apply capitals_lead_digits_suffix in Hs.
  destruct (replace_at _ new u) as [r|] eqn:Hu; [|done].
  apply replace_at_Some in Hu as [rest ->]. simpl in Hs. by rewrite Hx in Hs.
Qed.

Lemma capitals_lead_digits_row (row tail : list ascii) :
  Forall (λ c, is_digit c = true) row →
  (∀ c, head tail = Some c → is_upper c = false) →
  capitals_lead_digits (row ++ tail) = capitals_lead_digits tail.
Proof.
  intros Hrow Htail. induction Hrow as [|d ds Hd _ IH]; [done|].
  simpl. rewrite IH. apply is_digit_code in Hd.
  assert (is_upper d = false) as ->.
  { apply not_true_is_false. rewrite is_upper_code. lia. }
  reflexivity.
Qed.

Lemma chain_capitals (row cols : list ascii) :
  Forall (λ c, is_digit c = true) row → row ≠ [] →
  Forall (λ c, is_upper c = true) cols →
  capitals_lead_digits (join (txt "+") ((λ c, c :: row) <$> cols)) = true.
Proof.
  intros Hrow Hne.
  assert (∀ c tail, is_upper c = true → capitals_lead_digits tail = true →
    (∀ c', head tail = Some c' → is_upper c' = false) →
    capitals_lead_digits (c :: row ++ tail) = true) as Hterm.
  { intros c tail Hc Htail Hhead. cbn [capitals_lead_digits].
    rewrite capitals_lead_digits_row, Htail, andb_true_r by done.
    destruct row as [|d ds]; [done|]. simpl.
    by rewrite (Forall_inv Hrow), orb_true_r. }
  induction 1 as [|c cols Hc Hcols IH]; [done|].
  destruct cols as [|c' cols]; simpl in *.
  - rewrite <- (app_nil_r row). by apply Hterm.
  - apply Hterm; [done| |by intros ? [= <-]]. apply IH.
Qed.

Lemma chain_chars (row cols : list ascii) :
  Forall (λ c, is_digit c = true) row →
  Forall (λ c, is_upper c = true) cols →
  Forall (λ c, chain_char c = true) (join (txt "+") ((λ c, c :: row) <$> cols)).
Proof.
  intros Hrow'.
  assert (Forall (λ c, chain_char c = true) row) as Hrow.
  { eapply Forall_impl; [done|]. intros c Hc. unfold chain_char. by rewrite Hc, orb_true_r. }
  induction 1 as [|c cols Hc Hcols IH]; [done|].
  assert (chain_char c = true) as Hcc by (unfold chain_char; by rewrite Hc).
  destruct cols as [|c' cols]; simpl in *.
  - by constructor.
  - constructor; [done|]. apply Forall_app. split; [done|]. by constructor.
Qed.

Lemma columns_between_upper (c1 c2 : ascii) :
  is_upper c1 = true → is_upper c2 = true →
  Forall (λ c, is_upper c = true) (columns_between c1 c2).
Proof.
  intros [H1 H1']%is_upper_code [H2 H2']%is_upper_code.
  unfold columns_between. apply Forall_fmap, Forall_forall.
  intros n [Hn Hn']%elem_of_seq. simpl. apply is_upper_code.
  rewrite code_ascii_of_nat; lia.
Qed.

Lemma result_bind_Ok {A B : Type} (a : A) (k : A → result B) : (Ok a ≫= k) = k a.
Proof. reflexivity. Qed.

Lemma range_sum_codes (c1 c2 : ascii) (row1 row2 : list ascii) :
  is_upper c1 = true → is_upper c2 = true →
  Forall (λ c, is_digit c = true) row1 → Forall (λ c, is_digit c = true) row2 →
  Forall (λ c, 40 ≤ code c) (range_sum (c1 :: row1) (c2 :: row2)).
Proof.
  intros H1%is_upper_code H2%is_upper_code Hr1 Hr2.
  assert (∀ row, Forall (λ c, is_digit c = true) row → Forall (λ c, 40 ≤ code c) row) as Hrow.
  { intros row Hrow. eapply Forall_impl; [done|]. intros c Hc%is_digit_code. simpl. lia. }
  unfold range_sum. simpl.
  do 4 (constructor; [vm_compute; lia|]).
  constructor; [lia|]. apply Forall_app. split; [by apply Hrow|].
  constructor; [vm_compute; lia|]. constructor; [lia|].
  apply Forall_app. split; [by apply Hrow|].
  constructor; [vm_compute; lia|]. constructor.
Qed.

Lemma not_elem_of_codes (c : ascii) (s : list ascii) :
  code c < 40 → Forall (λ c, 40 ≤ code c) s → c ∉ s.
Proof.
  intros Hc Hs Hin. rewrite Forall_forall in Hs. apply Hs in Hin. lia.
Qed.

Lemma not_elem_of_chain (c : ascii) (s : list ascii) :
  chain_char c = false → Forall (λ c, chain_char c = true) s → c ∉ s.
Proof.
  intros Hc Hs Hin. rewrite Forall_forall in Hs. apply Hs in Hin. congruence.
Qed.

(** The translation of a range sum over single-letter columns. *)
Lemma convert_to_js_range_sum float_repr (c1 c2 : ascii) (row1 row2 : list ascii) :
  is_upper c1 = true → is_upper c2 = true →
  Forall (λ c, is_digit c = true) row1 → row1 ≠ [] →
  Forall (λ c, is_digit c = true) row2 →
  convert_to_js float_repr (range_sum (c1 :: row1) (c2 :: row2))
  = Ok (join (txt "+") ((λ c, c :: row1) <$> columns_between c1 c2)).
Proof.
  intros H1 H2 Hr1 Hne Hr2. unfold convert_to_js, str_replace.
  pose proof (range_sum_codes c1 c2 row1 row2 H1 H2 Hr1 Hr2) as Hcodes.
  rewrite (re_sub_no_match (comma_percent float_repr)), result_bind_Ok.
  2: { apply (matches_nowhere_without _ "%"%char); [apply comma_percent_Some|].
       apply not_elem_of_codes; [vm_compute; lia|done]. }
  rewrite (re_sub_no_match percent), result_bind_Ok.
  2: { apply (matches_nowhere_without _ "%"%char); [apply percent_Some|].
       apply not_elem_of_codes; [vm_compute; lia|done]. }
  rewrite re_sub_range_sum, result_bind_Ok by done.
  pose proof (columns_between_upper c1 c2 H1 H2) as Hcols.
  pose proof (chain_capitals row1 _ Hr1 Hne Hcols) as Hcap.
  pose proof (chain_chars row1 _ Hr1 Hcols) as Hchars.
  rewrite (re_sub_no_match (replace_at (txt "MIN") (txt "Math.min")) _
             (capitals_lead_digits_replace "I" "N" _ _ eq_refl Hcap)), result_bind_Ok.
  rewrite (re_sub_no_match (replace_at (txt "MAX") (txt "Math.max")) _
             (capitals_lead_digits_replace "A" "X" _ _ eq_refl Hcap)), result_bind_Ok.
  rewrite (re_sub_no_match comma_decimal), result_bind_Ok.
  2: { apply (matches_nowhere_without _ ","%char); [apply comma_decimal_Some|].
       by apply not_elem_of_chain. }
  apply re_sub_no_match. intros pre u Heq.
  destruct (replace_at _ _ u) as [x|] eqn:Hu; [|done].
  apply replace_at_Some in Hu as [rest ->].
  exfalso. apply (not_elem_of_chain "$"%char _ eq_refl Hchars).
  rewrite Heq. apply elem_of_app. right. by left.
Qed.

(** ** When the translator raises *)

Lemma sum_range_Some (u : list ascii) r n :
  sum_range u = Some (r, n) →
  ∃ ref1 ref2 post,
    u = range_sum ref1 ref2 ++ post ∧ ref1 ≠ [] ∧ ref2 ≠ []
    ∧ Forall (λ c, is_word c = true) ref1 ∧ Forall (λ c, is_word c = true) ref2
    ∧ r = sum_range_repl ref1 ref2.
Proof.
  unfold sum_range. destruct (strip_prefix (txt "SUM(") u) as [r0|] eqn:H0; [|done].
  apply strip_prefix_Some in H0 as ->.
  destruct (span is_word r0) as [ref1 r1] eqn:H1.
  destruct (span_eq _ _ _ _ H1) as [-> Hw1].
  destruct ref1 as [|a1 ref1]; [done|]. destruct r1 as [|c r2]; [done|].
  destruct (span is_word r2) as [ref2 r3] eqn:H2.
  destruct (span_eq _ _ _ _ H2) as [-> Hw2].
  destruct (decide (c = ":"%char)) as [->|Hc].
  - destruct ref2 as [|a2 ref2]; [done|]. destruct r3 as [|c3 post]; [done|].
    destruct (decide (c3 = ")"%char)) as [->|Hc3].
    + intros [= <- <-]. exists (a1 :: ref1), (a2 :: ref2), post.
      split_and!; try done. unfold range_sum.
      rewrite <- !app_assoc. simpl. by rewrite <- !app_assoc.
    + intros H. exfalso. revert H. clear -Hc3.
      destruct c3 as [[] [] [] [] [] [] [] []]; done.
  - intros H. exfalso. revert H. clear -Hc.
    destruct c as [[] [] [] [] [] [] [] []]; done.
Qed.

Lemma letter_index_bounds c : is_letter c = true → ∃ i, letter_index c = Some i ∧ (1 ≤ i ≤ 26)%Z.
Proof.
  unfold is_letter, letter_index. destruct (is_upper c) eqn:Hu.
  - apply is_upper_code in Hu. intros _. eexists. split; [done|]. lia.
  - simpl. intros Hl. rewrite Hl. unfold is_lower in Hl.
    apply andb_true_iff in Hl as [H1%Nat.leb_le H2%Nat.leb_le].
    eexists. split; [done|]. lia.
Qed.

Lemma sum_range_repl_returns (ref1 ref2 : list ascii) :
  starts_with_letter ref1 → starts_with_letter ref2 → ∃ t, sum_range_repl ref1 ref2 = Ok t.
Proof.
  intros (a1 & r1 & -> & H1) (a2 & r2 & -> & H2).
  destruct (letter_index_bounds a1 H1) as (i1 & Hi1 & Hb1).
  destruct (letter_index_bounds a2 H2) as (i2 & Hi2 & Hb2).
  unfold sum_range_repl.
  change (take 1 (a1 :: r1)) with [a1]. change (take 1 (a2 :: r2)) with [a2].
  change (drop 1 (a1 :: r1)) with r1. unfold column_index_from_string.
  rewrite Hi1, Hi2. cbv beta iota zeta. rewrite !result_bind_Ok.
  rewrite (mapM_Ok _ (λ i, [letter (i1 + i)] ++ r1)); [by eexists|].
  intros i [Hi Hi']%elem_of_seqZ. unfold get_column_letter.
  by rewrite (proj2 (andb_true_iff _ _)) by (split; apply Z.leb_le; lia).
Qed.

Lemma re_sub_total_returns (m : list ascii → option (result (list ascii) * nat))
    (s : list ascii) :
  (∀ u r n, m u = Some (r, n) → ∃ t, r = Ok t) → ∃ out, re_sub m s = Ok out.
Proof. intros Hm. apply re_sub_from_returns. intros pre u r n _. apply Hm. Qed.

Lemma replace_at_returns (old new u : list ascii) r n :
  replace_at old new u = Some (r, n) → ∃ t, r = Ok t.
Proof. unfold replace_at. destruct (strip_prefix old u); [|done]. intros [= <- _]. eauto. Qed.

Lemma comma_decimal_returns (u : list ascii) r n :
  comma_decimal u = Some (r, n) → ∃ t, r = Ok t.
Proof.
  unfold comma_decimal. destruct (span is_digit u) as [d1 r1].
  destruct d1 as [|? ?]; [done|]. destruct r1 as [|c r2]; [done|].
  destruct (span is_digit r2) as [d2 r3].
  destruct c as [[] [] [] [] [] [] [] []]; try done.
  destruct d2; [done|]. intros [= <- _]. eauto.
Qed.

(** *** The percent passes keep range sums as they are *)

Lemma string_of_uint_chars (d : Decimal.uint) :
  Forall (λ c, is_digit c = true) (list_ascii_of_string (NilEmpty.string_of_uint d)).
Proof. induction d; simpl; by constructor. Qed.

Lemma py_str_chars (n : Z) : Forall (λ c, float_char c = true) (py_str n).
Proof.
  assert (∀ d, Forall (λ c, float_char c = true)
                 (list_ascii_of_string (NilEmpty.string_of_uint d))) as Hu.
  { intros d. eapply Forall_impl; [apply string_of_uint_chars|].
    intros c Hc. unfold float_char. by rewrite Hc. }
  unfold py_str, NilZero.string_of_int. destruct (Z.to_int n) as [d|d].
  - unfold NilZero.string_of_uint. destruct d; try apply Hu. by repeat constructor.
  - simpl. constructor; [done|].
    unfold NilZero.string_of_uint. destruct d; try apply Hu. by repeat constructor.
Qed.

Lemma decimal_repr_chars (a b : Z) : Forall (λ c, float_char c = true) (decimal_repr a b).
Proof.
  unfold decimal_repr. cbv zeta. apply Forall_app. split; [apply py_str_chars|].
  apply Forall_app. split; [by repeat constructor|].
  destruct (_ =? 0)%Z; [apply py_str_chars|].
  apply Forall_app. split; apply py_str_chars.
Qed.

Lemma strip_zeros_chars (p : ascii → bool) (l : list ascii) :
  Forall (λ c, p c = true) l → Forall (λ c, p c = true) (strip_zeros l).
Proof.
  induction 1 as [|c l Hc Hl IH]; simpl; [done|].
  destruct c as [[] [] [] [] [] [] [] []]; try (by constructor). done.
Qed.

Lemma float_layout_chars (digits : list ascii) (decpt : Z) :
  Forall (λ c, float_char c = true) digits →
  Forall (λ c, float_char c = true) (float_layout digits decpt).
Proof.
  intros Hd. unfold float_layout.
  assert (∀ n, Forall (λ c, float_char c = true) (replicate n "0"%char)) as Hz
    by (intros n; by apply Forall_replicate).
  destruct (_ || _).
  - cbv zeta. apply Forall_app. split; [by apply Forall_take|].
    apply Forall_app. split.
    + pose proof (Forall_drop _ 1 _ Hd) as Hrest. destruct (drop 1 digits); [done|].
      by constructor.
    + constructor; [done|]. constructor; [by destruct (_ <? _)%Z|].
      destruct (_ <? 2); [constructor; [done|]|]; apply py_str_chars.
  - destruct (_ <=? 0)%Z.
    + apply Forall_app. split; [by repeat constructor|]. apply Forall_app. by split.
    + destruct (_ <=? _)%Z.
      * apply Forall_app. split; [done|]. apply Forall_app. split; [done|].
        by repeat constructor.
      * apply Forall_app. split; [by apply Forall_take|].
        constructor; [done|]. by apply Forall_drop.
Qed.

Lemma float_str_chars (x : spec_float) : Forall (λ c, float_char c = true) (float_str x).
Proof.
  destruct x as [[]|[]| |sign m e]; try (by repeat constructor).
  unfold float_str. destruct (shortest m e 1 16) as [d t].
  apply Forall_app. split; [destruct sign; by repeat constructor|].
  apply float_layout_chars, Forall_rev, strip_zeros_chars, Forall_rev, py_str_chars.
Qed.

Lemma py_float_repr_chars (a b : Z) : Forall (λ c, float_char c = true) (py_float_repr a b).
Proof. apply float_str_chars. Qed.

Lemma inert_over_100 (r : list ascii) :
  Forall (λ c, float_char c = true) r → inert_text (r ++ txt "/100").
Proof.
  intros Hr. split.
  - apply Forall_app. split; [|by repeat constructor].
    eapply Forall_impl; [done|]. intros c Hc. unfold inert_char. by rewrite Hc.
  - apply elem_of_app. right. by left.
Qed.

Lemma py_int_snoc (d : list ascii) (c : ascii) :
  py_int (d ++ [c]) = (10 * py_int d + Z.of_nat (code c - 48))%Z.
Proof. unfold py_int. by rewrite fold_left_app. Qed.

Lemma py_int_bound (d : list ascii) :
  Forall (λ c, is_digit c = true) d → (0 ≤ py_int d < 10 ^ Z.of_nat (length d))%Z.
Proof.
  induction d as [|c d IH] using rev_ind; intros Hd; [done|].
  apply Forall_app in Hd as [Hd Hc]. apply Forall_inv, is_digit_code in Hc.
  specialize (IH Hd). rewrite py_int_snoc, length_app. simpl.
  replace (Z.of_nat (length d + 1)) with (Z.succ (Z.of_nat (length d))) by lia.
  rewrite Z.pow_succ_r by lia. lia.
Qed.

Lemma py_int_in_range (d : list ascii) :
  Forall (λ c, is_digit c = true) d → length d ≤ 308 → (py_int d < FLOAT_LIMIT)%Z.
Proof.
  intros Hd Hlen. pose proof (py_int_bound d Hd) as [_ Hlt].
  assert (10 ^ Z.of_nat (length d) ≤ 10 ^ 308)%Z as Hpow
    by (apply Z.pow_le_mono_r; lia).
  assert (10 ^ 308 < FLOAT_LIMIT)%Z as Hlim by (by vm_compute).
  lia.
Qed.

Lemma comma_percent_shape float_repr (u : list ascii) r n :
  comma_percent float_repr u = Some (r, n) →
  ∃ d1 d2 post,
    u = d1 ++ ","%char :: d2 ++ "%"%char :: post
    ∧ Forall (λ c, is_digit c = true) d1 ∧ Forall (λ c, is_digit c = true) d2
    ∧ r = comma_percent_repl float_repr d1 d2
    ∧ 1 ≤ n ≤ length u
    ∧ take n u = d1 ++ ","%char :: d2 ++ ["%"%char].
Proof.
  unfold comma_percent. destruct (span is_digit u) as [d1 r1] eqn:H1.
  destruct (span_eq _ _ _ _ H1) as [-> Hd1].
  destruct d1 as [|a1 d1]; [done|]. destruct r1 as [|c r2]; [done|].
  destruct (span is_digit r2) as [d2 r3] eqn:H2.
  destruct (span_eq _ _ _ _ H2) as [-> Hd2].
  destruct (decide (c = ","%char)) as [->|Hc].
  - destruct d2 as [|a2 d2]; [done|]. destruct r3 as [|c3 post]; [done|].
    destruct (decide (c3 = "%"%char)) as [->|Hc3].
    + intros [= <- <-]. exists (a1 :: d1), (a2 :: d2), post.
      split_and!; try done; [lia| |].
      * rewrite !length_app. simpl. rewrite !length_app. simpl. lia.
      * assert ((a1 :: d1) ++ ","%char :: (a2 :: d2) ++ "%"%char :: post
                = ((a1 :: d1) ++ ","%char :: (a2 :: d2) ++ ["%"%char]) ++ post) as ->
          by (rewrite <- !app_assoc; simpl; by rewrite <- !app_assoc).
        apply take_app_length'. rewrite !length_app. simpl. rewrite !length_app. simpl. lia.
    + intros H. exfalso. revert H. clear -Hc3.
      destruct c3 as [[] [] [] [] [] [] [] []]; done.
  - intros H. exfalso. revert H. clear -Hc.
    destruct c as [[] [] [] [] [] [] [] []]; done.
Qed.

Lemma percent_shape (u : list ascii) r n :
  percent u = Some (r, n) →
  ∃ d post, u = d ++ "%"%char :: post
    ∧ Forall (λ c, is_digit c = true) d
    ∧ r = Ok (py_str (py_int d) ++ txt "/100") ∧ 1 ≤ n ≤ length u
    ∧ take n u = d ++ ["%"%char].
Proof.
  unfold percent. destruct (span is_digit u) as [d r1] eqn:H1.
  destruct (span_eq _ _ _ _ H1) as [-> Hd1].
  destruct d as [|a d]; [done|]. destruct r1 as [|c post]; [done|].
  destruct (decide (c = "%"%char)) as [->|Hc].
  - intros [= <- <-]. exists (a :: d), post. split_and!; try done.
    + lia.
    + rewrite !length_app. simpl. lia.
    + assert ((a :: d) ++ "%"%char :: post = ((a :: d) ++ ["%"%char]) ++ post) as ->
        by (by rewrite <- app_assoc).
      apply take_app_length'. rewrite !length_app. simpl. lia.
  - intros H. exfalso. revert H. clear -Hc.
    destruct c as [[] [] [] [] [] [] [] []]; done.
Qed.

Lemma percent_text_comma (d1 d2 : list ascii) :
  Forall (λ c, is_digit c = true) d1 → Forall (λ c, is_digit c = true) d2 →
  percent_text (d1 ++ ","%char :: d2 ++ ["%"%char]).
Proof.
  intros H1 H2.
  assert (∀ d, Forall (λ c, is_digit c = true) d → Forall (λ c, percent_char c = true) d) as Hd.
  { intros d Hd. eapply Forall_impl; [done|]. intros c Hc. unfold percent_char. by rewrite Hc. }
  split.
  - apply Forall_app. split; [by apply Hd|]. constructor; [done|].
    apply Forall_app. split; [by apply Hd|]. by repeat constructor.
  - apply elem_of_app. right. right. apply elem_of_app. right. by left.
Qed.

Lemma percent_text_plain (d : list ascii) :
  Forall (λ c, is_digit c = true) d → percent_text (d ++ ["%"%char]).
Proof.
  intros Hd. split.
  - apply Forall_app. split; [|by repeat constructor].
    eapply Forall_impl; [done|]. intros c Hc. unfold percent_char. by rewrite Hc.
  - apply elem_of_app. right. by left.
Qed.

(** A substitution whose matches are percentages and whose replacements
    are inert rewrites its text. *)
Lemma re_sub_from_rewrites (m : list ascii → option (result (list ascii) * nat)) :
  (∀ u r n, m u = Some (Ok r, n) →
     inert_text r ∧ 1 ≤ n ≤ length u ∧ percent_text (take n u)) →
  ∀ s k t, k ≤ length s → re_sub_from m k s = Ok t → rewrites (drop k s) t.
Proof.
  intros Hm. induction s as [|c s IH]; intros k t Hk Hrun; simpl in Hrun.
  - injection Hrun as <-. rewrite drop_nil. constructor.
  - destruct k as [|k].
    + destruct (m (c :: s)) as [[repl n]|] eqn:Hmatch.
      * destruct repl as [r|e]; [|done]. rewrite result_bind_Ok in Hrun.
        destruct (re_sub_from m (pred n) s) as [rest|] eqn:Hrest; [|done].
        injection Hrun as <-.
        destruct (Hm _ _ _ Hmatch) as (Hr & [Hn1 Hn2] & Hp). simpl in Hn2.
        rewrite <- (take_drop n (c :: s)). simpl drop at 1.
        apply rewrites_repl; [done|done|].
        destruct n as [|n]; [lia|]. simpl. apply IH; [simpl; lia|done].
      * destruct (re_sub_from m 0 s) as [rest|] eqn:Hrest; [|done].
        injection Hrun as <-. simpl. apply rewrites_copy.
        rewrite <- (drop_0 s). apply IH; [lia|done].
    + simpl. apply IH; [simpl in Hk; lia|done].
Qed.

Lemma re_sub_rewrites (m : list ascii → option (result (list ascii) * nat)) s t :
  (∀ u r n, m u = Some (Ok r, n) →
     inert_text r ∧ 1 ≤ n ≤ length u ∧ percent_text (take n u)) →
  re_sub m s = Ok t → rewrites s t.
Proof.
  intros Hm Hrun. rewrite <- (drop_0 s). by apply (re_sub_from_rewrites m Hm s 0); [lia|].
Qed.

(** The two percent passes rewrite their text. *)
Lemma comma_percent_rewrites float_repr (s t : list ascii) :
  (∀ a b, Forall (λ c, float_char c = true) (float_repr a b)) →
  re_sub (comma_percent float_repr) s = Ok t → rewrites s t.
Proof.
  intros Hfloat. apply re_sub_rewrites. intros u r n Hu.
  apply comma_percent_shape in Hu as (d1 & d2 & post & -> & Hd1 & Hd2 & Hr & Hn & ->).
  split; [|split; [done|by apply percent_text_comma]].
  unfold comma_percent_repl in Hr. cbv zeta in Hr.
  destruct (_ || _); [done|]. injection Hr as ->. by apply inert_over_100.
Qed.

Lemma percent_rewrites (s t : list ascii) : re_sub percent s = Ok t → rewrites s t.
Proof.
  apply re_sub_rewrites. intros u r n Hu.
  apply percent_shape in Hu as (d & post & _ & Hd & [= ->] & Hn & ->).
  split; [|split; [done|by apply percent_text_plain]]. apply inert_over_100, py_str_chars.
Qed.

(** A piece of the rewritten text that ends with [)] and holds no [/]
    stands unchanged in the original. *)
Lemma rewrites_keeps_prefix (s t : list ascii) :
  rewrites s t →
  ∀ P post, t = P ++ [")"%char] ++ post → "/"%char ∉ P →
    ∃ post', s = P ++ [")"%char] ++ post' ∧ rewrites post' post.
Proof.
  induction 1 as [|c s t Hst IH|matched r s t Hne [Hr Hslash] Hst IH]; intros P post Heq HP.
  - by destruct P.
  - destruct P as [|p P]; simpl in Heq; injection Heq as -> ->.
    + by exists s.
    + destruct (IH P post eq_refl) as (post' & -> & Hpost); [set_solver|]. by exists post'.
  - exfalso. apply app_eq_inv in Heq as [(k & -> & Hk)|(k & -> & Hk)].
    + rewrite Forall_forall in Hr. destruct k as [|x k].
      * rewrite app_nil_r in *. by apply HP.
      * simpl in Hk. injection Hk as <- _.
        assert (inert_char ")" = true) as Hbad; [|done].
        apply Hr, elem_of_app. right. by left.
    + apply HP, elem_of_app. by left.
Qed.

Lemma range_sum_split (ref1 ref2 post : list ascii) :
  range_sum ref1 ref2 ++ post
  = (txt "SUM(" ++ ref1 ++ ":"%char :: ref2) ++ [")"%char] ++ post.
Proof. unfold range_sum. simpl. repeat (rewrite <- app_assoc; simpl). reflexivity. Qed.

Lemma rewrites_keeps_range_sum (s t : list ascii) :
  rewrites s t →
  ∀ pre ref1 ref2 post,
    t = pre ++ range_sum ref1 ref2 ++ post →
    Forall (λ c, is_word c = true) ref1 → Forall (λ c, is_word c = true) ref2 →
    ∃ pre' post', s = pre' ++ range_sum ref1 ref2 ++ post'.
Proof.
  intros Hst pre ref1 ref2 post Heq Hw1 Hw2.
  assert ("/"%char ∉ txt "SUM(" ++ ref1 ++ ":"%char :: ref2) as Hslash.
  { rewrite Forall_forall in Hw1, Hw2.
    intros [Hin|[Hin|[Hin|Hin]%elem_of_cons]%elem_of_app]%elem_of_app.
    - apply list_elem_of_In in Hin. simpl in Hin. intuition discriminate.
    - by apply Hw1 in Hin.
    - done.
    - by apply Hw2 in Hin. }
  revert pre Heq. induction Hst as [|c s t Hst IH|matched r s t Hne Hr Hst IH]; intros pre Heq.
  - destruct pre; discriminate Heq.
  - destruct pre as [|p pre]; simpl in Heq.
    + destruct (rewrites_keeps_prefix (c :: s) (c :: t) (rewrites_copy _ _ _ Hst)
                  (txt "SUM(" ++ ref1 ++ ":"%char :: ref2) post) as (post' & Hs & _).
      * rewrite Heq. apply range_sum_split.
      * done.
      * exists [], post'. by rewrite Hs, range_sum_split.
    + injection Heq as -> Heq. destruct (IH pre Heq) as (pre' & post' & ->).
      by exists (p :: pre'), post'.
  - apply app_eq_inv in Heq as [(k & -> & Hk)|(k & -> & Hk)].
    + destruct k as [|x k].
      * simpl in Hk. destruct (IH [] (eq_sym Hk)) as (pre' & post' & ->).
        exists (matched ++ pre'), post'. by rewrite <- app_assoc.
      * exfalso. unfold range_sum in Hk. simpl in Hk. injection Hk as <- _.
        destruct Hr as [Hr _]. rewrite Forall_forall in Hr.
        assert (inert_char "S" = true) as Hbad; [|done].
        apply Hr, elem_of_app. right. by left.
    + destruct (IH k Hk) as (pre' & post' & ->).
      exists (matched ++ pre'), post'. by rewrite <- app_assoc.
Qed.

Lemma rewrites_range_refs_lettered (s t : list ascii) :
  rewrites s t → range_refs_lettered s → range_refs_lettered t.
Proof.
  intros Hst Hs pre ref1 ref2 post Heq Hn1 Hn2 Hw1 Hw2.
  destruct (rewrites_keeps_range_sum s t Hst pre ref1 ref2 post Heq Hw1 Hw2)
    as (pre' & post' & Hs').
  by apply (Hs pre' ref1 ref2 post').
Qed.

(** *** The percent passes carry range sums over *)

(** Inside a text that holds no percent sign and does not end with a
    character of a percentage, nothing is replaced. *)
Lemma rewrites_copies (s t : list ascii) :
  rewrites s t →
  ∀ Y post, s = Y ++ post → "%"%char ∉ Y →
    (Y = [] ∨ ∃ Y0 yl, Y = Y0 ++ [yl] ∧ percent_char yl = false) →
    ∃ post', t = Y ++ post'.
Proof.
  induction 1 as [|c s t Hst IH|matched r s t [Hm Hp] Hr Hst IH]; intros Y post Heq HY Hlast.
  - destruct Y; [|done]. by exists [].
  - destruct Y as [|y Y]; [by exists (c :: t)|].
    simpl in Heq. injection Heq as -> ->.
    destruct (IH Y post eq_refl) as [post' ->].
    + intros Hin. apply HY. by right.
    + destruct Hlast as [|(Y0 & yl & Heq & Hyl)]; [done|].
      destruct Y0 as [|y0 Y0]; simpl in Heq; injection Heq as -> ->; [by left|].
      right. by exists Y0, yl.
    + by exists post'.
  - destruct Hlast as [->|(Y0 & yl & -> & Hyl)]; [by exists (r ++ t)|].
    exfalso. apply app_eq_inv in Heq as [(k & -> & Hk)|(k & Hk & _)].
    + rewrite Forall_forall in Hm.
      assert (percent_char yl = true) as Hbad; [|congruence].
      apply Hm. apply elem_of_app. left. apply elem_of_app. right. by left.
    + apply HY. rewrite Hk. apply elem_of_app. by left.
Qed.

Lemma rewrites_carries_range_sum (s t : list ascii) :
  rewrites s t →
  ∀ pre ref1 ref2 post,
    s = pre ++ range_sum ref1 ref2 ++ post →
    Forall (λ c, is_word c = true) ref1 → Forall (λ c, is_word c = true) ref2 →
    ∃ pre' post', t = pre' ++ range_sum ref1 ref2 ++ post'.
Proof.
  intros Hst pre ref1 ref2 post Heq Hw1 Hw2.
  assert ("%"%char ∉ range_sum ref1 ref2) as Hpct.
  { rewrite Forall_forall in Hw1, Hw2. unfold range_sum.
    intros [Hin|[Hin|[Hin|[Hin|Hin]%elem_of_app]%elem_of_cons]%elem_of_app]%elem_of_app.
    - apply list_elem_of_In in Hin. simpl in Hin. intuition discriminate.
    - by apply Hw1 in Hin.
    - done.
    - by apply Hw2 in Hin.
    - apply list_elem_of_singleton in Hin. discriminate Hin. }
  assert (∃ Y0 yl, range_sum ref1 ref2 = Y0 ++ [yl] ∧ percent_char yl = false) as Hlast.
  { exists (txt "SUM(" ++ ref1 ++ ":"%char :: ref2), ")"%char. split; [|done].
    unfold range_sum. by rewrite <- !app_assoc. }
  revert pre Heq.
  induction Hst as [|c s t Hst IH|matched r s t [Hm Hp] Hr Hst IH]; intros pre Heq.
  - destruct pre; discriminate Heq.
  - destruct pre as [|p pre]; simpl in Heq.
    + destruct (rewrites_copies (c :: s) (c :: t) (rewrites_copy _ _ _ Hst)
                  (range_sum ref1 ref2) post Heq Hpct) as [post' Ht]; [by right|].
      by exists [], post'.
    + injection Heq as -> Heq. destruct (IH pre Heq) as (pre' & post' & ->).
      by exists (p :: pre'), post'.
  - apply app_eq_inv in Heq as [(k & -> & Hk)|(k & -> & Hk)].
    + destruct k as [|x k].
      * simpl in Hk. destruct (IH [] (eq_sym Hk)) as (pre' & post' & ->).
        exists (r ++ pre'), post'. by rewrite <- app_assoc.
      * exfalso. unfold range_sum in Hk. simpl in Hk. injection Hk as <- _.
        rewrite Forall_forall in Hm.
        assert (percent_char "S" = true) as Hbad; [|done].
        apply Hm, elem_of_app. right. by left.
    + destruct (IH k Hk) as (pre' & post' & ->).
      exists (r ++ pre'), post'. by rewrite <- app_assoc.
Qed.


(** *** A range sum that raises *)

Lemma mapM_Raise {A B : Type} (f : A → result B) (l : list A) e :
  mapM f l = Raise e → ∃ x, x ∈ l ∧ f x = Raise e.
Proof.
  induction l as [|x l IH]; simpl; [done|].
  destruct (f x) as [y|e'] eqn:Hx.
  - simpl. destruct (mapM f l) as [k|e'] eqn:Hl; [done|].
    intros [= ->]. destruct (IH eq_refl) as (x' & Hin & Hx'). exists x'. split; [by right|done].
  - intros [= ->]. exists x. split; [by left|done].
Qed.

Lemma sum_range_repl_raises (ref1 ref2 : list ascii) :
  ref1 ≠ [] → ref2 ≠ [] →
  (starts_with_letter ref1 ∧ starts_with_letter ref2)
  ∨ ∃ e, sum_range_repl ref1 ref2 = Raise e.
Proof.
  intros Hn1 Hn2. destruct ref1 as [|a1 r1]; [done|]. destruct ref2 as [|a2 r2]; [done|].
  unfold sum_range_repl.
  change (take 1 (a1 :: r1)) with [a1]. change (take 1 (a2 :: r2)) with [a2].
  unfold column_index_from_string.
  destruct (letter_index a2) as [i2|] eqn:H2; [|right; by eexists].
  destruct (letter_index a1) as [i1|] eqn:H1; [|right; by eexists].
  left. unfold starts_with_letter, is_letter.
  split; eexists _, _; (split; [done|]); unfold letter_index in *.
  - destruct (is_upper a1); [done|]. by destruct (is_lower a1).
  - destruct (is_upper a2); [done|]. by destruct (is_lower a2).
Qed.

(** Pass 3 raises nothing but ValueError. *)
Lemma sum_range_repl_ValueError (ref1 ref2 : list ascii) e :
  sum_range_repl ref1 ref2 = Raise e → ∃ msg, e = ValueError msg.
Proof.
  assert (∀ name x, column_index_from_string name = Raise x → ∃ msg, x = ValueError msg)
    as Hcol.
  { intros name x. unfold column_index_from_string.
    destruct name as [|a [|b [|c [|? ?]]]]; try (intros [= <-]; by eexists).
    - destruct (letter_index a); [done|]. intros [= <-]. by eexists.
    - destruct (letter_index a), (letter_index b); try done; intros [= <-]; by eexists.
    - destruct (letter_index a), (letter_index b), (letter_index c); try done;
        intros [= <-]; by eexists. }
  unfold sum_range_repl.
  destruct (column_index_from_string (take 1 ref2)) as [c2|x2] eqn:H2;
    [|intros [= <-]; by apply (Hcol _ _ H2)].
  destruct (column_index_from_string (take 1 ref1)) as [c1|x1] eqn:H1;
    [|intros [= <-]; by apply (Hcol _ _ H1)].
  rewrite !result_bind_Ok.
  destruct (mapM _ _) as [terms|x] eqn:Hterms; [done|]. intros [= <-].
  apply mapM_Raise in Hterms as (i & _ & Hi).
  unfold get_column_letter in Hi.
  repeat (destruct (_ && _) in Hi; [done|]). simpl in Hi. injection Hi as <-. by eexists.
Qed.

Lemma sum_range_Some_length (u : list ascii) r n :
  sum_range u = Some (r, n) →
  ∃ ref1 ref2 post,
    u = range_sum ref1 ref2 ++ post ∧ ref1 ≠ [] ∧ ref2 ≠ []
    ∧ Forall (λ c, is_word c = true) ref1 ∧ Forall (λ c, is_word c = true) ref2
    ∧ r = sum_range_repl ref1 ref2 ∧ n = length (range_sum ref1 ref2).
Proof.
  intros Hu.
  destruct (sum_range_Some u r n Hu) as (ref1 & ref2 & post & -> & Hn1 & Hn2 & Hw1 & Hw2 & ->).
  exists ref1, ref2, post. split_and!; try done.
  rewrite sum_range_match in Hu by done. by injection Hu as <-.
Qed.

(** A match of the range-sum pattern that begins before a range sum
    ends before it. *)
Lemma range_sum_apart (p ref1 ref2 rest a b post : list ascii) :
  p ≠ [] →
  Forall (λ c, is_word c = true) ref1 → Forall (λ c, is_word c = true) ref2 →
  p ++ range_sum a b ++ post = range_sum ref1 ref2 ++ rest →
  ∃ k, p = range_sum ref1 ref2 ++ k.
Proof.
  intros Hp Hw1 Hw2 Heq.
  apply app_eq_inv in Heq as [(k & Hk & _)|(k & Hk & Hrest)]; [by exists k|].
  destruct k as [|k0 k]; [exists []; by rewrite app_nil_r in *|]. exfalso.
  set (T := ref1 ++ ":"%char :: ref2 ++ [")"%char]) in *.
  assert ("("%char ∉ T) as Hparen.
  { rewrite Forall_forall in Hw1, Hw2. unfold T.
    intros [Hin|[Hin|[Hin|Hin]%elem_of_app]%elem_of_cons]%elem_of_app.
    - by apply Hw1 in Hin.
    - done.
    - by apply Hw2 in Hin.
    - apply list_elem_of_singleton in Hin. discriminate Hin. }
  assert (range_sum ref1 ref2 = txt "SUM(" ++ T) as HM by done.
  rewrite HM in Hk. unfold range_sum in Hrest. simpl in Hrest, Hk.
  injection Hrest as <- Hrest.
  destruct p as [|p1 [|p2 [|p3 [|p4 p]]]]; [done|..]; simpl in Hk.
  - by injection Hk.
  - by injection Hk.
  - by injection Hk.
  - injection Hk as _ _ _ _ Hk.
    destruct k as [|k1 [|k2 [|k3 k]]]; simpl in Hrest.
    + assert (last T = Some "S"%char) as Hl by (rewrite Hk; apply last_snoc).
      unfold T in Hl. rewrite app_comm_cons, app_assoc, last_snoc in Hl. discriminate Hl.
    + injection Hrest as <- _.
      assert (last T = Some "U"%char) as Hl by (by rewrite Hk, last_app).
      unfold T in Hl. rewrite app_comm_cons, app_assoc, last_snoc in Hl. discriminate Hl.
    + injection Hrest as <- <- _.
      assert (last T = Some "M"%char) as Hl by (by rewrite Hk, last_app).
      unfold T in Hl. rewrite app_comm_cons, app_assoc, last_snoc in Hl. discriminate Hl.
    + injection Hrest as <- <- <- _. apply Hparen. rewrite Hk.
      apply elem_of_app. right. do 3 right. by left.
Qed.

Lemma sum_range_apart (p a b post : list ascii) r n :
  p ≠ [] → sum_range (p ++ range_sum a b ++ post) = Some (r, n) → n ≤ length p.
Proof.
  intros Hp Hu.
  apply sum_range_Some_length in Hu as (ref1 & ref2 & rest & Heq & _ & _ & Hw1 & Hw2 & _ & ->).
  destruct (range_sum_apart p ref1 ref2 rest a b post Hp Hw1 Hw2 Heq) as [k ->].
  rewrite length_app. lia.
Qed.

Section re_sub_raises.
Variable m : list ascii → option (result (list ascii) * nat).

(** A match whose replacement raises, and which no earlier match
    reaches, makes the substitution raise. *)
Lemma re_sub_from_raises (P : exn → Prop) (u : list ascii) e n :
  m u = Some (Raise e, n) → u ≠ [] →
  (∀ v e' n', m v = Some (Raise e', n') → P e') →
  (∀ p r' n', p ≠ [] → m (p ++ u) = Some (r', n') → n' ≤ length p) →
  ∀ pre k, k ≤ length pre → ∃ e', re_sub_from m k (pre ++ u) = Raise e' ∧ P e'.
Proof.
  intros Hu Hne HP Hapart. induction pre as [|c pre IH]; intros k Hk.
  - simpl in Hk. replace k with 0 by lia. destruct u as [|c u]; [done|].
    simpl. rewrite Hu. simpl. exists e. split; [done|]. by apply (HP _ _ _ Hu).
  - simpl. destruct k as [|k]; [|apply IH; simpl in Hk; lia].
    destruct (m (c :: pre ++ u)) as [[repl len]|] eqn:Hm.
    + destruct repl as [r'|e'].
      * pose proof (Hapart (c :: pre) (Ok r') len ltac:(done) Hm) as Hlen. simpl in Hlen.
        destruct (IH (pred len)) as (e'' & -> & He''); [lia|]. simpl. by exists e''.
      * simpl. exists e'. split; [done|]. by apply (HP _ _ _ Hm).
    + destruct (IH 0) as (e'' & -> & He''); [lia|]. simpl. by exists e''.
Qed.
End re_sub_raises.

Lemma sum_range_raises (pre ref1 ref2 post : list ascii) :
  ref1 ≠ [] → ref2 ≠ [] →
  Forall (λ c, is_word c = true) ref1 → Forall (λ c, is_word c = true) ref2 →
  ¬ (starts_with_letter ref1 ∧ starts_with_letter ref2) →
  ∃ msg, re_sub sum_range (pre ++ range_sum ref1 ref2 ++ post) = Raise (ValueError msg).
Proof.
  intros Hn1 Hn2 Hw1 Hw2 Hbad.
  destruct (sum_range_repl_raises ref1 ref2 Hn1 Hn2) as [|[e He]]; [done|].
  destruct (re_sub_from_raises sum_range (λ e, ∃ msg, e = ValueError msg)
              (range_sum ref1 ref2 ++ post) e (length (range_sum ref1 ref2)))
    with (pre := pre) (k := 0) as (e' & Hrun & msg & ->).
  - by rewrite sum_range_match, He.
  - done.
  - intros v e' n' (r1 & r2 & rest & _ & _ & _ & _ & _ & Hr & _)%sum_range_Some_length.
    by apply (sum_range_repl_ValueError r1 r2).
  - intros p r' n' Hp. apply sum_range_apart. done.
  - lia.
  - by exists msg.
Qed.

(** C3 (as amended): on ASCII text whose runs of digits are at most 308
    digits long, [convert_to_js] returns a string when the references of
    every range sum in it begin with a letter, and raises ValueError
    when a reference of some range sum in it does not; and ASCII text in
    which none of the patterns matches is returned unchanged.  (The
    first hypothesis says that a float is printed with the characters of
    a float.) *)
Theorem convert_to_js_permissive float_repr (s : list ascii) :
  (∀ a b, Forall (λ c, float_char c = true) (float_repr a b)) →
  ascii_text s →
  (digit_runs_within 308 s →
   (range_refs_lettered s → ∃ out, convert_to_js float_repr s = Ok out)
   ∧ (range_ref_unlettered s →
      ∃ msg, convert_to_js float_repr s = Raise (ValueError msg)))
  ∧ (untouched float_repr s → convert_to_js float_repr s = Ok s).
Proof.
  intros Hfloat _. split.
  - intros Hruns. unfold convert_to_js, str_replace.
    destruct (re_sub_from_returns (comma_percent float_repr) 0 s) as [f1 Hf1].
    { intros pre u r n -> Hu.
      apply comma_percent_shape in Hu as (d1 & d2 & post & -> & Hd1 & Hd2 & -> & _).
      unfold comma_percent_repl. cbv zeta.
      rewrite (proj2 (Z.leb_gt _ _)), (proj2 (Z.leb_gt _ _)); [by eexists|..];
        apply py_int_in_range; try done.
      - by apply (Hruns pre d1 (","%char :: d2 ++ "%"%char :: post)).
      - apply (Hruns (pre ++ d1 ++ [","%char]) d2 ("%"%char :: post)); [|done].
        by rewrite <- !app_assoc. }
    change (re_sub (comma_percent float_repr) s)
      with (re_sub_from (comma_percent float_repr) 0 s).
    rewrite Hf1, result_bind_Ok.
    pose proof (comma_percent_rewrites float_repr s f1 Hfloat Hf1) as Hrw1.
    destruct (re_sub_from_returns percent 0 f1) as [f2 Hf2].
    { intros pre u r n _ Hu. apply percent_shape in Hu as (d & post & _ & _ & -> & _).
      by eexists. }
    change (re_sub percent f1) with (re_sub_from percent 0 f1).
    rewrite Hf2, result_bind_Ok.
    pose proof (percent_rewrites f1 f2 Hf2) as Hrw2.
    split.
    + intros Hrefs.
      assert (range_refs_lettered f2) as Hrefs2
        by (by apply (rewrites_range_refs_lettered f1), (rewrites_range_refs_lettered s)).
      destruct (re_sub_from_returns sum_range 0 f2) as [f3 Hf3].
      { intros pre u r n -> Hu.
        apply sum_range_Some in Hu as (ref1 & ref2 & post & -> & Hn1 & Hn2 & Hw1 & Hw2 & ->).
        destruct (Hrefs2 pre ref1 ref2 post eq_refl Hn1 Hn2 Hw1 Hw2) as [Hl1 Hl2].
        by apply sum_range_repl_returns. }
      change (re_sub sum_range f2) with (re_sub_from sum_range 0 f2).
      rewrite Hf3, result_bind_Ok.
      destruct (re_sub_total_returns (replace_at (txt "MIN") (txt "Math.min")) f3)
        as [f4 ->]; [apply replace_at_returns|]. rewrite result_bind_Ok.
      destruct (re_sub_total_returns (replace_at (txt "MAX") (txt "Math.max")) f4)
        as [f5 ->]; [apply replace_at_returns|]. rewrite result_bind_Ok.
      destruct (re_sub_total_returns comma_decimal f5)
        as [f6 ->]; [apply comma_decimal_returns|]. rewrite result_bind_Ok.
      apply re_sub_total_returns, replace_at_returns.
    + intros (pre & ref1 & ref2 & post & -> & Hn1 & Hn2 & Hw1 & Hw2 & Hbad).
      destruct (rewrites_carries_range_sum _ _ Hrw1 pre ref1 ref2 post eq_refl Hw1 Hw2)
        as (pre1 & post1 & ->).
      destruct (rewrites_carries_range_sum _ _ Hrw2 pre1 ref1 ref2 post1 eq_refl Hw1 Hw2)
        as (pre2 & post2 & ->).
      destruct (sum_range_raises pre2 ref1 ref2 post2 Hn1 Hn2 Hw1 Hw2 Hbad) as [msg ->].
      by exists msg.
  - intros (H1 & H2 & H3 & H4 & H5 & H6 & H7). unfold convert_to_js, str_replace.
    rewrite (re_sub_no_match _ _ H1), result_bind_Ok.
    rewrite (re_sub_no_match _ _ H2), result_bind_Ok.
    rewrite (re_sub_no_match _ _ H3), result_bind_Ok.
    rewrite (re_sub_no_match _ _ H4), result_bind_Ok.
    rewrite (re_sub_no_match _ _ H5), result_bind_Ok.
    rewrite (re_sub_no_match _ _ H6), result_bind_Ok.
    by apply re_sub_no_match.
Qed.

(** *** Checking a concrete text *)

Lemma suffixes_elem (pre u : list ascii) : u ∈ suffixes (pre ++ u).
Proof.
  induction pre as [|c pre IH]; simpl.
  - destruct u; by left.
  - by right.
Qed.

Lemma matches_nowhere_check (m : list ascii → option (result (list ascii) * nat))
    (s : list ascii) :
  forallb (λ u, bool_decide (m u = None)) (suffixes s) = true → matches_nowhere m s.
Proof.
  rewrite forallb_forall. intros Hall pre u ->.
  eapply bool_decide_eq_true_1, Hall. apply list_elem_of_In, suffixes_elem.
Qed.

Lemma range_refs_lettered_check (s : list ascii) :
  forallb (λ u, no_raise (sum_range u)) (suffixes s) = true → range_refs_lettered s.
Proof.
  rewrite forallb_forall. intros Hall pre ref1 ref2 post -> Hn1 Hn2 Hw1 Hw2.
  specialize (Hall (range_sum ref1 ref2 ++ post)).
  rewrite sum_range_match in Hall by done.
  destruct (sum_range_repl_raises ref1 ref2 Hn1 Hn2) as [|[e He]]; [done|].
  rewrite He in Hall. simpl in Hall. discriminate Hall.
  apply list_elem_of_In, suffixes_elem.
Qed.

Lemma span_covers (p : ascii → bool) (d post : list ascii) :
  Forall (λ c, p c = true) d → length d ≤ length (span p (d ++ post)).1.
Proof.
  induction 1 as [|c d Hc _ IH]; simpl; [lia|]. rewrite Hc.
  destruct (span p (d ++ post)). simpl in *. lia.
Qed.

Lemma digit_runs_within_check n (s : list ascii) :
  forallb (λ u, length (span is_digit u).1 <=? n) (suffixes s) = true →
  digit_runs_within n s.
Proof.
  rewrite forallb_forall. intros Hall pre d post -> Hd.
  pose proof (span_covers is_digit d post Hd) as Hlen.
  specialize (Hall (d ++ post)). apply Nat.leb_le in Hall; [lia|].
  apply list_elem_of_In, suffixes_elem.
Qed.

(** A formula that is translated, one that raises, and one that no
    pattern matches. *)
Lemma convert_to_js_permissive_witness :
  (∃ out, convert_to_js py_float_repr (txt "MAX(A1,SUM(B2:D2))*1,5+C3*15%") = Ok out)
  ∧ (∃ msg, convert_to_js py_float_repr (txt "A1+SUM(1:3)*2") = Raise (ValueError msg))
  ∧ convert_to_js py_float_repr (txt "(A1+B1)*C1") = Ok (txt "(A1+B1)*C1").
Proof.
  assert (∀ s, (∀ c, In c s → code c < 128) → ascii_text s) as Hascii.
  { intros s Hs. apply Forall_forall. intros c Hc. by apply Hs, list_elem_of_In. }
  split_and!.
  - apply (convert_to_js_permissive py_float_repr (txt "MAX(A1,SUM(B2:D2))*1,5+C3*15%")).
    + apply py_float_repr_chars.
    + apply Hascii. intros c Hc.
      repeat (destruct Hc as [<-|Hc]; [vm_compute; lia|]). destruct Hc.
    + apply digit_runs_within_check. reflexivity.
    + apply range_refs_lettered_check. reflexivity.
  - apply (convert_to_js_permissive py_float_repr (txt "A1+SUM(1:3)*2")).
    + apply py_float_repr_chars.
    + apply Hascii. intros c Hc.
      repeat (destruct Hc as [<-|Hc]; [vm_compute; lia|]). destruct Hc.
    + apply digit_runs_within_check. reflexivity.
    + exists (txt "A1+"), (txt "1"), (txt "3"), (txt "*2").
      split_and!; try done; try (by repeat constructor).
      intros [(c & rest & Heq & Hc) _]. injection Heq as <- _. discriminate Hc.
  - apply (convert_to_js_permissive py_float_repr (txt "(A1+B1)*C1")).
    + apply py_float_repr_chars.
    + apply Hascii. intros c Hc.
      repeat (destruct Hc as [<-|Hc]; [vm_compute; lia|]). destruct Hc.
    + repeat split; apply matches_nowhere_check; reflexivity.
Defined.

(** C3 fails as stated: [SUM(1:3)], the sum of rows 1 to 3, matches the
    range-sum pattern, and reading a column letter off [3] raises
    ValueError. *)
Lemma convert_to_js_raises :
  convert_to_js py_float_repr (txt "SUM(1:3)")
  = Raise (ValueError "3 is not a valid column name").
Proof. reflexivity. Qed.

(** ** A range sum inside a formula *)

Section re_sub_within.
Variable m : list ascii → option (result (list ascii) * nat).

End re_sub_within.







(** The passes after pass 3 read the sum with the text around it: here
    the comma behind it is taken for a decimal comma. *)
Lemma range_sum_in_a_call :
  convert_to_js py_float_repr (txt "MAX(SUM(A1:C1),5)") = Ok (txt "Math.max(A1+B1+C1.5)").
Proof. by vm_compute. Qed.




(** ** Comma-decimal percentages *)

Lemma sum_range_needs_S (u : list ascii) x : sum_range u = Some x → "S"%char ∈ u.
Proof.
  unfold sum_range. destruct (strip_prefix (txt "SUM(") u) as [r0|] eqn:H0; [|done].
  apply strip_prefix_Some in H0 as ->. intros _. by left.
Qed.

Lemma replace_at_needs (c : ascii) (old new u : list ascii) x :
  replace_at (c :: old) new u = Some x → c ∈ u.
Proof. intros [rest ->]%replace_at_Some. by left. Qed.

(** The later passes leave the text of a float over 100 alone. *)
Lemma float_text_untouched (F : list ascii) :
  Forall (λ c, float_char c = true) F →
  ("%"%char ∉ F ++ txt "/100") ∧ ("S"%char ∉ F ++ txt "/100")
  ∧ ("M"%char ∉ F ++ txt "/100") ∧ (","%char ∉ F ++ txt "/100")
  ∧ ("$"%char ∉ F ++ txt "/100").
Proof.
  intros HF. rewrite Forall_forall in HF.
  assert (∀ c, float_char c = false → c ∉ txt "/100" → c ∉ F ++ txt "/100") as Hnot.
  { intros c Hc Hc' [Hin|Hin]%elem_of_app; [|done]. apply HF in Hin. congruence. }
  split_and!; (apply Hnot; [reflexivity|]); intros Hin%list_elem_of_In;
    simpl in Hin; intuition discriminate.
Qed.

(** C7 fails on the code.  Line 24 announces percentages with the comma
    as decimal point, under which [10,5%] is 10.5%, the value 0.105 of
    the claim.  Line 25 adds the digits behind the comma as hundredths,
    however many they are: for [10,5%] the translator writes
    [10.05/100].  The float it prints is the double nearest to 10.05,
    not the one nearest to 10.5, and the quotient that text denotes is
    the double nearest to 0.1005, not the one nearest to 0.105.  Only
    two digits behind the comma are read as a decimal fraction:
    [10,50%] becomes [10.5/100]. *)
Theorem comma_percent_reads_hundredths :
  convert_to_js py_float_repr (txt "10,5%") = Ok (txt "10.05/100")
  ∧ comma_percent_float 10 5 = nearest_float 1005 100
  ∧ comma_percent_float 10 5 ≠ nearest_float 105 10
  ∧ SFdiv 53 1024 (nearest_float 1005 100) (float_of_int 100) = nearest_float 1005 10000
  ∧ nearest_float 1005 10000 ≠ nearest_float 105 1000
  ∧ convert_to_js py_float_repr (txt "10,50%") = Ok (txt "10.5/100").
Proof. split_and!; by vm_compute. Qed.

(** ** The cell extractor *)

Lemma dict_set_keys {V : Type} (d : list (string * V)) k v k' :
  k' ∈ (dict_set d k v).*1 ↔ k' = k ∨ k' ∈ d.*1.
Proof.
  induction d as [|[k0 v0] d IH]; simpl.
  - rewrite list_elem_of_singleton, elem_of_nil. tauto.
  - destruct (decide (k0 = k)) as [->|Hne]; simpl.
    + rewrite !elem_of_cons. tauto.
    + rewrite !elem_of_cons, IH. tauto.
Qed.

Lemma graph_add_elem (g : list (string * list string)) k x k' deps' :
  (k', deps') ∈ graph_add g k x → k' = k ∨ (k', deps') ∈ g.
Proof.
  induction g as [|[k0 d0] g IH]; simpl.
  - intros [= -> _]%list_elem_of_singleton. by left.
  - destruct (decide (k0 = k)) as [->|Hne].
    + intros [[= -> _]|Hin]%elem_of_cons; [by left|]. right. by right.
    + intros [[= -> ->]|Hin]%elem_of_cons; [right; by left|].
      destruct (IH Hin); [by left|right; by right].
Qed.

Lemma graph_add_all_elem (refs : list string) :
  ∀ (g : list (string * list string)) k k' deps',
    (k', deps') ∈ foldl (λ g r, graph_add g k r) g refs → k' = k ∨ (k', deps') ∈ g.
Proof.
  induction refs as [|r refs IH]; intros g k k' deps'; simpl; [by right|].
  intros [->|Hin%graph_add_elem]%IH; [by left|]. done.
Qed.

Section extractor_inv.
Variable float_repr : Z → Z → list ascii.

Lemma extract_cell_inv row_idx col_idx value st st' :
  extract_cell float_repr row_idx col_idx value st = Ok st' →
  extraction_inv st → extraction_inv st'.
Proof.
  unfold extract_cell. intros Hrun [Hg Hd].
  destruct (get_column_letter (Z.of_nat col_idx)) as [col|]; [|done].
  rewrite result_bind_Ok in Hrun.
  set (cell_ref := string_of_list_ascii _) in Hrun.
  destruct value as [shown|s|].
  - injection Hrun as <-. split; simpl.
    + intros k deps Hk. apply elem_of_union. right. eauto.
    + intros x Hx. apply dict_set_keys.
      apply elem_of_union in Hx as [->%elem_of_singleton|Hx]; auto.
  - destruct s as [|c formula]; [by injection Hrun as <-|].
    destruct (decide (c = "="%char)) as [->|Hc].
    + destruct (convert_to_js float_repr formula) as [js|]; [|done].
      rewrite result_bind_Ok in Hrun. injection Hrun as <-. split; simpl.
      * intros k deps [->|Hk]%graph_add_all_elem; apply elem_of_union.
        -- left. by apply elem_of_singleton.
        -- right. eauto.
      * intros x Hx. apply dict_set_keys.
        apply elem_of_union in Hx as [->%elem_of_singleton|Hx]; auto.
    + assert (st' = st) as ->; [|done].
      revert Hrun. clear -Hc. destruct c as [[] [] [] [] [] [] [] []]; try done; congruence.
  - by injection Hrun as <-.
Qed.

Lemma extract_row_inv row_idx row :
  ∀ col_idx st st',
    extract_row float_repr row_idx col_idx row st = Ok st' →
    extraction_inv st → extraction_inv st'.
Proof.
  induction row as [|value row IH]; intros col_idx st st'; simpl.
  - by intros [= <-].
  - destruct (extract_cell float_repr row_idx col_idx value st) as [st1|] eqn:Hcell; [|done].
    rewrite result_bind_Ok. intros Hrow Hinv.
    eapply IH; [done|]. by eapply extract_cell_inv.
Qed.

Lemma extract_rows_inv rows :
  ∀ row_idx st st',
    extract_rows float_repr row_idx rows st = Ok st' →
    extraction_inv st → extraction_inv st'.
Proof.
  induction rows as [|row rows IH]; intros row_idx st st'; simpl.
  - by intros [= <-].
  - destruct (extract_row float_repr row_idx 1 row st) as [st1|] eqn:Hrow; [|done].
    rewrite result_bind_Ok. intros Hrows Hinv.
    eapply IH; [done|]. by eapply extract_row_inv.
Qed.

Lemma zero_defaults_keys (vars : list string) :
  ∀ (cells : list (string * list ascii)) k,
    k ∈ (foldl (λ cells var, dict_set cells var (declaration var (txt "0"))) cells vars).*1
    ↔ k ∈ vars ∨ k ∈ cells.*1.
Proof.
  induction vars as [|v vars IH]; intros cells k; simpl.
  - rewrite elem_of_nil. tauto.
  - rewrite IH, dict_set_keys, elem_of_cons. tauto.
Qed.

End extractor_inv.

(** ** Claims about the extractor *)

(** C9 fails as stated: for a sheet whose only cell A1 holds [=B1], B1
    is in the value set of A1 but is not a key of the graph (it is a key
    of [all_cells]). *)
Lemma referenced_cell_is_no_graph_key :
  extract_and_convert_all_cells decimal_repr [[Text (txt "=B1")]]
  = Ok ([("A1", txt "var A1 = B1;"); ("B1", txt "var B1 = 0;")],
        [("A1", ["B1"])],
        [("A1", txt "=B1")])
  ∧ "B1" ∈ graph_get [("A1", ["B1"])] "A1"
  ∧ "B1" ∉ [("A1", ["B1"])].*1.
Proof.
  split_and!; [reflexivity|by left|].
  intros Hin%list_elem_of_In. simpl in Hin. intuition discriminate.
Qed.

(** C5 fails on the code: for a sheet whose only cell A1 holds
    [=SUM(B1:D1)], the declaration of A1 reads C1, yet C1 gets no
    declaration and is not in the order; only B1 and D1, which occur in
    the formula text, are given the value 0. *)
Theorem range_interior_never_declared :
  extract_and_convert_all_cells decimal_repr [[Text (txt "=SUM(B1:D1)")]]
  = Ok ([("A1", txt "var A1 = B1+C1+D1;"); ("B1", txt "var B1 = 0;");
         ("D1", txt "var D1 = 0;")],
        [("A1", ["B1"; "D1"])],
        [("A1", txt "=SUM(B1:D1)")])
  ∧ break_and_sort [("A1", ["B1"; "D1"])] ["A1"; "B1"; "D1"] = Some (Ok ["B1"; "D1"; "A1"])
  ∧ convert_excel_to_js decimal_repr [[Text (txt "=SUM(B1:D1)")]]
    = Some (Ok (join [ascii_of_nat 10]
                  [txt "var B1 = 0;"; txt "var D1 = 0;"; txt "var A1 = B1+C1+D1;"],
                [("A1", txt "=SUM(B1:D1)")])).
Proof. split_and!; vm_compute; reflexivity. Qed.

(** ** More on the translator *)

Lemma matches_nowhere_nil (m : list ascii → option (result (list ascii) * nat)) :
  m [] = None → matches_nowhere m [].
Proof. intros Hm pre u Heq. symmetry in Heq. apply app_eq_nil in Heq as [_ ->]. done. Qed.

Lemma matches_nowhere_cons (m : list ascii → option (result (list ascii) * nat)) c s :
  m (c :: s) = None → matches_nowhere m s → matches_nowhere m (c :: s).
Proof.
  intros Hc Hs pre u Heq. destruct pre as [|p pre]; simpl in Heq.
  - by rewrite <- Heq.
  - injection Heq as _ Heq. by apply (Hs pre).
Qed.

(** A run of characters at none of which the pattern can start. *)
Lemma matches_nowhere_run (m : list ascii → option (result (list ascii) * nat))
    (p : ascii → bool) (run s : list ascii) :
  (∀ c rest, p c = true → m (c :: rest) = None) →
  Forall (λ c, p c = true) run → matches_nowhere m s → matches_nowhere m (run ++ s).
Proof.
  intros Hp Hrun Hs. induction Hrun as [|c run Hc _ IH]; [done|].
  simpl. apply matches_nowhere_cons; [by apply Hp|done].
Qed.

(** The scan copies a piece at no position of which the pattern
    matches. *)
Lemma re_sub_copy (m : list ascii → option (result (list ascii) * nat)) (pre s : list ascii) :
  (∀ p1 c p2, pre = p1 ++ c :: p2 → m (c :: p2 ++ s) = None) →
  re_sub m (pre ++ s) = (pre ++.) <$> re_sub m s.
Proof.
  unfold re_sub. induction pre as [|c pre IH]; intros Hpre; simpl.
  - by destruct (re_sub_from m 0 s).
  - rewrite (Hpre [] c pre eq_refl). rewrite IH.
    + by destruct (re_sub_from m 0 s).
    + intros p1 c' p2 ->. by apply (Hpre (c :: p1)).
Qed.

Lemma re_sub_copy_run (m : list ascii → option (result (list ascii) * nat))
    (p : ascii → bool) (pre s : list ascii) :
  (∀ c rest, p c = true → m (c :: rest) = None) →
  Forall (λ c, p c = true) pre →
  re_sub m (pre ++ s) = (pre ++.) <$> re_sub m s.
Proof.
  intros Hp Hpre. apply re_sub_copy. intros p1 c p2 ->.
  apply Hp. apply Forall_app in Hpre as [_ Hpre]. by apply Forall_inv in Hpre.
Qed.

(** [s.replace(c, "")] deletes every [c]. *)
Lemma str_replace_delete (c : ascii) (s : list ascii) :
  str_replace [c] [] s = Ok (filter (λ x, x ≠ c) s).
Proof.
  unfold str_replace, re_sub. induction s as [|x s IH]; simpl; [done|].
  unfold replace_at at 1. simpl. rewrite filter_cons.
  destruct (decide (c = x)) as [->|Hne]; simpl.
  - rewrite IH. simpl. by rewrite decide_False by (by intros []).
  - rewrite IH. simpl. by rewrite decide_True by congruence.
Qed.

Lemma replace_at_needs_all (old new u : list ascii) x c :
  replace_at old new u = Some x → c ∈ old → c ∈ u.
Proof. intros [rest ->]%replace_at_Some Hc. apply elem_of_app. by left. Qed.

Lemma not_elem_of_class (p : ascii → bool) (c : ascii) (l : list ascii) :
  p c = false → Forall (λ x, p x = true) l → c ∉ l.
Proof. intros Hc Hl Hin. rewrite Forall_forall in Hl. apply Hl in Hin. congruence. Qed.

(** X1: whatever the translator returns holds no [$]. *)
Theorem convert_to_js_no_dollar float_repr (s out : list ascii) :
  convert_to_js float_repr s = Ok out → "$"%char ∉ out.
Proof.
  unfold convert_to_js.
  destruct (re_sub (comma_percent float_repr) s) as [f1|]; [|done]. rewrite result_bind_Ok.
  destruct (re_sub percent f1) as [f2|]; [|done]. rewrite result_bind_Ok.
  destruct (re_sub sum_range f2) as [f3|]; [|done]. rewrite result_bind_Ok.
  destruct (str_replace (txt "MIN") (txt "Math.min") f3) as [f4|]; [|done]. rewrite result_bind_Ok.
  destruct (str_replace (txt "MAX") (txt "Math.max") f4) as [f5|]; [|done]. rewrite result_bind_Ok.
  destruct (re_sub comma_decimal f5) as [f6|]; [|done]. rewrite result_bind_Ok.
  change (txt "$") with ["$"%char]. rewrite str_replace_delete. intros [= <-].
  rewrite list_elem_of_filter. by intros [? _].
Qed.

Lemma convert_to_js_no_dollar_witness :
  convert_to_js decimal_repr (txt "$A$1*MAX(B$2,C$3)") = Ok (txt "A1*Math.max(B2,C3)")
  ∧ "$"%char ∉ txt "A1*Math.max(B2,C3)".
Proof.
  split; [reflexivity|].
  apply (convert_to_js_no_dollar decimal_repr (txt "$A$1*MAX(B$2,C$3)")).
  reflexivity.
Defined.

(** ** Whole percentages *)

Lemma percent_match (d rest : list ascii) :
  d ≠ [] → Forall (λ c, is_digit c = true) d →
  percent (d ++ "%"%char :: rest) = Some (Ok (py_str (py_int d) ++ txt "/100"), length d + 1).
Proof.
  intros Hne Hd. unfold percent.
  rewrite (span_all is_digit d) by (done || by intros c [= <-]).
  by destruct d.
Qed.

Lemma comma_percent_needs_comma float_repr (u : list ascii) x :
  comma_percent float_repr u = Some x → ","%char ∈ u.
Proof.
  destruct x as [r n]. intros (d1 & d2 & post & -> & _)%comma_percent_shape.
  apply elem_of_app. right. by left.
Qed.

(** X2: a whole percentage [<d>%] becomes [str(int(d))] followed by
    [/100]. *)
Theorem percent_translation float_repr (d : list ascii) :
  d ≠ [] → Forall (λ c, is_digit c = true) d →
  convert_to_js float_repr (d ++ ["%"%char]) = Ok (py_str (py_int d) ++ txt "/100").
Proof.
  intros Hne Hd. unfold convert_to_js, str_replace.
  rewrite (re_sub_no_match (comma_percent float_repr)), result_bind_Ok.
  2: { apply (matches_nowhere_without _ ","%char); [apply comma_percent_needs_comma|].
       intros [Hin|Hin]%elem_of_app.
       - by apply (not_elem_of_class is_digit ","%char d).
       - apply list_elem_of_singleton in Hin. discriminate Hin. }
  assert (re_sub percent (d ++ ["%"%char]) = Ok (py_str (py_int d) ++ txt "/100")) as ->.
  { rewrite <- (app_nil_r (d ++ ["%"%char])).
    rewrite (re_sub_match _ (d ++ ["%"%char]) [] (py_str (py_int d) ++ txt "/100")).
    - simpl. by rewrite app_nil_r.
    - by destruct d.
    - rewrite app_nil_r, percent_match by done. by rewrite length_app. }
  rewrite result_bind_Ok.
  destruct (float_text_untouched _ (py_str_chars (py_int d))) as (Hp & HS & HM & Hc & Hdl).
  rewrite (re_sub_no_match sum_range), result_bind_Ok
    by (apply (matches_nowhere_without _ "S"%char); [apply sum_range_needs_S|done]).
  rewrite (re_sub_no_match (replace_at (txt "MIN") (txt "Math.min"))), result_bind_Ok
    by (apply (matches_nowhere_without _ "M"%char); [apply replace_at_needs|done]).
  rewrite (re_sub_no_match (replace_at (txt "MAX") (txt "Math.max"))), result_bind_Ok
    by (apply (matches_nowhere_without _ "M"%char); [apply replace_at_needs|done]).
  rewrite (re_sub_no_match comma_decimal), result_bind_Ok
    by (apply (matches_nowhere_without _ ","%char); [apply comma_decimal_Some|done]).
  apply re_sub_no_match.
  apply (matches_nowhere_without _ "$"%char); [apply replace_at_needs|done].
Qed.

Lemma percent_translation_witness :
  convert_to_js decimal_repr (txt "015%") = Ok (txt "15/100").
Proof.
  apply (percent_translation decimal_repr (txt "015")).
  - done.
  - repeat constructor.
Defined.

(** ** Commas between digits *)

Lemma comma_decimal_nondigit (c : ascii) (rest : list ascii) :
  is_digit c = false → comma_decimal (c :: rest) = None.
Proof. intros Hc. unfold comma_decimal. simpl. by rewrite Hc. Qed.

Lemma comma_decimal_match (d1 d2 rest : list ascii) :
  d1 ≠ [] → d2 ≠ [] →
  Forall (λ c, is_digit c = true) d1 → Forall (λ c, is_digit c = true) d2 →
  (∀ c, head rest = Some c → is_digit c = false) →
  comma_decimal (d1 ++ ","%char :: d2 ++ rest)
  = Some (Ok (d1 ++ txt "." ++ d2), length d1 + 1 + length d2).
Proof.
  intros Hn1 Hn2 Hd1 Hd2 Hrest. unfold comma_decimal.
  rewrite (span_all is_digit d1) by (done || by intros c [= <-]).
  destruct d1 as [|a1 d1]; [done|].
  rewrite (span_all is_digit d2) by done.
  by destruct d2.
Qed.

Lemma replace_at_match (old new rest : list ascii) :
  replace_at old new (old ++ rest) = Some (Ok new, length old).
Proof. unfold replace_at. by rewrite strip_prefix_app. Qed.

(** X3: the comma between two numbers becomes a dot, also where it
    separates the arguments of a call: [MAX(<d1>,<d2>)] becomes
    [Math.max(<d1>.<d2>)]. *)
Theorem argument_comma_becomes_dot float_repr (d1 d2 : list ascii) :
  d1 ≠ [] → d2 ≠ [] →
  Forall (λ c, is_digit c = true) d1 → Forall (λ c, is_digit c = true) d2 →
  convert_to_js float_repr (txt "MAX(" ++ d1 ++ ","%char :: d2 ++ [")"%char])
  = Ok (txt "Math.max(" ++ d1 ++ "."%char :: d2 ++ [")"%char]).
Proof.
  intros Hn1 Hn2 Hd1 Hd2.
  set (p := λ c, is_digit c || bool_decide (c ∈ txt "MAX(,).athmx")).
  assert (∀ d, Forall (λ c, is_digit c = true) d → Forall (λ c, p c = true) d) as Hdig.
  { intros d Hd. eapply Forall_impl; [done|]. intros c Hc. unfold p. by rewrite Hc. }
  assert (Forall (λ c, p c = true) (txt "MAX(" ++ d1 ++ ","%char :: d2 ++ [")"%char])) as HT.
  { apply Forall_app. split; [by repeat constructor|]. apply Forall_app. split; [by apply Hdig|].
    constructor; [done|]. apply Forall_app. split; [by apply Hdig|]. by repeat constructor. }
  assert (Forall (λ c, p c = true) (txt "Math.max(" ++ d1 ++ "."%char :: d2 ++ [")"%char])) as HT'.
  { apply Forall_app. split; [by repeat constructor|]. apply Forall_app. split; [by apply Hdig|].
    constructor; [done|]. apply Forall_app. split; [by apply Hdig|]. by repeat constructor. }
  unfold convert_to_js, str_replace.
  rewrite (re_sub_no_match (comma_percent float_repr)), result_bind_Ok
    by (apply (matches_nowhere_without _ "%"%char); [apply comma_percent_Some|];
        by apply (not_elem_of_class p)).
  rewrite (re_sub_no_match percent), result_bind_Ok
    by (apply (matches_nowhere_without _ "%"%char); [apply percent_Some|];
        by apply (not_elem_of_class p)).
  rewrite (re_sub_no_match sum_range), result_bind_Ok
    by (apply (matches_nowhere_without _ "S"%char); [apply sum_range_needs_S|];
        by apply (not_elem_of_class p)).
  rewrite (re_sub_no_match (replace_at (txt "MIN") (txt "Math.min"))), result_bind_Ok.
  2: { apply (matches_nowhere_without _ "I"%char); [|by apply (not_elem_of_class p)].
       intros u x Hu. apply (replace_at_needs_all _ _ _ _ _ Hu). right. by left. }
  assert (re_sub (replace_at (txt "MAX") (txt "Math.max"))
            (txt "MAX(" ++ d1 ++ ","%char :: d2 ++ [")"%char])
          = Ok (txt "Math.max(" ++ d1 ++ ","%char :: d2 ++ [")"%char])) as ->.
  { change (txt "MAX(" ++ ?r) with (txt "MAX" ++ "("%char :: r).
    rewrite (re_sub_match _ (txt "MAX") _ (txt "Math.max")); [|done|apply replace_at_match].
    rewrite re_sub_no_match; [done|].
    apply (matches_nowhere_without _ "M"%char); [apply replace_at_needs|].
    apply Forall_app in HT as [_ HT].
    apply (not_elem_of_class (λ c, is_digit c || bool_decide (c ∈ txt "(,)"))); [done|].
    constructor; [done|]. apply Forall_app. split.
    - eapply Forall_impl; [apply Hd1|]. by intros c ->.
    - constructor; [done|]. apply Forall_app. split; [|by repeat constructor].
      eapply Forall_impl; [apply Hd2|]. by intros c ->. }
  rewrite result_bind_Ok.
  assert (re_sub comma_decimal (txt "Math.max(" ++ d1 ++ ","%char :: d2 ++ [")"%char])
          = Ok (txt "Math.max(" ++ d1 ++ "."%char :: d2 ++ [")"%char])) as ->.
  { rewrite (re_sub_copy_run comma_decimal (λ c, negb (is_digit c)));
      [|intros c rest Hc; apply comma_decimal_nondigit; by destruct (is_digit c)
       |by repeat constructor].
    replace (d1 ++ ","%char :: d2 ++ [")"%char]) with ((d1 ++ ","%char :: d2) ++ [")"%char])
      by (by rewrite <- app_assoc).
    rewrite (re_sub_match _ _ _ (d1 ++ txt "." ++ d2)).
    - simpl. by rewrite <- app_assoc.
    - by destruct d1.
    - rewrite <- app_assoc. simpl. rewrite comma_decimal_match; try done.
      + rewrite length_app. simpl. do 2 f_equal. lia.
      + by intros c [= <-]. }
  rewrite result_bind_Ok.
  apply re_sub_no_match.
  apply (matches_nowhere_without _ "$"%char); [apply replace_at_needs|].
  by apply (not_elem_of_class p).
Qed.

Lemma argument_comma_becomes_dot_witness :
  convert_to_js decimal_repr (txt "MAX(1,20)") = Ok (txt "Math.max(1.20)").
Proof.
  apply (argument_comma_becomes_dot decimal_repr (txt "1") (txt "20")); try done;
    repeat constructor.
Defined.

(** ** Range sums the pattern does not cover *)

Lemma strip_prefix_first (a c : ascii) (pre s : list ascii) :
  a ≠ c → strip_prefix (a :: pre) (c :: s) = None.
Proof. intros Hne. simpl. by rewrite decide_False. Qed.

Lemma strip_prefix_second (a b c d : ascii) (pre s : list ascii) :
  b ≠ d → strip_prefix (a :: b :: pre) (c :: d :: s) = None.
Proof. intros Hne. simpl. destruct (decide (a = c)); [|done]. by rewrite decide_False. Qed.

Lemma sum_range_prefix (u : list ascii) :
  strip_prefix (txt "SUM(") u = None → sum_range u = None.
Proof. intros H. unfold sum_range. by rewrite H. Qed.

Lemma replace_at_prefix (old new u : list ascii) :
  strip_prefix old u = None → replace_at old new u = None.
Proof. intros H. unfold replace_at. by rewrite H. Qed.

Lemma filter_keeps_class (p : ascii → bool) (x : ascii) (l : list ascii) :
  p x = false → Forall (λ c, p c = true) l → filter (λ c, c ≠ x) l = l.
Proof.
  intros Hx. induction 1 as [|c l Hc _ IH]; [done|].
  rewrite filter_cons, decide_True, IH; [done|]. intros ->. congruence.
Qed.

Ltac no_match_here :=
  first
    [ reflexivity
    | apply sum_range_prefix; first [apply strip_prefix_second; discriminate
                                    |apply strip_prefix_first; discriminate]
    | apply replace_at_prefix; first [apply strip_prefix_second; discriminate
                                     |apply strip_prefix_first; discriminate] ].

Ltac no_match_digit :=
  let c := fresh "c" in let rest := fresh "rest" in let Hc := fresh "Hc" in
  intros c rest Hc;
  first [apply sum_range_prefix|apply replace_at_prefix];
  apply strip_prefix_first; intros <-; discriminate Hc.

(** X4: a range sum written with absolute references is not expanded:
    the pattern of pass 3 stops at the [$], and pass 6 then deletes the
    [$] signs, so [SUM($B$2:$D$2)] becomes [SUM(B2:D2)]. *)
Theorem absolute_range_sum_kept float_repr (c1 c2 : ascii) (row1 row2 : list ascii) :
  is_upper c1 = true → is_upper c2 = true →
  Forall (λ c, is_digit c = true) row1 → Forall (λ c, is_digit c = true) row2 →
  convert_to_js float_repr
    (txt "SUM($" ++ c1 :: "$"%char :: row1 ++ txt ":$" ++ c2 :: "$"%char :: row2 ++ [")"%char])
  = Ok (range_sum (c1 :: row1) (c2 :: row2)).
Proof.
  intros H1 H2 Hr1 Hr2.
  set (T := txt "SUM($" ++ _).
  set (p := λ c, is_upper c || is_digit c || bool_decide (c ∈ txt "($:)")).
  assert (∀ d, Forall (λ c, is_digit c = true) d → Forall (λ c, p c = true) d) as Hdig.
  { intros d Hd. eapply Forall_impl; [done|]. intros c Hc. unfold p. by rewrite Hc, orb_true_r. }
  assert (∀ c, is_upper c = true → p c = true) as Hup by (intros c Hc; unfold p; by rewrite Hc).
  assert (Forall (λ c, p c = true) T) as HT.
  { unfold T. apply Forall_app. split; [by repeat constructor|].
    constructor; [by apply Hup|]. constructor; [done|]. apply Forall_app. split; [by apply Hdig|].
    apply Forall_app. split; [by repeat constructor|].
    constructor; [by apply Hup|]. constructor; [done|]. apply Forall_app. split; [by apply Hdig|].
    by repeat constructor. }
  assert (∀ m : list ascii → option (result (list ascii) * nat),
            m = sum_range ∨ m = replace_at (txt "MIN") (txt "Math.min")
            ∨ m = replace_at (txt "MAX") (txt "Math.max") →
            matches_nowhere m T) as Hnowhere.
  { intros m Hm. unfold T. simpl.
    destruct Hm as [->|[->| ->]];
      (do 7 (apply matches_nowhere_cons; [no_match_here|]);
       apply (matches_nowhere_run _ is_digit); [no_match_digit|done|];
       do 4 (apply matches_nowhere_cons; [no_match_here|]);
       apply (matches_nowhere_run _ is_digit); [no_match_digit|done|];
       apply matches_nowhere_cons; [no_match_here|];
       apply matches_nowhere_nil; reflexivity). }
  unfold convert_to_js, str_replace.
  rewrite (re_sub_no_match (comma_percent float_repr)), result_bind_Ok
    by (apply (matches_nowhere_without _ "%"%char); [apply comma_percent_Some|];
        by apply (not_elem_of_class p)).
  rewrite (re_sub_no_match percent), result_bind_Ok
    by (apply (matches_nowhere_without _ "%"%char); [apply percent_Some|];
        by apply (not_elem_of_class p)).
  rewrite (re_sub_no_match sum_range), result_bind_Ok by (apply Hnowhere; auto).
  rewrite (re_sub_no_match (replace_at (txt "MIN") (txt "Math.min"))), result_bind_Ok
    by (apply Hnowhere; auto).
  rewrite (re_sub_no_match (replace_at (txt "MAX") (txt "Math.max"))), result_bind_Ok
    by (apply Hnowhere; auto).
  rewrite (re_sub_no_match comma_decimal), result_bind_Ok
    by (apply (matches_nowhere_without _ ","%char); [apply comma_decimal_Some|];
        by apply (not_elem_of_class p)).
  change (re_sub (replace_at (txt "$") []) T) with (str_replace ["$"%char] [] T).
  rewrite str_replace_delete. f_equal. unfold T, range_sum. simpl.
  assert (∀ c, is_upper c = true → c ≠ "$"%char) as Hne by (by intros c Hc ->).
  rewrite !filter_cons. simpl.
  rewrite (decide_True _ _ (Hne c1 H1)).
  rewrite !filter_app, !filter_cons. simpl.
  rewrite (decide_True _ _ (Hne c2 H2)).
  rewrite !filter_app.
  rewrite !(filter_keeps_class is_digit) by done.
  done.
Qed.

Lemma absolute_range_sum_kept_witness :
  convert_to_js decimal_repr (txt "SUM($B$2:$D$2)") = Ok (txt "SUM(B2:D2)").
Proof.
  apply (absolute_range_sum_kept decimal_repr "B" "D" (txt "2") (txt "2")); try done;
    repeat constructor.
Defined.

(** X5: only the row of the first reference is read: a range sum over
    single-letter columns expands to the references of the first
    reference's row, whatever the row of the second, so a range down a
    column, [SUM(B2:B5)], becomes its first cell. *)
Theorem range_sum_reads_first_row float_repr (c1 c2 : ascii) (row1 row2 : list ascii) :
  is_upper c1 = true → is_upper c2 = true →
  Forall (λ c, is_digit c = true) row1 → row1 ≠ [] →
  Forall (λ c, is_digit c = true) row2 →
  convert_to_js float_repr (range_sum (c1 :: row1) (c2 :: row2))
  = Ok (addition_chain c1 c2 row1)
  ∧ convert_to_js float_repr (range_sum (c1 :: row1) (c1 :: row2)) = Ok (c1 :: row1).
Proof.
  intros H1 H2 Hr1 Hne Hr2. split; [by apply convert_to_js_range_sum|].
  rewrite convert_to_js_range_sum by done.
  unfold columns_between. replace (S (code c1) - code c1) with 1 by lia.
  simpl. by rewrite ascii_of_code.
Qed.

Lemma range_sum_reads_first_row_witness :
  convert_to_js decimal_repr (txt "SUM(B2:D5)") = Ok (txt "B2+C2+D2")
  ∧ convert_to_js decimal_repr (txt "SUM(B2:B5)") = Ok (txt "B2").
Proof.
  apply (range_sum_reads_first_row decimal_repr "B" "D" (txt "2") (txt "5")); try done;
    repeat constructor.
Defined.

(** ** The cycle breaker on a graph without cycles *)

Section dfs_acyclic.
Variable g0 : list (string * list string).
Hypothesis g0_acyclic : acyclic g0.

Lemma dfs_neighbors_quiet fuel vertex (IH : dfs_quiet g0 fuel) neighbors :
  ∀ st b st',
    dfs_neighbors (dfs fuel) vertex neighbors st = Some (b, st') →
    (∀ n, n ∈ neighbors → edge g0 vertex n) → same_edges g0 st →
    (∀ u, gray st u → rtc (edge g0) u vertex) →
    dfs_quiet_post g0 st b st'.
Proof.
  induction neighbors as [|n ns IHn]; intros st b st' Hrun Hns HE Hstack; simpl in Hrun.
  - injection Hrun as <- <-. by split_and!.
  - assert (edge g0 vertex n) as Hn by (apply Hns; by left).
    assert (∀ n', n' ∈ ns → edge g0 vertex n') as Hns' by (intros; apply Hns; by right).
    destruct (state_of st n) eqn:Hcol.
    + destruct (dfs fuel n st) as [[b1 st1]|] eqn:Hdfs; [|done].
      destruct (IH _ _ _ _ Hdfs HE) as (-> & Hc1 & Hg1 & HE1).
      { intros u Hu. eapply tc_rtc_l; [by apply Hstack|by apply tc_once]. }
      destruct (IHn _ _ _ Hrun Hns' HE1) as (-> & Hc2 & Hg2 & HE2).
      { intros u Hu. apply Hstack. by apply Hg1. }
      split_and!; [done|congruence| |done]. intros u. by rewrite Hg2, Hg1.
    + destruct (g0_acyclic n). eapply tc_rtc_l; [by apply Hstack|by apply tc_once].
    + by apply IHn.
Qed.

Lemma dfs_acyclic_quiet fuel : dfs_quiet g0 fuel.
Proof.
  induction fuel as [|fuel IH]; intros v st b st' Hrun HE Hstack; [done|].
  rewrite dfs_S in Hrun. cbv zeta in Hrun.
  pose proof (dfs_frame_set_state g0 st v GRAY HE ltac:(done)) as Hf1.
  set (st1 := set_state v GRAY st) in *.
  pose proof (dfs_frame_getitem g0 st1 v (frame_edges _ _ _ Hf1)) as Hf2.
  rewrite graph_getitem_deps in Hrun.
  set (st2 := DfsState _ _ _) in *.
  assert (∀ u, gray st2 u ↔ u = v ∨ gray st u) as Hg2.
  { intros u. unfold gray. change (state_of st2 u) with (state_of st1 u).
    unfold st1. rewrite state_of_set_state.
    destruct (decide (u = v)) as [->|Hne]; [tauto|]. split; [by right|]. by intros [?|?]. }
  destruct (dfs_neighbors _ _ _ st2) as [[b3 st3]|] eqn:Hloop; [|done].
  destruct (dfs_neighbors_quiet fuel v IH _ _ _ _ Hloop) as (-> & Hc3 & Hg3 & HE3).
  { intros n Hn. unfold edge. by rewrite <- (frame_edges _ _ _ Hf1 v). }
  { apply Hf2. }
  { intros u [->|Hu]%Hg2; [done|]. by apply tc_rtc, Hstack. }
  injection Hrun as <- <-. split_and!; [done|done| |].
  - intros u. unfold gray. rewrite state_of_set_state.
    destruct (decide (u = v)) as [->|Hne].
    + split; [done|]. intros Hv. destruct (g0_acyclic v). by apply Hstack.
    + change (gray st3 u ↔ gray st u). rewrite Hg3, Hg2. split; [by intros [?|?]|by right].
  - apply (dfs_frame_set_state g0 st3 v BLACK HE3). done.
Qed.

Lemma dfs_roots_quiet fuel roots :
  ∀ st st',
    dfs_roots fuel roots st = Some st' → same_edges g0 st → (∀ u, ¬ gray st u) →
    cycle_edges st' = cycle_edges st.
Proof.
  induction roots as [|r roots IH]; intros st st' Hrun HE Hgray; simpl in Hrun.
  - by injection Hrun as <-.
  - destruct (state_of st r); [|by apply IH..].
    destruct (dfs fuel r st) as [[b st1]|] eqn:Hdfs; [|done].
    destruct (dfs_acyclic_quiet fuel _ _ _ _ Hdfs HE) as (_ & Hc1 & Hg1 & HE1).
    { intros u Hu. by destruct (Hgray u). }
    rewrite <- Hc1. apply IH; [done|done|]. intros u Hu%Hg1. by destruct (Hgray u).
Qed.
End dfs_acyclic.

(** On a graph without cycles the cycle breaker records no edge. *)
Lemma detect_and_break_cycles_acyclic (g : list (string * list string)) :
  acyclic g →
  ∃ g', detect_and_break_cycles g = Some g' ∧ ∀ a b, edge g' a b ↔ edge g a b.
Proof.
  intros Hac.
  destruct (detect_and_break_cycles_spec g) as (st & g' & Hrun & _ & Hg' & Hedges).
  exists g'. split; [done|]. intros a b. rewrite Hedges.
  rewrite (dfs_roots_quiet g Hac _ _ _ _ Hrun (same_edges_init g)).
  - simpl. split; [tauto|]. intros Hab. split; [done|]. by intros ?%elem_of_empty.
  - intros u. unfold gray, state_of. simpl. by rewrite lookup_empty.
Qed.

(** ** The cycle breaker on a graph with a cycle *)

Section dfs_clean.
Variable g0 : list (string * list string).

Lemma dfs_neighbors_clean fuel vertex (IH : dfs_clean g0 fuel) neighbors :
  ∀ st b st' l,
    dfs_neighbors (dfs fuel) vertex neighbors st = Some (b, st') →
    (∀ n, n ∈ neighbors → edge g0 vertex n) → same_edges g0 st →
    cycle_edges st' = ∅ → finished g0 st l →
    ∃ l', dfs_clean_post g0 st l b st' l' ∧ ∀ n, n ∈ neighbors → n ∈ l'.
Proof.
  induction neighbors as [|n ns IHn]; intros st b st' l Hrun Hns HE Hc Hfin; simpl in Hrun.
  - injection Hrun as <- <-. exists l. split; [by split_and!|].
    intros n Hn. by apply elem_of_nil in Hn.
  - assert (edge g0 vertex n) as Hn by (apply Hns; by left).
    assert (∀ n', n' ∈ ns → edge g0 vertex n') as Hns' by (intros; apply Hns; by right).
    destruct (state_of st n) eqn:Hcol.
    + destruct (dfs fuel n st) as [[b1 st1]|] eqn:Hdfs; [|done].
      destruct (dfs_run g0 _ _ _ _ _ Hdfs HE) as [Hf1 _].
      destruct b1.
      { exfalso.
        destruct (dfs_neighbors_run g0 fuel vertex (dfs_run g0 fuel) _ _ _ _ Hrun Hns')
          as [Hf2 _]; [apply Hf1|].
        pose proof (frame_cycle_mono _ _ _ Hf2) as Hsub. simpl in Hsub. set_solver. }
      destruct (dfs_neighbors_run g0 fuel vertex (dfs_run g0 fuel) _ _ _ _ Hrun Hns')
        as [Hf2 _]; [apply Hf1|].
      destruct (IH _ _ _ _ l Hdfs HE) as (l1 & (_ & Hfin1 & Hsub1 & Hkeep1 & Hg1) & Hn1);
        [|done|done|].
      { pose proof (frame_cycle_mono _ _ _ Hf2) as Hsub. set_solver. }
      destruct (IHn _ _ _ l1 Hrun Hns') as (l2 & (-> & Hfin2 & Hsub2 & Hkeep2 & Hg2) & Hn2);
        [apply Hf1|done|done|].
      exists l2. split; [split_and!; try done|].
      * auto.
      * intros x Hx. rewrite Hkeep2, Hkeep1; [done|done|].
        unfold white. rewrite Hkeep1; done.
      * auto.
      * intros n' [->|Hn']%elem_of_cons; auto.
    + exfalso. injection Hrun as <- <-. simpl in Hc. set_solver.
    + destruct (IHn _ _ _ l Hrun Hns' HE Hc Hfin) as (l2 & Hpost & Hn2).
      exists l2. split; [done|].
      intros n' [->|Hn']%elem_of_cons; [|auto].
      destruct Hpost as (_ & _ & Hsub & _). apply Hsub, Hfin. done.
Qed.

Lemma dfs_clean_run fuel : dfs_clean g0 fuel.
Proof.
  induction fuel as [|fuel IH]; intros v st b st' l Hrun HE Hc Hw Hfin; [done|].
  rewrite dfs_S in Hrun. cbv zeta in Hrun.
  pose proof (dfs_frame_set_state g0 st v GRAY HE ltac:(done)) as Hf1.
  set (st1 := set_state v GRAY st) in *.
  pose proof (dfs_frame_getitem g0 st1 v (frame_edges _ _ _ Hf1)) as Hf2.
  rewrite graph_getitem_deps in Hrun.
  set (st2 := DfsState _ _ _) in *.
  assert (∀ u, state_of st2 u = if decide (u = v) then GRAY else state_of st u) as Hst2.
  { intros u. change (state_of st2 u) with (state_of st1 u).
    unfold st1. by rewrite state_of_set_state. }
  assert (finished g0 st2 l) as Hfin2.
  { destruct Hfin as (Hb & Hnd & Hresp). split_and!; [|done|done].
    intros x. rewrite <- Hb. unfold black. rewrite Hst2.
    destruct (decide (x = v)) as [->|Hne]; [|done].
    unfold white in Hw. rewrite Hw. done. }
  destruct (dfs_neighbors _ _ _ st2) as [[b3 st3]|] eqn:Hloop; [|done].
  assert (∀ n, n ∈ graph_get (dfs_graph st1) v → edge g0 v n) as Hns.
  { intros n Hn. unfold edge. by rewrite <- (frame_edges _ _ _ Hf1 v). }
  assert (cycle_edges st3 = ∅) as Hc3.
  { destruct b3; injection Hrun as <- <-; done. }
  destruct (dfs_neighbors_clean fuel v IH _ _ _ _ l Hloop Hns)
    as (l3 & (-> & Hfin3 & Hsub3 & Hkeep3 & Hg3) & Hn3); [apply Hf2|done|done|].
  injection Hrun as <- <-.
  assert (state_of st3 v = GRAY) as Hv3.
  { rewrite Hkeep3; [by rewrite Hst2, decide_True|].
    unfold white. by rewrite Hst2, decide_True. }
  destruct Hfin3 as (Hb3 & Hnd3 & Hresp3).
  assert (v ∉ l3) as Hfresh.
  { intros Hin%Hb3. unfold black in Hin. congruence. }
  exists (l3 ++ [v]). split; [split_and!|].
  - done.
  - split_and!.
    + intros x. unfold black. rewrite state_of_set_state, elem_of_app, list_elem_of_singleton.
      destruct (decide (x = v)) as [->|Hne]; [tauto|].
      change (black st3 x ↔ x ∈ l3 ∨ x = v). rewrite Hb3. tauto.
    + apply NoDup_app. repeat split; [done| |apply NoDup_singleton].
      intros x Hx ->%list_elem_of_singleton. done.
    + intros a b [Ha| ->%list_elem_of_singleton]%elem_of_app Hab.
      * by apply precedes_snoc, Hresp3.
      * apply precedes_last, Hn3. unfold edge in Hab.
        by rewrite (frame_edges _ _ _ Hf1 v).
  - intros x Hx. apply elem_of_app. left. auto.
  - intros x Hx. rewrite state_of_set_state.
    destruct (decide (x = v)) as [->|Hne]; [by destruct Hx|].
    rewrite Hkeep3; [by rewrite Hst2, decide_False|].
    unfold white. by rewrite Hst2, decide_False.
  - intros x. unfold gray. rewrite state_of_set_state.
    destruct (decide (x = v)) as [->|Hne]; [done|].
    intros Hx%Hg3. unfold gray in Hx. by rewrite Hst2, decide_False in Hx.
  - apply elem_of_app. right. by left.
Qed.

Lemma dfs_roots_clean fuel roots :
  ∀ st st' l,
    dfs_roots fuel roots st = Some st' → same_edges g0 st → cycle_edges st' = ∅ →
    (∀ u, ¬ gray st u) → finished g0 st l →
    ∃ l', finished g0 st' l' ∧ (∀ x, x ∈ l → x ∈ l') ∧ ∀ r, r ∈ roots → r ∈ l'.
Proof.
  induction roots as [|r roots IH]; intros st st' l Hrun HE Hc Hgray Hfin; simpl in Hrun.
  - injection Hrun as <-. exists l. split_and!; [done|done|].
    intros r Hr. by apply elem_of_nil in Hr.
  - destruct (state_of st r) eqn:Hcol.
    + destruct (dfs fuel r st) as [[b st1]|] eqn:Hdfs; [|done].
      destruct (dfs_run g0 _ _ _ _ _ Hdfs HE) as [Hf1 _].
      pose proof (dfs_roots_run g0 _ _ _ _ Hrun (frame_edges _ _ _ Hf1)) as Hf2.
      destruct (dfs_clean_run fuel _ _ _ _ l Hdfs HE) as (l1 & (_ & Hfin1 & Hsub1 & _ & Hg1) & Hr1);
        [|done|done|].
      { pose proof (frame_cycle_mono _ _ _ Hf2). set_solver. }
      destruct (IH _ _ l1 Hrun) as (l2 & Hfin2 & Hsub2 & Hr2); [apply Hf1|done| |done|].
      { intros u Hu%Hg1. by destruct (Hgray u). }
      exists l2. split_and!; [done|auto|].
      intros r' [->|Hr']%elem_of_cons; auto.
    + by destruct (Hgray r).
    + destruct (IH _ _ l Hrun HE Hc Hgray Hfin) as (l2 & Hfin2 & Hsub2 & Hr2).
      exists l2. split_and!; [done|done|].
      intros r' [->|Hr']%elem_of_cons; [|auto]. apply Hsub2, Hfin. done.
Qed.
End dfs_clean.

(** If the search records no edge, the graph has no cycle. *)
Lemma no_cycle_edges_acyclic (g : list (string * list string)) st :
  dfs_roots (S (length (vertices g []))) (g.*1) (DfsState g ∅ ∅) = Some st →
  cycle_edges st = ∅ → acyclic g.
Proof.
  intros Hrun Hc.
  destruct (dfs_roots_clean g _ _ _ _ [] Hrun (same_edges_init g) Hc)
    as (l & (Hb & Hnd & Hresp) & _ & Hroots).
  - intros u. unfold gray, state_of. simpl. by rewrite lookup_empty.
  - split_and!; [|apply NoDup_nil_2|by intros a b ?%elem_of_nil].
    intros x. unfold black, state_of. simpl. rewrite lookup_empty. simpl.
    split; [done|by intros ?%elem_of_nil].
  - apply (acyclic_rank (position l)). intros a b Hab.
    apply precedes_position; [done|]. apply Hresp; [|done].
    apply Hroots. by apply (graph_get_key g a b).
Qed.

(** X6: the cycle breaker leaves a graph without cycles as it is: the
    call returns, and the graph after it has the edges it had before. *)
Theorem cycle_breaker_keeps_acyclic_graph (g : list (string * list string)) :
  acyclic g →
  ∃ g', detect_and_break_cycles g = Some g' ∧ ∀ a b, edge g' a b ↔ edge g a b.
Proof. apply detect_and_break_cycles_acyclic. Qed.

Lemma cycle_breaker_keeps_acyclic_graph_witness :
  ∃ g', detect_and_break_cycles [("C1", ["A1"; "B1"]); ("D1", ["C1"; "A1"])] = Some g'
    ∧ ∀ a b, edge g' a b ↔ edge [("C1", ["A1"; "B1"]); ("D1", ["C1"; "A1"])] a b.
Proof.
  apply cycle_breaker_keeps_acyclic_graph.
  apply (acyclic_ranked (position ["A1"; "B1"; "C1"; "D1"])). reflexivity.
Defined.

(** X7: the cycle breaker removes at least one edge of every graph that
    has a cycle. *)
Theorem cycle_breaker_removes_an_edge (g : list (string * list string)) :
  ¬ acyclic g →
  ∃ g' a b, detect_and_break_cycles g = Some g' ∧ edge g a b ∧ ¬ edge g' a b.
Proof.
  intros Hcyc.
  destruct (detect_and_break_cycles_spec g) as (st & g' & Hrun & _ & Hg' & Hedges).
  destruct (decide (cycle_edges st = ∅)) as [Hc|Hc].
  - destruct Hcyc. by apply (no_cycle_edges_acyclic g st).
  - apply set_choose_L in Hc as [[a b] Hab].
    exists g', a, b. split_and!; [done|by apply (cycle_edges_are_edges g st)|].
    intros Hin%Hedges. by destruct Hin.
Qed.

Lemma cycle_breaker_removes_an_edge_witness :
  ∃ g' a b,
    detect_and_break_cycles [("A1", ["B1"]); ("B1", ["C1"]); ("C1", ["A1"])] = Some g'
    ∧ edge [("A1", ["B1"]); ("B1", ["C1"]); ("C1", ["A1"])] a b ∧ ¬ edge g' a b.
Proof.
  apply cycle_breaker_removes_an_edge.
  intros Hac. apply (Hac "A1").
  eapply tc_l; [|eapply tc_l; [|apply tc_once]]; unfold edge; simpl.
  - by left.
  - by left.
  - by left.
Defined.

(** ** Dicts *)

Lemma dict_get_set {V : Type} (d : list (string * V)) k v k' :
  dict_get (dict_set d k v) k' = if decide (k' = k) then Some v else dict_get d k'.
Proof.
  induction d as [|[k0 v0] d IH]; simpl.
  - destruct (decide (k = k')) as [->|Hne].
    + by rewrite decide_True.
    + by rewrite decide_False by congruence.
  - destruct (decide (k0 = k)) as [->|Hne]; simpl.
    + destruct (decide (k = k')) as [->|Hne']; [by rewrite decide_True|].
      by rewrite decide_False by congruence.
    + destruct (decide (k0 = k')) as [->|Hne'].
      * by rewrite decide_False.
      * apply IH.
Qed.

Lemma dict_get_key {V : Type} (d : list (string * V)) k :
  k ∈ d.*1 → is_Some (dict_get d k).
Proof.
  induction d as [|[k0 v0] d IH]; simpl; [by intros ?%elem_of_nil|].
  destruct (decide (k0 = k)); [done|].
  intros [?|?]%elem_of_cons; [congruence|auto].
Qed.

Lemma dict_get_elem {V : Type} (d : list (string * V)) k v :
  dict_get d k = Some v → (k, v) ∈ d.
Proof.
  induction d as [|[k0 v0] d IH]; simpl; [done|].
  destruct (decide (k0 = k)) as [->|Hne].
  - intros [= ->]. by left.
  - intros H. right. auto.
Qed.

Lemma dict_set_elem {V : Type} (d : list (string * V)) k v k' v' :
  (k', v') ∈ dict_set d k v → (k', v') = (k, v) ∨ (k', v') ∈ d.
Proof.
  induction d as [|[k0 v0] d IH]; simpl.
  - intros ?%list_elem_of_singleton. by left.
  - destruct (decide (k0 = k)) as [->|Hne].
    + intros [?|?]%elem_of_cons; [by left|right; by right].
    + intros [->|Hin]%elem_of_cons; [right; by left|].
      destruct (IH Hin); [by left|right; by right].
Qed.

Lemma dict_set_NoDup {V : Type} (d : list (string * V)) k v :
  NoDup d.*1 → NoDup (dict_set d k v).*1.
Proof.
  induction d as [|[k0 v0] d IH]; simpl; intros Hnd.
  - apply NoDup_singleton.
  - apply NoDup_cons in Hnd as [Hk0 Hnd].
    destruct (decide (k0 = k)) as [->|Hne]; simpl.
    + by apply NoDup_cons.
    + apply NoDup_cons. split; [|auto].
      rewrite dict_set_keys. intros [?|?]; [congruence|done].
Qed.

Lemma zero_defaults_get (vars : list string) :
  ∀ (cells : list (string * list ascii)) k,
    dict_get (foldl (λ cells var, dict_set cells var (declaration var (txt "0"))) cells vars) k
    = if decide (k ∈ vars) then Some (declaration k (txt "0")) else dict_get cells k.
Proof.
  induction vars as [|v vars IH]; intros cells k; cbn [foldl].
  - rewrite decide_False; [done|]. by intros ?%elem_of_nil.
  - rewrite IH. destruct (decide (k ∈ vars)) as [Hin|Hnin].
    + rewrite decide_True; [done|]. by right.
    + rewrite dict_get_set. destruct (decide (k = v)) as [->|Hne].
      * rewrite decide_True; [done|]. by left.
      * rewrite decide_False; [done|]. by intros [?|?]%elem_of_cons.
Qed.

Lemma zero_defaults_NoDup (vars : list string) :
  ∀ (cells : list (string * list ascii)),
    NoDup cells.*1 →
    NoDup (foldl (λ cells var, dict_set cells var (declaration var (txt "0"))) cells vars).*1.
Proof.
  induction vars as [|v vars IH]; intros cells Hnd; simpl; [done|].
  apply IH. by apply dict_set_NoDup.
Qed.

Lemma zero_defaults_elem (vars : list string) :
  ∀ (cells : list (string * list ascii)) k line,
    (k, line) ∈ foldl (λ cells var, dict_set cells var (declaration var (txt "0"))) cells vars →
    line = declaration k (txt "0") ∨ (k, line) ∈ cells.
Proof.
  induction vars as [|v vars IH]; intros cells k line; simpl; [by right|].
  intros [?|[[= -> ->]|?]%dict_set_elem]%IH; auto.
Qed.

(** ** The graph the extractor builds *)

Lemma graph_add_keys (g : list (string * list string)) k x k' :
  k' ∈ (graph_add g k x).*1 ↔ k' = k ∨ k' ∈ g.*1.
Proof.
  induction g as [|[k0 d0] g IH]; simpl.
  - rewrite list_elem_of_singleton, elem_of_nil. tauto.
  - destruct (decide (k0 = k)) as [->|Hne]; simpl.
    + rewrite !elem_of_cons. tauto.
    + rewrite !elem_of_cons, IH. tauto.
Qed.

Lemma graph_add_wf (g : list (string * list string)) k x :
  graph_wf g → graph_wf (graph_add g k x).
Proof.
  intros [Hkeys Hsets]. induction g as [|[k0 d0] g IH]; simpl.
  - split; [apply NoDup_singleton|].
    intros k' deps [= -> ->]%list_elem_of_singleton. apply NoDup_singleton.
  - simpl in Hkeys. apply NoDup_cons in Hkeys as [Hk0 Hkeys].
    assert (NoDup d0) as Hd0 by (apply (Hsets k0); by left).
    destruct (decide (k0 = k)) as [->|Hne].
    + split; [by apply NoDup_cons|].
      intros k' deps [[= -> ->]|Hin]%elem_of_cons; [|apply (Hsets k'); by right].
      destruct (decide (x ∈ d0)); [done|].
      apply NoDup_app. repeat split; [done| |apply NoDup_singleton].
      intros y Hy ->%list_elem_of_singleton. done.
    + destruct IH as [IHkeys IHsets]; [done|intros k' deps Hin; apply (Hsets k'); by right|].
      split.
      * simpl. apply NoDup_cons. split; [|done].
        rewrite graph_add_keys. intros [?|?]; [congruence|done].
      * intros k' deps [[= -> ->]|Hin]%elem_of_cons; [done|]. by apply (IHsets k').
Qed.

Lemma graph_add_all_wf (refs : list string) :
  ∀ (g : list (string * list string)) k,
    graph_wf g → graph_wf (foldl (λ g r, graph_add g k r) g refs).
Proof.
  induction refs as [|r refs IH]; intros g k Hwf; simpl; [done|].
  apply IH. by apply graph_add_wf.
Qed.

(** ** What the extractor keeps true *)

Section extractor_wf.
Variable float_repr : Z → Z → list ascii.

Lemma extract_cell_wf row_idx col_idx value st st' :
  extract_cell float_repr row_idx col_idx value st = Ok st' →
  extraction_wf st → extraction_wf st'.
Proof.
  unfold extract_cell. intros Hrun (Hnd & Hlines & Hfnd & Hf & Hg).
  destruct (get_column_letter (Z.of_nat col_idx)) as [col|]; [|done].
  rewrite result_bind_Ok in Hrun.
  set (cell_ref := string_of_list_ascii _) in Hrun.
  destruct value as [shown|s|].
  - injection Hrun as <-. split_and!; simpl; try done.
    + by apply dict_set_NoDup.
    + intros k line [[= -> ->]|Hin]%dict_set_elem; [by eexists|by apply Hlines].
    + intros k f Hin. destruct (Hf k f Hin) as [Hk Hform]. split; [|done].
      apply dict_set_keys. by right.
  - destruct s as [|c formula]; [by injection Hrun as <-|].
    destruct (decide (c = "="%char)) as [->|Hc].
    + destruct (convert_to_js float_repr formula) as [js|]; [|done].
      rewrite result_bind_Ok in Hrun. injection Hrun as <-. split_and!; simpl.
      * by apply dict_set_NoDup.
      * intros k line [[= -> ->]|Hin]%dict_set_elem; [by eexists|by apply Hlines].
      * by apply dict_set_NoDup.
      * intros k f [[= -> ->]|Hin]%dict_set_elem.
        -- split; [apply dict_set_keys; by left|by eexists].
        -- destruct (Hf k f Hin) as [Hk Hform]. split; [|done].
           apply dict_set_keys. by right.
      * by apply graph_add_all_wf.
    + assert (st' = st) as ->; [|done].
      revert Hrun. clear -Hc. destruct c as [[] [] [] [] [] [] [] []]; try done; congruence.
  - by injection Hrun as <-.
Qed.

Lemma extract_row_wf row_idx row :
  ∀ col_idx st st',
    extract_row float_repr row_idx col_idx row st = Ok st' →
    extraction_wf st → extraction_wf st'.
Proof.
  induction row as [|value row IH]; intros col_idx st st'; simpl.
  - by intros [= <-].
  - destruct (extract_cell float_repr row_idx col_idx value st) as [st1|] eqn:Hcell; [|done].
    rewrite result_bind_Ok. intros Hrow Hinv.
    eapply IH; [done|]. by eapply extract_cell_wf.
Qed.

Lemma extract_rows_wf rows :
  ∀ row_idx st st',
    extract_rows float_repr row_idx rows st = Ok st' →
    extraction_wf st → extraction_wf st'.
Proof.
  induction rows as [|row rows IH]; intros row_idx st st'; simpl.
  - by intros [= <-].
  - destruct (extract_row float_repr row_idx 1 row st) as [st1|] eqn:Hrow; [|done].
    rewrite result_bind_Ok. intros Hrows Hinv.
    eapply IH; [done|]. by eapply extract_row_wf.
Qed.

Lemma extraction_wf_init : extraction_wf (Extraction [] [] [] ∅).
Proof.
  split_and!; simpl; try apply NoDup_nil_2; try (by intros ? ? ?%elem_of_nil).
  split; [apply NoDup_nil_2|by intros ? ? ?%elem_of_nil].
Qed.

Lemma extraction_inv_init : extraction_inv (Extraction [] [] [] ∅).
Proof. split; [by intros ? ? ?%elem_of_nil|by intros ? ?%elem_of_empty]. Qed.

(** Both ends of every edge of the graph are keys of the cell mapping. *)
Lemma extract_and_convert_complete (s : list (list cell_value)) cells g formulas :
  extract_and_convert_all_cells float_repr s = Ok (cells, g, formulas) →
  complete g cells.*1.
Proof.
  unfold extract_and_convert_all_cells.
  destruct (extract_rows float_repr 1 s _) as [st|] eqn:Hrows; [|done].
  rewrite result_bind_Ok. intros [= <- <- <-] a b (deps & Hin & Hb)%edge_elem.
  destruct (extract_rows_inv _ _ _ _ _ Hrows extraction_inv_init) as [Hg Hd].
  split.
  - apply zero_defaults_keys. right. eauto.
  - apply zero_defaults_keys.
    destruct (decide (b ∈ defined_cells st)) as [Hdef|Hundef]; [right; auto|left].
    unfold undefined_vars. apply list_elem_of_filter. split; [done|].
    apply elem_of_remove_dups, elem_of_app. right.
    apply list_elem_of_In, in_concat. exists deps.
    split; [|by apply list_elem_of_In].
    apply list_elem_of_In, list_elem_of_fmap. by exists (a, deps).
Qed.

(** X8: what the extractor returns is well formed: the cell mapping has
    no key twice and every line of it declares its own key; every
    formula kept belongs to a declared cell and begins with [=]; the
    graph has no key twice and no member twice in a set. *)
Theorem extractor_results_well_formed (s : list (list cell_value)) cells g formulas :
  extract_and_convert_all_cells float_repr s = Ok (cells, g, formulas) →
  NoDup cells.*1
  ∧ (∀ k line, (k, line) ∈ cells → ∃ value, line = declaration k value)
  ∧ NoDup formulas.*1
  ∧ (∀ k f, (k, f) ∈ formulas → k ∈ cells.*1 ∧ ∃ formula, f = "="%char :: formula)
  ∧ graph_wf g.
Proof.
  unfold extract_and_convert_all_cells.
  destruct (extract_rows float_repr 1 s _) as [st|] eqn:Hrows; [|done].
  rewrite result_bind_Ok. intros [= <- <- <-].
  destruct (extract_rows_wf _ _ _ _ Hrows extraction_wf_init) as (Hnd & Hlines & Hfnd & Hf & Hg).
  split_and!; try done.
  - by apply zero_defaults_NoDup.
  - intros k line [->|Hin]%zero_defaults_elem; [by eexists|by apply Hlines].
  - intros k f Hin. destruct (Hf k f Hin) as [Hk Hform]. split; [|done].
    apply zero_defaults_keys. by right.
Qed.

(** X9: the zero defaults: a cell that holds a number or a formula keeps
    its declaration, every other key of the cell mapping is declared
    with the value 0, and every cell in a value set of the dependency
    graph (a reference found in the text of a formula) is a key of the
    cell mapping. *)
Theorem zero_defaults_complete_the_mapping (s : list (list cell_value)) (st : extraction) :
  extract_rows float_repr 1 s (Extraction [] [] [] ∅) = Ok st →
  ∃ cells,
    extract_and_convert_all_cells float_repr s
    = Ok (cells, dependency_graph st, original_formulas st)
    ∧ (∀ k, k ∈ defined_cells st →
         is_Some (dict_get cells k) ∧ dict_get cells k = dict_get (all_cells st) k)
    ∧ (∀ k, k ∈ cells.*1 → k ∉ defined_cells st →
         dict_get cells k = Some (declaration k (txt "0")))
    ∧ (∀ a b, edge (dependency_graph st) a b → b ∈ cells.*1).
Proof.
  intros Hrows. unfold extract_and_convert_all_cells. rewrite Hrows, result_bind_Ok.
  eexists. split; [done|].
  destruct (extract_rows_inv _ _ _ _ _ Hrows extraction_inv_init) as [Hg Hd].
  split_and!.
  - intros k Hk. rewrite zero_defaults_get, decide_False.
    + split; [|done]. by apply dict_get_key, Hd.
    + unfold undefined_vars. rewrite list_elem_of_filter. tauto.
  - intros k [Hk|Hk]%zero_defaults_keys Hundef.
    + by rewrite zero_defaults_get, decide_True.
    + rewrite zero_defaults_get, decide_True; [done|].
      unfold undefined_vars. apply list_elem_of_filter. split; [done|].
      apply elem_of_remove_dups, elem_of_app. by left.
  - intros a b Hab.
    assert (extract_and_convert_all_cells float_repr s
            = Ok (foldl (λ cells var, dict_set cells var (declaration var (txt "0")))
                    (all_cells st) (undefined_vars st),
                  dependency_graph st, original_formulas st)) as Hrun
      by (unfold extract_and_convert_all_cells; by rewrite Hrows).
    by destruct (extract_and_convert_complete _ _ _ _ Hrun a b Hab).
Qed.
End extractor_wf.

Lemma extractor_results_well_formed_witness :
  NoDup [("A1", txt "var A1 = 5;"); ("B1", txt "var B1 = A1+C1;"); ("C1", txt "var C1 = 0;")].*1
  ∧ (∀ k line,
       (k, line) ∈ [("A1", txt "var A1 = 5;"); ("B1", txt "var B1 = A1+C1;");
                    ("C1", txt "var C1 = 0;")] →
       ∃ value, line = declaration k value)
  ∧ NoDup [("B1", txt "=A1+C1")].*1
  ∧ (∀ k f, (k, f) ∈ [("B1", txt "=A1+C1")] →
       k ∈ [("A1", txt "var A1 = 5;"); ("B1", txt "var B1 = A1+C1;");
            ("C1", txt "var C1 = 0;")].*1
       ∧ ∃ formula, f = "="%char :: formula)
  ∧ graph_wf [("B1", ["A1"; "C1"])].
Proof.
  apply (extractor_results_well_formed decimal_repr [[Number (txt "5"); Text (txt "=A1+C1")]]).
  reflexivity.
Defined.

Lemma zero_defaults_complete_the_mapping_witness :
  ∃ cells,
    extract_and_convert_all_cells decimal_repr [[Number (txt "5"); Text (txt "=A1+C1")]]
    = Ok (cells, [("B1", ["A1"; "C1"])], [("B1", txt "=A1+C1")])
    ∧ (∀ k, k ∈ ({["B1"]} ∪ ({["A1"]} ∪ ∅) : gset string) →
         is_Some (dict_get cells k)
         ∧ dict_get cells k
           = dict_get [("A1", txt "var A1 = 5;"); ("B1", txt "var B1 = A1+C1;")] k)
    ∧ (∀ k, k ∈ cells.*1 → k ∉ ({["B1"]} ∪ ({["A1"]} ∪ ∅) : gset string) →
         dict_get cells k = Some (declaration k (txt "0")))
    ∧ (∀ a b, edge [("B1", ["A1"; "C1"])] a b → b ∈ cells.*1).
Proof.
  exact (zero_defaults_complete_the_mapping decimal_repr
           [[Number (txt "5"); Text (txt "=A1+C1")]]
           (Extraction [("A1", txt "var A1 = 5;"); ("B1", txt "var B1 = A1+C1;")]
                       [("B1", ["A1"; "C1"])] [("B1", txt "=A1+C1")]
                       ({["B1"]} ∪ ({["A1"]} ∪ ∅)))
           eq_refl).
Defined.

(** ** The pipeline on a sheet without circular references *)

Lemma omap_all {A B : Type} (f : A → option B) (l : list A) :
  (∀ x, x ∈ l → is_Some (f x)) → Forall2 (λ x y, f x = Some y) l (omap f l).
Proof.
  induction l as [|x l IH]; intros Hf; simpl; [constructor|].
  destruct (Hf x) as [y Hy]; [by left|]. rewrite Hy.
  constructor; [done|]. apply IH. intros z Hz. apply Hf. by right.
Qed.

(** X10: a sheet whose dependency graph has no cycle is converted: the
    program has one line for every key of the cell mapping, the
    declaration of that cell, and the line of a cell comes after the
    lines of the cells in its value set of the dependency graph (the
    references found in the text of its formula). *)
Theorem convert_excel_to_js_acyclic float_repr (s : list (list cell_value)) cells g formulas :
  extract_and_convert_all_cells float_repr s = Ok (cells, g, formulas) →
  acyclic g →
  ∃ order lines,
    convert_excel_to_js float_repr s = Some (Ok (join [ascii_of_nat 10] lines, formulas))
    ∧ NoDup order ∧ (∀ c, c ∈ order ↔ c ∈ cells.*1)
    ∧ (∀ a b, edge g a b → precedes b a order)
    ∧ Forall2 (λ c line, dict_get cells c = Some line) order lines.
Proof.
  intros Hextract Hac.
  pose proof (extract_and_convert_complete _ _ _ _ _ Hextract) as Hc.
  destruct (detect_and_break_cycles_acyclic g Hac) as (g' & Hg' & Hedges).
  destruct (resolve_and_sort_acyclic g' cells.*1) as (st & Hsort & [_ Hnd Hresp] & Hin & Hnew).
  { apply (acyclic_subgraph g' g); [|done]. intros a b. by rewrite Hedges. }
  assert (∀ c, c ∈ sorted_nodes st ↔ c ∈ cells.*1) as Hmem.
  { intros c. split; [|apply Hin].
    intros Hx. destruct (Hnew c Hx) as (n & Hn & Hr).
    apply (complete_reach g' cells.*1 n); [|done|done].
    intros a b Hab. apply Hc. by apply Hedges. }
  exists (sorted_nodes st), (declaration_lines cells (sorted_nodes st)).
  split_and!; try done.
  - unfold convert_excel_to_js, break_and_sort, resolve_and_sort.
    by rewrite Hextract, Hg', Hsort.
  - intros a b Hab. apply Hresp; [|by apply Hedges]. apply Hin. by apply (Hc a b).
  - apply omap_all. intros c Hc'. by apply dict_get_key, Hmem.
Qed.

Lemma convert_excel_to_js_acyclic_witness :
  ∃ order lines,
    convert_excel_to_js decimal_repr [[Text (txt "=B1*2"); Text (txt "=C1+1"); Number (txt "3")]]
    = Some (Ok (join [ascii_of_nat 10] lines,
                [("A1", txt "=B1*2"); ("B1", txt "=C1+1")]))
    ∧ NoDup order
    ∧ (∀ c, c ∈ order
          ↔ c ∈ [("A1", txt "var A1 = B1*2;"); ("B1", txt "var B1 = C1+1;");
                 ("C1", txt "var C1 = 3;")].*1)
    ∧ (∀ a b, edge [("A1", ["B1"]); ("B1", ["C1"])] a b → precedes b a order)
    ∧ Forall2 (λ c line,
                 dict_get [("A1", txt "var A1 = B1*2;"); ("B1", txt "var B1 = C1+1;");
                           ("C1", txt "var C1 = 3;")] c = Some line) order lines.
Proof.
  apply convert_excel_to_js_acyclic.
  - reflexivity.
  - apply (acyclic_ranked (position ["C1"; "B1"; "A1"])). reflexivity.
Defined.

(** ** Reversing the graph *)

Lemma graph_get_add (g : list (string * list string)) k x a :
  graph_get (graph_add g k x) a
  = if decide (a = k)
    then (if decide (x ∈ graph_get g k) then graph_get g k else graph_get g k ++ [x])
    else graph_get g a.
Proof.
  unfold graph_get. induction g as [|[k0 d0] g IH]; simpl.
  - destruct (decide (k = a)) as [Hka|Hne]; destruct (decide (a = k)) as [Heq|Hne'];
      try congruence; simpl; [|done].
    by destruct (decide (x ∈ [])) as [?%elem_of_nil|].
  - destruct (decide (k0 = k)) as [Hk0|Hne]; simpl.
    + subst k0. simpl.
      destruct (decide (k = a)) as [Hka|Hne']; destruct (decide (a = k)) as [Heq|Hne''];
        try congruence; simpl.
      by destruct (decide (x ∈ d0)).
    + destruct (decide (k0 = a)) as [Hk0|Hne'].
      * subst k0. by destruct (decide (a = k)).
      * apply IH.
Qed.

Lemma edge_graph_add (g : list (string * list string)) k x a b :
  edge (graph_add g k x) a b ↔ edge g a b ∨ (a = k ∧ b = x).
Proof.
  unfold edge. rewrite graph_get_add. destruct (decide (a = k)) as [->|Hne].
  - destruct (decide (x ∈ graph_get g k)) as [Hin|Hnin].
    + split; [by left|]. by intros [?|[_ ->]].
    + rewrite elem_of_app, list_elem_of_singleton. tauto.
  - split; [by left|]. by intros [?|[? _]].
Qed.

Lemma edge_graph_add_all (deps : list string) :
  ∀ (rg : list (string * list string)) node a b,
    edge (foldl (λ rg dependent, graph_add rg dependent node) rg deps) a b
    ↔ edge rg a b ∨ (a ∈ deps ∧ b = node).
Proof.
  induction deps as [|d deps IH]; intros rg node a b; simpl.
  - split; [by left|]. by intros [?|[?%elem_of_nil _]].
  - rewrite IH, edge_graph_add, elem_of_cons. split.
    + intros [[?|[-> ->]]|[? ->]]; auto.
    + intros [?|[[->|?] ->]]; auto.
Qed.

Lemma edge_reverse_from (g : list (string * list string)) :
  ∀ (rg : list (string * list string)) a b,
    edge (foldl (λ reversed_graph item,
                   foldl (λ reversed_graph dependent, graph_add reversed_graph dependent item.1)
                         reversed_graph item.2) rg g) b a
    ↔ edge rg b a ∨ ∃ deps, (a, deps) ∈ g ∧ b ∈ deps.
Proof.
  induction g as [|[k deps] g IH]; intros rg a b; simpl.
  - split; [by left|]. by intros [?|(? & ?%elem_of_nil & _)].
  - rewrite IH, edge_graph_add_all. split.
    + intros [[?|[Hb ->]]|(deps' & Hin & Hb)]; [by left|right..].
      * exists deps. split; [by left|done].
      * exists deps'. split; [by right|done].
    + intros [?|(deps' & [[= -> ->]|Hin]%elem_of_cons & Hb)]; [by left; left|by left; right|].
      right. by exists deps'.
Qed.

Lemma graph_lookup_NoDup (g : list (string * list string)) k deps :
  NoDup g.*1 → (k, deps) ∈ g → graph_lookup g k = Some deps.
Proof.
  induction g as [|[k0 d0] g IH]; simpl; [by intros _ ?%elem_of_nil|].
  intros [Hk0 Hnd]%NoDup_cons [[= -> ->]|Hin]%elem_of_cons.
  - by rewrite decide_True.
  - rewrite decide_False; [auto|]. intros ->. apply Hk0.
    apply list_elem_of_fmap. by exists (k, deps).
Qed.

Lemma edge_items (g : list (string * list string)) a b :
  NoDup g.*1 → (edge g a b ↔ ∃ deps, (a, deps) ∈ g ∧ b ∈ deps).
Proof.
  intros Hnd. split; [apply edge_elem|].
  intros (deps & Hin & Hb). unfold edge, graph_get.
  by rewrite (graph_lookup_NoDup g a deps).
Qed.

(** The reversed graph has the edge b→a exactly when the graph has
    a→b. *)
Lemma reverse_graph_edge (g : list (string * list string)) a b :
  NoDup g.*1 → (edge (reverse_graph g) b a ↔ edge g a b).
Proof.
  intros Hnd. unfold reverse_graph. rewrite edge_reverse_from, (edge_items g a b Hnd).
  split; [|by right]. intros [Hin|?]; [|done]. by apply elem_of_nil in Hin.
Qed.

Lemma graph_add_nonempty (g : list (string * list string)) k x :
  (∀ k' deps, (k', deps) ∈ g → deps ≠ []) →
  ∀ k' deps, (k', deps) ∈ graph_add g k x → deps ≠ [].
Proof.
  induction g as [|[k0 d0] g IH]; simpl; intros Hg k' deps.
  - by intros [= _ ->]%list_elem_of_singleton.
  - destruct (decide (k0 = k)) as [->|Hne].
    + intros [[= -> ->]|Hin]%elem_of_cons; [|apply (Hg k'); by right].
      destruct (decide (x ∈ d0)); [apply (Hg k); by left|]. by destruct d0.
    + intros [[= -> ->]|Hin]%elem_of_cons; [apply (Hg k0); by left|].
      apply (IH (λ k' deps H, Hg k' deps (proj2 (elem_of_cons _ _ _) (or_intror H))) k' deps Hin).
Qed.

Lemma reverse_graph_inv (g : list (string * list string)) :
  ∀ rg : list (string * list string),
    graph_wf rg → (∀ k deps, (k, deps) ∈ rg → deps ≠ []) →
    let rg' := foldl (λ reversed_graph item,
                        foldl (λ reversed_graph dependent,
                                 graph_add reversed_graph dependent item.1)
                              reversed_graph item.2) rg g in
    graph_wf rg' ∧ ∀ k deps, (k, deps) ∈ rg' → deps ≠ [].
Proof.
  induction g as [|[node deps] g IH]; intros rg Hwf Hne; simpl; [done|].
  assert (graph_wf (foldl (λ rg dependent, graph_add rg dependent node) rg deps)
          ∧ ∀ k ds, (k, ds) ∈ foldl (λ rg dependent, graph_add rg dependent node) rg deps
                    → ds ≠ []) as [Hwf' Hne'].
  { clear IH. revert rg Hwf Hne.
    induction deps as [|d deps IHd]; intros rg Hwf Hne; simpl; [done|].
    apply IHd; [by apply graph_add_wf|by apply graph_add_nonempty]. }
  by apply IH.
Qed.

Lemma reverse_graph_wf (g : list (string * list string)) :
  graph_wf (reverse_graph g) ∧ ∀ k deps, (k, deps) ∈ reverse_graph g → deps ≠ [].
Proof.
  apply (reverse_graph_inv g []).
  - split; [apply NoDup_nil_2|by intros ? ? ?%elem_of_nil].
  - by intros ? ? ?%elem_of_nil.
Qed.

(** X11: [reverse_graph] turns every edge round and adds none: the
    reversed graph has the edge b→a exactly when the graph has a→b. *)
Theorem reverse_graph_reverses (g : list (string * list string)) :
  NoDup g.*1 → ∀ a b, edge (reverse_graph g) b a ↔ edge g a b.
Proof. intros Hnd a b. by apply reverse_graph_edge. Qed.

Lemma reverse_graph_reverses_witness :
  edge (reverse_graph [("C1", ["A1"; "B1"]); ("D1", ["A1"])]) "A1" "D1"
  ↔ edge [("C1", ["A1"; "B1"]); ("D1", ["A1"])] "D1" "A1".
Proof.
  apply reverse_graph_reverses.
  apply NoDup_cons. split; [by intros [= ?]%list_elem_of_singleton|apply NoDup_singleton].
Defined.

(** X12: the keys of the reversed graph are the cells that some cell
    references, each once and each with a set that is not empty; a cell
    that no cell references is no key of it. *)
Theorem reverse_graph_keys (g : list (string * list string)) :
  NoDup g.*1 →
  graph_wf (reverse_graph g)
  ∧ (∀ k deps, (k, deps) ∈ reverse_graph g → deps ≠ [])
  ∧ (∀ k, k ∈ (reverse_graph g).*1 ↔ ∃ a, edge g a k).
Proof.
  intros Hnd. destruct (reverse_graph_wf g) as [Hwf Hne]. split_and!; [done|done|].
  intros k. split.
  - intros ((k' & deps) & -> & Hin)%list_elem_of_fmap. simpl.
    destruct deps as [|a ds]; [by destruct (Hne k' [])|].
    exists a. apply reverse_graph_edge; [done|].
    apply edge_items; [apply Hwf|]. exists (a :: ds). split; [done|by left].
  - intros (a & Ha). apply reverse_graph_edge in Ha; [|done].
    by apply (graph_get_key _ k a).
Qed.

Lemma reverse_graph_keys_witness :
  graph_wf (reverse_graph [("C1", ["A1"; "B1"]); ("D1", ["A1"])])
  ∧ (∀ k deps, (k, deps) ∈ reverse_graph [("C1", ["A1"; "B1"]); ("D1", ["A1"])] → deps ≠ [])
  ∧ (∀ k, k ∈ (reverse_graph [("C1", ["A1"; "B1"]); ("D1", ["A1"])]).*1
          ↔ ∃ a, edge [("C1", ["A1"; "B1"]); ("D1", ["A1"])] a k).
Proof.
  apply reverse_graph_keys.
  apply NoDup_cons. split; [by intros [= ?]%list_elem_of_singleton|apply NoDup_singleton].
Defined.

(** X13: reversing twice gives back the edges of the graph. *)
Theorem reverse_graph_twice (g : list (string * list string)) :
  NoDup g.*1 → ∀ a b, edge (reverse_graph (reverse_graph g)) a b ↔ edge g a b.
Proof.
  intros Hnd a b. rewrite reverse_graph_edge by apply reverse_graph_wf.
  by apply reverse_graph_edge.
Qed.

Lemma reverse_graph_twice_witness :
  edge (reverse_graph (reverse_graph [("C1", ["A1"; "B1"]); ("D1", ["A1"])])) "C1" "B1"
  ↔ edge [("C1", ["A1"; "B1"]); ("D1", ["A1"])] "C1" "B1".
Proof.
  apply reverse_graph_twice.
  apply NoDup_cons. split; [by intros [= ?]%list_elem_of_singleton|apply NoDup_singleton].
Defined.

(** ** The dependency tree *)

Section build_tree_props.
Context {L : Type}.
Variable formatter : string → L.
Variable g : list (string * list string).

Lemma build_branches_post fuel (IH : build_tree_spec formatter g fuel) neighbors :
  ∀ st r,
    build_branches formatter (build_tree formatter fuel g) neighbors st = Some r →
    ∃ branches lines,
      r = Done (branches, Walk (visited st) (printed st ++ lines))
      ∧ tree_label <$> branches = formatter <$> neighbors.
Proof.
  induction neighbors as [|n ns IHn]; intros st r Hrun; simpl in Hrun.
  - injection Hrun as <-. exists [], []. rewrite app_nil_r. by destruct st.
  - destruct (build_tree formatter fuel g n st) as [r1|] eqn:Hn; [|done].
    destruct (IH _ _ _ Hn) as (children & lines1 & -> & _).
    destruct (build_branches _ _ ns _) as [r2|] eqn:Hns; [|done].
    destruct (IHn _ _ Hns) as (branches & lines2 & -> & Hlabels). simpl in *.
    injection Hrun as <-. exists (Tree (formatter n) children :: branches), (lines1 ++ lines2).
    rewrite app_assoc. split; [done|]. rewrite !fmap_cons. by f_equal.
Qed.

(** A call that returns has not raised, has restored [visited], and has
    only added lines to what is printed. *)
Lemma build_tree_returns_post fuel : build_tree_spec formatter g fuel.
Proof.
  induction fuel as [|fuel IH]; intros node st r Hrun; [done|].
  simpl in Hrun. destruct (decide (node ∈ visited st)) as [Hin|Hnin].
  - injection Hrun as <-. exists [], [circular_warning node]. by split_and!.
  - destruct (build_branches _ _ _ _) as [r1|] eqn:Hloop; [|done].
    destruct (build_branches_post fuel IH _ _ _ Hloop) as (branches & lines & -> & Hlabels).
    simpl in *. rewrite decide_True in Hrun by set_solver.
    injection Hrun as <-. exists branches, lines. split_and!; [|done|done].
    do 3 f_equal. apply set_eq. intros x.
    rewrite elem_of_difference, elem_of_union, elem_of_singleton.
    split; [tauto|]. intros Hx. split; [by right|]. by intros ->.
Qed.

Section fuel.
Variable V : list string.
Hypothesis V_closed : ∀ a b, edge g a b → b ∈ V.

Lemma build_branches_fuel_enough fuel
    (IH : ∀ node st, node ∈ V → unvisited_count V st < fuel →
            is_Some (build_tree formatter fuel g node st)) neighbors :
  ∀ st, (∀ n, n ∈ neighbors → n ∈ V) → unvisited_count V st < fuel →
    is_Some (build_branches formatter (build_tree formatter fuel g) neighbors st).
Proof.
  induction neighbors as [|n ns IHn]; intros st Hns Hfuel; simpl; [done|].
  destruct (IH n st) as [r1 Hn]; [apply Hns; by left|done|]. rewrite Hn.
  destruct (build_tree_returns_post fuel _ _ _ Hn) as (children & lines1 & -> & _).
  destruct (IHn (Walk (visited st) (printed st ++ lines1))) as [r2 Hr2];
    [intros; apply Hns; by right|done|].
  rewrite Hr2.
  by destruct (build_branches_post fuel (build_tree_returns_post fuel) _ _ _ Hr2)
    as (branches & lines2 & -> & _).
Qed.

Lemma build_tree_fuel_enough fuel node st :
  node ∈ V → unvisited_count V st < fuel → is_Some (build_tree formatter fuel g node st).
Proof.
  revert node st. induction fuel as [|fuel IH]; intros node st HV Hfuel; [lia|].
  simpl. destruct (decide (node ∈ visited st)) as [Hin|Hnin]; [done|].
  set (st1 := Walk _ _).
  assert (unvisited_count V st1 < unvisited_count V st) as Hdec.
  { apply (filter_length_lt _ _ _ node); [|done|done|].
    - intros x _ Hx. unfold unvisited, st1 in *. simpl in Hx. set_solver.
    - unfold unvisited, st1. simpl. set_solver. }
  destruct (build_branches_fuel_enough fuel IH (graph_get g node) st1) as [r1 Hloop].
  { intros n Hn. by apply (V_closed node). }
  { lia. }
  rewrite Hloop.
  destruct (build_branches_post fuel (build_tree_returns_post fuel) _ _ _ Hloop)
    as (branches & lines & -> & _).
  simpl. by rewrite decide_True by set_solver.
Qed.
End fuel.

(** *** Warnings and cycles *)

Lemma build_branches_warnings fuel start vertex neighbors
    (IH : ∀ node st r,
            build_tree formatter fuel g node st = Some r →
            rtc (edge g) start node → (∀ u, u ∈ visited st → tc (edge g) u node) →
            ∃ branches lines,
              r = Done (branches, Walk (visited st) (printed st ++ lines))
              ∧ Forall (warns_of_cycle g start) lines) :
  ∀ st r,
    build_branches formatter (build_tree formatter fuel g) neighbors st = Some r →
    rtc (edge g) start vertex → (∀ n, n ∈ neighbors → edge g vertex n) →
    (∀ u, u ∈ visited st → rtc (edge g) u vertex) →
    ∃ branches lines,
      r = Done (branches, Walk (visited st) (printed st ++ lines))
      ∧ Forall (warns_of_cycle g start) lines.
Proof.
  induction neighbors as [|n ns IHn]; intros st r Hrun Hstart Hns Hstack; simpl in Hrun.
  - injection Hrun as <-. exists [], []. rewrite app_nil_r. by destruct st.
  - assert (edge g vertex n) as Hn by (apply Hns; by left).
    destruct (build_tree formatter fuel g n st) as [r1|] eqn:Hcall; [|done].
    destruct (IH _ _ _ Hcall) as (children & lines1 & -> & Hw1).
    { by eapply rtc_r. }
    { intros u Hu. eapply tc_rtc_l; [by apply Hstack|by apply tc_once]. }
    destruct (build_branches _ _ ns _) as [r2|] eqn:Hrest; [|done].
    destruct (IHn _ _ Hrest Hstart) as (branches & lines2 & -> & Hw2);
      [intros; apply Hns; by right|done|].
    simpl in *. injection Hrun as <-. eexists _, (lines1 ++ lines2).
    rewrite app_assoc. split; [done|]. by apply Forall_app.
Qed.

Lemma build_tree_warnings fuel start :
  ∀ node st r,
    build_tree formatter fuel g node st = Some r →
    rtc (edge g) start node → (∀ u, u ∈ visited st → tc (edge g) u node) →
    ∃ branches lines,
      r = Done (branches, Walk (visited st) (printed st ++ lines))
      ∧ Forall (warns_of_cycle g start) lines.
Proof.
  induction fuel as [|fuel IH]; intros node st r Hrun Hstart Hstack; [done|].
  pose proof (build_tree_returns_post (S fuel) _ _ _ Hrun) as (branches0 & lines0 & Hr0 & _).
  simpl in Hrun. destruct (decide (node ∈ visited st)) as [Hin|Hnin].
  - injection Hrun as <-. exists [], [circular_warning node]. split; [done|].
    constructor; [|done]. exists node. split_and!; [done|done|by apply Hstack].
  - destruct (build_branches _ _ _ _) as [r1|] eqn:Hloop; [|done].
    destruct (build_branches_warnings fuel start node _ IH _ _ Hloop Hstart)
      as (branches & lines & -> & Hw); [done| |].
    { simpl. intros u [->%elem_of_singleton|Hu]%elem_of_union; [done|].
      by apply tc_rtc, Hstack. }
    simpl in *. rewrite decide_True in Hrun by set_solver.
    injection Hrun as <-. rewrite Hr0. exists branches0, lines0. split; [done|].
    injection Hr0 as _ _ Heq. by apply app_inv_head in Heq as <-.
Qed.

Lemma not_elem_of_path (y node : string) (vis : gset string) :
  y ∉ {[node]} ∪ vis → (y ∉ vis) ∧ y ≠ node.
Proof.
  intros Hy. split.
  - intros Hin. apply Hy, elem_of_union. by right.
  - intros ->. apply Hy, elem_of_union. left. by apply elem_of_singleton.
Qed.

(** A call that prints nothing has met no cell twice on a path. *)
Lemma build_branches_silent fuel neighbors
    (IH : ∀ node st branches,
            build_tree formatter fuel g node st = Some (Done (branches, st)) →
            (node ∉ visited st)
            ∧ (∀ y, tc (edge g) node y → (y ∉ visited st) ∧ y ≠ node)
            ∧ (∀ x, rtc (edge g) node x → ¬ tc (edge g) x x)) :
  ∀ st branches,
    build_branches formatter (build_tree formatter fuel g) neighbors st
    = Some (Done (branches, st)) →
    ∀ n, n ∈ neighbors →
      (n ∉ visited st)
      ∧ (∀ y, tc (edge g) n y → (y ∉ visited st) ∧ y ≠ n)
      ∧ (∀ x, rtc (edge g) n x → ¬ tc (edge g) x x).
Proof.
  induction neighbors as [|n ns IHn]; intros [vis pr] branches Hrun n' Hn'; simpl in Hrun;
    [by apply elem_of_nil in Hn'|].
  destruct (build_tree formatter fuel g n _) as [r1|] eqn:Hcall; [|done].
  destruct (build_tree_returns_post fuel _ _ _ Hcall) as (children & lines1 & -> & _).
  destruct (build_branches _ _ ns _) as [r2|] eqn:Hrest; [|done].
  destruct (build_branches_post fuel (build_tree_returns_post fuel) _ _ _ Hrest)
    as (bs & lines2 & -> & _).
  simpl in *. injection Hrun as _ Hpr.
  assert (lines1 = [] ∧ lines2 = []) as [-> ->].
  { rewrite <- app_assoc in Hpr. rewrite <- (app_nil_r pr) in Hpr at 2.
    apply app_inv_head in Hpr. by apply app_eq_nil in Hpr. }
  rewrite app_nil_r in Hcall. rewrite !app_nil_r in Hrest.
  apply elem_of_cons in Hn' as [->|Hn'].
  - by apply (IH _ _ _ Hcall).
  - by apply (IHn _ _ Hrest).
Qed.

Lemma build_tree_silent fuel :
  ∀ node st branches,
    build_tree formatter fuel g node st = Some (Done (branches, st)) →
    (node ∉ visited st)
    ∧ (∀ y, tc (edge g) node y → (y ∉ visited st) ∧ y ≠ node)
    ∧ (∀ x, rtc (edge g) node x → ¬ tc (edge g) x x).
Proof.
  induction fuel as [|fuel IH]; intros node [vis pr] branches Hrun; [done|].
  simpl in Hrun. destruct (decide (node ∈ vis)) as [Hin|Hnin].
  { exfalso. injection Hrun as _ Hpr. rewrite <- (app_nil_r pr) in Hpr at 2.
    by apply app_inv_head in Hpr. }
  destruct (build_branches _ _ _ _) as [r1|] eqn:Hloop; [|done].
  destruct (build_branches_post fuel (build_tree_returns_post fuel) _ _ _ Hloop)
    as (bs & lines & -> & _).
  simpl in *.
  rewrite decide_True in Hrun by (apply elem_of_union; left; by apply elem_of_singleton).
  injection Hrun as _ _ Hpr.
  assert (lines = []) as ->.
  { rewrite <- (app_nil_r pr) in Hpr at 2. by apply app_inv_head in Hpr. }
  rewrite app_nil_r in Hloop.
  pose proof (build_branches_silent fuel _ IH _ _ Hloop) as Hns. simpl in Hns.
  assert (∀ y, tc (edge g) node y → (y ∉ vis) ∧ y ≠ node) as Htc.
  { intros y Hy. inversion Hy as [? ? Hedge|? z ? Hedge Hzy]; subst.
    - destruct (Hns y Hedge) as (Hy1 & _). by apply not_elem_of_path.
    - destruct (Hns z Hedge) as (_ & Hz & _). destruct (Hz y Hzy) as [Hy1 _].
      by apply not_elem_of_path. }
  split_and!; [done|done|].
  intros x Hx. inversion Hx as [|? z ? Hedge Hzx]; subst.
  - intros Hcyc. by destruct (Htc x Hcyc).
  - destruct (Hns z Hedge) as (_ & _ & Hz). by apply Hz.
Qed.
End build_tree_props.

(** X14: [build_tree] returns on every graph, with or without cycles: it
    raises no KeyError, leaves [visited] as it found it, and adds to the
    parent one branch for each cell the node references, in the order of
    the graph; called on a node that is in [visited] it adds no branch
    and prints the warning. *)
Theorem build_tree_returns {L : Type} (formatter : string → L)
    (g : list (string * list string)) (node : string) (st : walk) (fuel : nat) :
  length (vertices g [node]) < fuel →
  ∃ branches lines,
    build_tree formatter fuel g node st
    = Some (Done (branches, Walk (visited st) (printed st ++ lines)))
    ∧ (node ∈ visited st → branches = [] ∧ lines = [circular_warning node])
    ∧ (node ∉ visited st → tree_label <$> branches = formatter <$> graph_get g node).
Proof.
  intros Hfuel.
  destruct (build_tree_fuel_enough formatter g (vertices g [node]) (graph_get_vertices g [node])
              fuel node st) as [r Hrun].
  - unfold vertices. apply elem_of_app. left. by left.
  - unfold unvisited_count. pose proof (length_filter (unvisited st) (vertices g [node])). lia.
  - destruct (build_tree_returns_post formatter g fuel _ _ _ Hrun)
      as (branches & lines & -> & H1 & H2).
    by exists branches, lines.
Qed.

Lemma build_tree_returns_witness :
  ∃ branches lines,
    build_tree (λ cell, cell) 7 [("A1", ["B1"; "C1"]); ("B1", ["A1"])] "A1" (Walk ∅ [])
    = Some (Done (branches, Walk (visited (Walk ∅ [])) (printed (Walk ∅ []) ++ lines)))
    ∧ ("A1" ∈ visited (Walk ∅ []) → branches = [] ∧ lines = [circular_warning "A1"])
    ∧ ("A1" ∉ visited (Walk ∅ []) →
       tree_label <$> branches
       = (λ cell, cell) <$> graph_get [("A1", ["B1"; "C1"]); ("B1", ["A1"])] "A1").
Proof.
  apply build_tree_returns. simpl. lia.
Defined.

(** X15: the warnings of [build_tree] and the cycles of the graph: every
    warning printed names a cell that the start reaches and that reaches
    itself, and if the start reaches such a cell, a warning is printed. *)
Theorem build_tree_warns_of_cycles {L : Type} (formatter : string → L)
    (g : list (string * list string)) (start : string) (fuel : nat) branches st' :
  build_tree formatter fuel g start (Walk ∅ []) = Some (Done (branches, st')) →
  Forall (warns_of_cycle g start) (printed st')
  ∧ ((∃ x, rtc (edge g) start x ∧ tc (edge g) x x) → printed st' ≠ []).
Proof.
  intros Hrun. split.
  - destruct (build_tree_warnings formatter g fuel start _ _ _ Hrun)
      as (bs & lines & [= _ ->] & Hw); [done|by intros u ?%elem_of_empty|]. done.
  - intros (x & Hx & Hcyc) Hnil.
    destruct (build_tree_returns_post formatter g fuel _ _ _ Hrun)
      as (bs & lines & [= -> ->] & _).
    simpl in Hnil. subst lines.
    by destruct (build_tree_silent formatter g fuel _ _ _ Hrun) as (_ & _ & Hno); apply (Hno x).
Qed.

Lemma build_tree_warns_of_cycles_witness :
  Forall (warns_of_cycle [("A1", ["B1"; "C1"]); ("B1", ["A1"])] "A1")
    [circular_warning "A1"]
  ∧ ((∃ x, rtc (edge [("A1", ["B1"; "C1"]); ("B1", ["A1"])]) "A1" x
           ∧ tc (edge [("A1", ["B1"; "C1"]); ("B1", ["A1"])]) x x)
     → [circular_warning "A1"] ≠ []).
Proof.
  apply (build_tree_warns_of_cycles (λ cell, cell) [("A1", ["B1"; "C1"]); ("B1", ["A1"])] "A1" 4
           [Tree "B1" [Tree "A1" []]; Tree "C1" []]
           (Walk ∅ [circular_warning "A1"])).
  vm_compute. reflexivity.
Defined.

(** ** The sorter with the queue *)

Lemma indegree_of_add d indegree n v :
  indegree_of (indegree_add d indegree n) v
  = if decide (v = n) then (indegree_of indegree n + d)%Z else indegree_of indegree v.
Proof.
  unfold indegree_of, indegree_add. destruct (decide (v = n)) as [->|Hne].
  - by rewrite lookup_insert_eq.
  - by rewrite lookup_insert_ne.
Qed.

Lemma indegree_of_add_all d (deps : list string) :
  ∀ indegree v, NoDup deps →
    indegree_of (foldl (indegree_add d) indegree deps) v
    = (indegree_of indegree v + if decide (v ∈ deps) then d else 0)%Z.
Proof.
  induction deps as [|n deps IH]; intros indegree v Hnd; simpl.
  - destruct (decide (v ∈ [])) as [?%elem_of_nil|]; [done|lia].
  - apply NoDup_cons in Hnd as [Hn Hnd]. rewrite IH by done.
    rewrite indegree_of_add.
    destruct (decide (v = n)) as [->|Hne].
    + rewrite decide_False by done. rewrite decide_True by (by left). lia.
    + destruct (decide (v ∈ deps)) as [Hin|Hnin].
      * by rewrite decide_True by (by right).
      * rewrite decide_False; [done|]. by intros [?|?]%elem_of_cons.
Qed.

Lemma min_by_in (key : string → Z) (nodes : list string) :
  ∀ best, min_by key best nodes ∈ best :: nodes.
Proof.
  induction nodes as [|n nodes IH]; intros best; simpl; [by left|].
  destruct (key n <? key best)%Z.
  - right. apply IH.
  - pose proof (IH best) as Hb. apply elem_of_cons in Hb as [Heq|Hin]; [rewrite Heq; by left|].
    right. by right.
Qed.

Lemma release_listed (sorted_nodes : list string) (deps : list string) :
  ∀ indegree queue,
    queue_inv indegree (sorted_nodes ++ queue) →
    let st := foldl release (indegree, queue) deps in
    queue_inv st.1 (sorted_nodes ++ st.2)
    ∧ ∀ v, v ∈ st.2 → v ∈ queue ∨ v ∈ deps.
Proof.
  induction deps as [|n deps IH]; intros indegree queue [Hnd Hle].
  - split; [by split|]. by left.
  - set (indegree1 := indegree_add (-1) indegree n).
    assert (indegree_of indegree1 n = (indegree_of indegree n - 1)%Z) as Hn.
    { unfold indegree1. rewrite indegree_of_add, decide_True by done. lia. }
    assert (∀ v, v ∈ sorted_nodes ++ queue → (indegree_of indegree1 v ≤ 0)%Z) as Hle1.
    { intros v Hv. unfold indegree1. rewrite indegree_of_add.
      specialize (Hle v Hv). destruct (decide (v = n)) as [->|Hne]; lia. }
    assert (release (indegree, queue) n
            = (indegree1, if decide (indegree_of indegree1 n = 0%Z)
                          then queue ++ [n] else queue)) as Hrel by reflexivity.
    cbn [foldl]. rewrite Hrel.
    destruct (decide (indegree_of indegree1 n = 0%Z)) as [Hzero|Hnz].
    + destruct (IH indegree1 (queue ++ [n])) as [Hinv Hsub].
      { rewrite app_assoc. split.
        - apply NoDup_app. repeat split; [done| |apply NoDup_singleton].
          intros v Hv ->%list_elem_of_singleton. specialize (Hle n Hv). lia.
        - intros v [Hv| ->%list_elem_of_singleton]%elem_of_app; [auto|lia]. }
      split; [done|]. intros v Hv. destruct (Hsub v Hv) as [Hq|Hd]; [|right; by right].
      apply elem_of_app in Hq as [?| ->%list_elem_of_singleton]; [by left|right; by left].
    + destruct (IH indegree1 queue) as [Hinv Hsub]; [by split|].
      split; [done|]. intros v Hv. destruct (Hsub v Hv); [by left|right; by right].
Qed.

Section sequencer_returns.
Variable g : list (string * list string).
Variable V : list string.
Hypothesis V_closed : ∀ a b, edge g a b → b ∈ V.

Lemma drain_queue_returns fuel :
  ∀ queue indegree sorted_nodes,
    queue_inv indegree (sorted_nodes ++ queue) →
    (∀ v, v ∈ sorted_nodes ++ queue → v ∈ V) →
    length V < fuel + length sorted_nodes →
    ∃ indegree' sorted_nodes',
      drain_queue fuel g queue indegree sorted_nodes = Some (indegree', sorted_nodes')
      ∧ NoDup sorted_nodes'
      ∧ (∀ v, v ∈ sorted_nodes ++ queue → v ∈ sorted_nodes')
      ∧ (∀ v, v ∈ sorted_nodes' → v ∈ V).
Proof.
  induction fuel as [|fuel IH]; intros queue indegree sorted_nodes Hinv HV Hfuel.
  - destruct queue as [|node queue].
    + simpl. rewrite app_nil_r in *. destruct Hinv. by eexists _, _.
    + exfalso. destruct Hinv as [Hnd _].
      pose proof (submseteq_length _ _ (NoDup_submseteq _ _ Hnd HV)) as Hlen.
      rewrite length_app in Hlen. simpl in *. lia.
  - destruct queue as [|node queue].
    + simpl. rewrite app_nil_r in *. destruct Hinv. by eexists _, _.
    + simpl.
      assert (sorted_nodes ++ node :: queue = (sorted_nodes ++ [node]) ++ queue) as Heq
        by (by rewrite <- app_assoc).
      rewrite Heq in Hinv, HV.
      destruct (release_listed (sorted_nodes ++ [node]) (graph_get g node) indegree queue Hinv)
        as [Hinv' Hsub].
      destruct (IH _ _ _ Hinv') as (indegree' & sorted' & Hrun & Hnd & Hin & HV').
      * intros v [Hv|Hv]%elem_of_app; [apply HV, elem_of_app; by left|].
        destruct (Hsub v Hv) as [Hq|Hd]; [apply HV, elem_of_app; by right|].
        by apply (V_closed node).
      * rewrite length_app. simpl. lia.
      * exists indegree', sorted'. split_and!; try done.
        intros v Hv. rewrite Heq in Hv. apply Hin.
        apply elem_of_app in Hv as [Hv|Hv]; apply elem_of_app; [by left|right].
        clear -Hv. revert indegree queue Hv.
        induction (graph_get g node) as [|n deps IHd]; intros indegree queue Hv; [done|].
        simpl. apply IHd. unfold release. simpl.
        destruct (decide _); [apply elem_of_app; by left|done].
Qed.

End sequencer_returns.

Lemma size_list_to_set_le (l : list string) : size (list_to_set l : gset string) ≤ length l.
Proof.
  unfold size, set_size. simpl.
  apply submseteq_length, NoDup_submseteq; [apply NoDup_elements|].
  by intros x Hx%elem_of_elements%elem_of_list_to_set.
Qed.

Section force_emit_returns.
Variable set_order : gset string → list string.
Hypothesis set_order_perm : ∀ X, set_order X ≡ₚ elements X.
Variable g : list (string * list string).

Lemma set_order_elem (X : gset string) x : x ∈ set_order X ↔ x ∈ X.
Proof. by rewrite (set_order_perm X), elem_of_elements. Qed.

Lemma force_emit_returns fuel :
  ∀ remaining_nodes indegree sorted_nodes,
    size remaining_nodes ≤ fuel → NoDup sorted_nodes →
    (∀ x, x ∈ remaining_nodes → x ∉ sorted_nodes) →
    ∃ order,
      force_emit set_order fuel g remaining_nodes indegree sorted_nodes = Some order
      ∧ NoDup order
      ∧ (∀ x, x ∈ order ↔ x ∈ sorted_nodes ∨ x ∈ remaining_nodes)
      ∧ (remaining_nodes = ∅ → order = sorted_nodes).
Proof.
  induction fuel as [|fuel IH]; intros remaining indegree sorted_nodes Hsize Hnd Hdis.
  - assert (remaining = ∅) as -> by (apply leibniz_equiv, size_empty_inv; lia).
    assert (set_order ∅ = []) as Hnil.
    { apply Permutation_nil_r. by rewrite (set_order_perm ∅), elements_empty. }
    simpl. rewrite Hnil. exists sorted_nodes. split_and!; try done.
    intros x. split; [by left|]. intros [?|?%elem_of_empty]; done.
  - simpl. destruct (set_order remaining) as [|first rest] eqn:Horder.
    + assert (remaining = ∅) as ->.
      { apply leibniz_equiv, elements_empty_inv. apply Permutation_nil_r.
        by rewrite <- (set_order_perm remaining), Horder. }
      exists sorted_nodes. split_and!; try done.
      intros x. split; [by left|]. intros [?|?%elem_of_empty]; done.
    + set (node := min_by _ first rest).
      assert (node ∈ remaining) as Hnode.
      { apply set_order_elem. rewrite Horder. apply min_by_in. }
      destruct (IH (remaining ∖ {[node]})
                  (foldl (indegree_add (-1)) indegree (graph_get g node))
                  (sorted_nodes ++ [node])) as (order & Hrun & Hnd' & Hin & _).
      * rewrite size_difference by (by apply singleton_subseteq_l).
        rewrite size_singleton.
        assert (size remaining ≠ 0).
        { intros Hs%size_empty_inv. apply Hs in Hnode. by apply elem_of_empty in Hnode. }
        lia.
      * apply NoDup_app. repeat split; [done| |apply NoDup_singleton].
        intros x Hx ->%list_elem_of_singleton. by apply (Hdis node).
      * intros x [Hx Hne]%elem_of_difference [Hs| ->%list_elem_of_singleton]%elem_of_app.
        -- by apply (Hdis x).
        -- apply Hne. by apply elem_of_singleton.
      * exists order. split_and!; [done|done| |].
        -- intros x. rewrite Hin, elem_of_app, list_elem_of_singleton, elem_of_difference,
             elem_of_singleton.
           destruct (decide (x = node)) as [->|Hne]; [tauto|]. tauto.
        -- intros ->. by apply elem_of_empty in Hnode.
Qed.
End force_emit_returns.

Lemma queue_inv_init (set_order : gset string → list string) (g : list (string * list string))
    (cells : list string) :
  (∀ X, set_order X ≡ₚ elements X) →
  let zero := list_to_set (filter (λ node, indegree_of (count_indegree g) node = 0%Z) cells) in
  queue_inv (count_indegree g) ([] ++ set_order zero)
  ∧ ∀ v, v ∈ set_order zero ↔ v ∈ cells ∧ indegree_of (count_indegree g) v = 0%Z.
Proof.
  intros Hperm zero.
  assert (∀ v, v ∈ set_order zero ↔ v ∈ cells ∧ indegree_of (count_indegree g) v = 0%Z) as Hz.
  { intros v. rewrite (Hperm zero), elem_of_elements. unfold zero.
    rewrite elem_of_list_to_set, list_elem_of_filter. tauto. }
  split; [|done]. split; simpl.
  - rewrite (Hperm zero). apply NoDup_elements.
  - intros v [_ Hv]%Hz. lia.
Qed.

(** X16: [topological_sort_all_cells] returns on every graph, with or
    without cycles, and never raises (its docstring names a ValueError
    it has no [raise] for): the order it returns holds no cell twice and
    holds every cell of the mapping. *)
Theorem topological_sort_all_cells_returns (set_order : gset string → list string)
    (g : list (string * list string)) (cells : list string) :
  (∀ X, set_order X ≡ₚ elements X) →
  ∃ order,
    topological_sort_all_cells set_order g cells = Some order
    ∧ NoDup order
    ∧ (∀ c, c ∈ cells → c ∈ order)
    ∧ (∀ c, c ∈ order → c ∈ vertices g cells).
Proof.
  intros Hperm. unfold topological_sort_all_cells. cbv zeta.
  destruct (queue_inv_init set_order g cells Hperm) as [Hinv Hz].
  destruct (drain_queue_returns g (vertices g cells) (graph_get_vertices g cells)
              (S (length (vertices g cells))) _ _ [] Hinv)
    as (indegree' & sorted_nodes & -> & Hnd & _ & HV).
  { intros v Hv. simpl in Hv. apply Hz in Hv as [Hv _].
    unfold vertices. apply elem_of_app. by left. }
  { simpl. lia. }
  destruct (force_emit_returns set_order Hperm g (length cells)
              (list_to_set cells ∖ list_to_set sorted_nodes) indegree' sorted_nodes)
    as (order & -> & Hnd' & Hin & _).
  - etransitivity; [|apply (size_list_to_set_le cells)].
    apply subseteq_size. intros x [Hx _]%elem_of_difference. done.
  - done.
  - intros x [_ Hx]%elem_of_difference Hs. apply Hx. by apply elem_of_list_to_set.
  - exists order. split_and!; [done|done| |].
    + intros c Hc. apply Hin. destruct (decide (c ∈ sorted_nodes)); [by left|right].
      apply elem_of_difference. rewrite !elem_of_list_to_set. by split.
    + intros c [Hc|[Hc _]%elem_of_difference]%Hin; [by apply HV|].
      apply elem_of_list_to_set in Hc. unfold vertices. apply elem_of_app. by left.
Qed.

Lemma topological_sort_all_cells_returns_witness :
  ∃ order,
    topological_sort_all_cells elements
      [("A1", ["B1"; "C1"]); ("B1", ["A1"; "C1"]); ("C1", ["A1"; "B1"])] ["A1"; "B1"; "C1"]
    = Some order
    ∧ NoDup order
    ∧ (∀ c, c ∈ ["A1"; "B1"; "C1"] → c ∈ order)
    ∧ (∀ c, c ∈ order →
            c ∈ vertices [("A1", ["B1"; "C1"]); ("B1", ["A1"; "C1"]); ("C1", ["A1"; "B1"])]
                  ["A1"; "B1"; "C1"]).
Proof. by apply topological_sort_all_cells_returns. Defined.

(** ** The sorter with the queue on a graph without cycles *)

Lemma filter_ext_in {A : Type} (P Q : A → Prop) `{!∀ x, Decision (P x)} `{!∀ x, Decision (Q x)}
    (l : list A) :
  (∀ x, x ∈ l → (P x ↔ Q x)) → filter P l = filter Q l.
Proof.
  induction l as [|x l IH]; intros HPQ; [done|].
  rewrite !filter_cons, IH by (intros y Hy; apply HPQ; by right).
  destruct (decide (P x)) as [HP|HP]; destruct (decide (Q x)) as [HQ|HQ]; try done.
  - destruct HQ. apply HPQ; [by left|done].
  - destruct HP. apply HPQ; [by left|done].
Qed.

Lemma graph_get_NoDup (g : list (string * list string)) node :
  graph_wf g → NoDup (graph_get g node).
Proof.
  intros [_ Hsets]. unfold graph_get. destruct (graph_lookup g node) as [deps|] eqn:Hl; simpl.
  - apply (Hsets node). by apply graph_lookup_elem.
  - apply NoDup_nil_2.
Qed.

Lemma count_indegree_pending (g : list (string * list string)) v :
  graph_wf g → indegree_of (count_indegree g) v = Z.of_nat (length (pending g [] v)).
Proof.
  intros [_ Hsets].
  assert (∀ (h : list (string * list string)) acc,
            (∀ k deps, (k, deps) ∈ h → NoDup deps) →
            indegree_of (foldl (λ indegree item, foldl (indegree_add 1) indegree item.2) acc h) v
            = (indegree_of acc v + Z.of_nat (length (pending h [] v)))%Z) as Hgen.
  { clear. induction h as [|[k deps] h IH]; intros acc Hsets; simpl; [lia|].
    rewrite IH by (intros k' d' Hin; apply (Hsets k'); by right).
    rewrite indegree_of_add_all by (apply (Hsets k); by left).
    unfold pending. rewrite filter_cons. simpl.
    destruct (decide (v ∈ deps)) as [Hin|Hnin].
    - rewrite decide_True by (split; [by intros ?%elem_of_nil|done]). simpl. lia.
    - rewrite decide_False by tauto. lia. }
  unfold count_indegree. rewrite Hgen by done. unfold indegree_of. by rewrite lookup_empty.
Qed.

Lemma pending_unsorted (g : list (string * list string)) sorted_nodes v a :
  NoDup g.*1 → length (pending g sorted_nodes v) = 0 → edge g a v → a ∈ sorted_nodes.
Proof.
  intros Hnd Hlen (deps & Hin & Hv)%edge_items; [|done].
  destruct (decide (a ∈ sorted_nodes)) as [|Hnin]; [done|]. exfalso.
  assert ((a, deps) ∈ pending g sorted_nodes v) as Hp by (by apply list_elem_of_filter).
  destruct (pending g sorted_nodes v); [by apply elem_of_nil in Hp|done].
Qed.

Lemma pending_waits (g : list (string * list string)) sorted_nodes v :
  NoDup g.*1 → 0 < length (pending g sorted_nodes v) →
  ∃ a, (a ∉ sorted_nodes) ∧ edge g a v.
Proof.
  intros Hnd Hlen. destruct (pending g sorted_nodes v) as [|[a deps] l] eqn:Hp; [simpl in Hlen; lia|].
  assert ((a, deps) ∈ pending g sorted_nodes v) as Hin by (rewrite Hp; by left).
  apply list_elem_of_filter in Hin as [[Ha Hv] Hin]. simpl in *.
  exists a. split; [done|]. apply edge_items; [done|]. by exists deps.
Qed.

Lemma graph_get_cons k deps (g : list (string * list string)) node :
  graph_get ((k, deps) :: g) node = if decide (k = node) then deps else graph_get g node.
Proof. unfold graph_get. simpl. by destruct (decide (k = node)). Qed.

Lemma graph_get_no_key (g : list (string * list string)) node :
  node ∉ g.*1 → graph_get g node = [].
Proof.
  intros Hk. unfold graph_get. destruct (graph_lookup g node) as [deps|] eqn:Hl; [|done].
  destruct Hk. by eapply graph_lookup_key.
Qed.

(** Emitting [node] takes one binding off the list of every cell that
    [node] references. *)
Lemma pending_snoc (g : list (string * list string)) sorted_nodes node v :
  NoDup g.*1 → node ∉ sorted_nodes →
  length (pending g sorted_nodes v)
  = length (pending g (sorted_nodes ++ [node]) v)
    + (if decide (v ∈ graph_get g node) then 1 else 0).
Proof.
  intros Hnd Hnode. induction g as [|[k deps] g IH]; simpl.
  - destruct (decide (v ∈ graph_get [] node)) as [Hin|]; [|done].
    by apply elem_of_nil in Hin.
  - simpl in Hnd. apply NoDup_cons in Hnd as [Hk Hnd]. specialize (IH Hnd).
    unfold pending in *. rewrite !filter_cons. simpl. rewrite graph_get_cons.
    destruct (decide (k = node)) as [->|Hne].
    + rewrite (graph_get_no_key g node Hk) in IH.
      destruct (decide (v ∈ [])) as [?%elem_of_nil|_] in IH; [done|].
      rewrite (decide_False (P := (node ∉ sorted_nodes ++ [node]) ∧ v ∈ deps)).
      2: { intros [Hn _]. apply Hn, elem_of_app. right. by left. }
      destruct (decide (v ∈ deps)) as [Hv|Hv].
      * rewrite decide_True by done. simpl. lia.
      * rewrite decide_False by tauto. lia.
    + destruct (decide ((k ∉ sorted_nodes) ∧ v ∈ deps)) as [[Hk1 Hv]|Hn].
      * rewrite decide_True; [simpl; lia|]. split; [|done].
        intros [?| ->%list_elem_of_singleton]%elem_of_app; done.
      * rewrite decide_False; [lia|]. intros [Hk1 Hv]. apply Hn. split; [|done].
        intros Hin. apply Hk1, elem_of_app. by left.
Qed.

(** What the loop over the set of [node] does to the table and the
    queue. *)
Lemma release_all (deps : list string) :
  ∀ indegree queue, NoDup deps →
    foldl release (indegree, queue) deps
    = (foldl (indegree_add (-1)) indegree deps,
       queue ++ filter (λ n, indegree_of indegree n = 1%Z) deps).
Proof.
  induction deps as [|n deps IH]; intros indegree queue Hnd; simpl.
  - by rewrite app_nil_r.
  - apply NoDup_cons in Hnd as [Hn Hnd].
    set (indegree1 := indegree_add (-1) indegree n).
    assert (release (indegree, queue) n
            = (indegree1, if decide (indegree_of indegree1 n = 0%Z)
                          then queue ++ [n] else queue)) as -> by reflexivity.
    assert (indegree_of indegree1 n = (indegree_of indegree n - 1)%Z) as Hn1.
    { unfold indegree1. rewrite indegree_of_add, decide_True by done. lia. }
    assert (filter (λ n0, indegree_of indegree1 n0 = 1%Z) deps
            = filter (λ n0, indegree_of indegree n0 = 1%Z) deps) as Hsame.
    { apply filter_ext_in. intros x Hx. unfold indegree1. rewrite indegree_of_add.
      rewrite decide_False; [done|]. by intros ->. }
    rewrite filter_cons.
    destruct (decide (indegree_of indegree1 n = 0%Z)) as [Hz|Hnz].
    + rewrite IH, Hsame by done. rewrite decide_True by lia. by rewrite <- app_assoc.
    + rewrite IH, Hsame by done. by rewrite decide_False by lia.
Qed.

Section kahn.
Variable g : list (string * list string).
Variable cells : list string.
Hypothesis g_wf : graph_wf g.
Hypothesis g_complete : complete g cells.

Lemma kahn_step node queue indegree sorted_nodes :
  kahn_inv g cells (node :: queue) indegree sorted_nodes →
  let st := foldl release (indegree, queue) (graph_get g node) in
  kahn_inv g cells st.2 st.1 (sorted_nodes ++ [node]).
Proof.
  intros [Hnd Hcount Hzero Hqueued Horder Hcells].
  pose proof (graph_get_NoDup g node g_wf) as Hdeps.
  rewrite release_all by done. simpl.
  set (deps := graph_get g node) in *.
  assert (node ∉ sorted_nodes) as Hfresh.
  { apply NoDup_app in Hnd as (_ & Hdis & _). intros Hin. apply (Hdis node Hin). by left. }
  assert (∀ v, indegree_of (foldl (indegree_add (-1)) indegree deps) v
               = Z.of_nat (length (pending g (sorted_nodes ++ [node]) v))) as Hcount'.
  { intros v. rewrite indegree_of_add_all, Hcount by done.
    rewrite (pending_snoc g sorted_nodes node v) by (done || apply g_wf).
    fold deps. destruct (decide (v ∈ deps)); lia. }
  assert (∀ v, v ∈ sorted_nodes ++ node :: queue → v ∉ deps) as Hold.
  { intros v Hv Hin. specialize (Hzero v Hv). rewrite Hcount in Hzero.
    rewrite (pending_snoc g sorted_nodes node v) in Hzero by (done || apply g_wf).
    fold deps in Hzero. rewrite decide_True in Hzero by done. lia. }
  assert (sorted_nodes ++ node :: queue = (sorted_nodes ++ [node]) ++ queue) as Heq
    by (by rewrite <- app_assoc).
  split.
  - rewrite app_assoc, <- Heq. apply NoDup_app. split_and!; [done| |].
    + intros v Hv [Hone Hin]%list_elem_of_filter. by apply (Hold v).
    + by apply NoDup_filter.
  - done.
  - intros v Hv. rewrite app_assoc, <- Heq in Hv.
    rewrite indegree_of_add_all by done.
    apply elem_of_app in Hv as [Hv|[Hone Hin]%list_elem_of_filter].
    + rewrite (Hzero v Hv). rewrite decide_False; [done|]. by apply Hold.
    + rewrite Hone. by rewrite decide_True.
  - intros v Hv Hz. rewrite app_assoc, <- Heq.
    rewrite indegree_of_add_all in Hz by done.
    apply elem_of_app. destruct (decide (v ∈ deps)) as [Hin|Hnin].
    + right. apply list_elem_of_filter. split; [lia|done].
    + left. apply Hqueued; [done|lia].
  - intros a b Hab [Hb| ->%list_elem_of_singleton]%elem_of_app.
    + by apply precedes_snoc, Horder.
    + apply precedes_last. apply (pending_unsorted g sorted_nodes node a); [apply g_wf| |done].
      assert (indegree_of indegree node = 0%Z) as Hn.
      { apply Hzero, elem_of_app. right. by left. }
      rewrite Hcount in Hn. lia.
  - intros v Hv. rewrite app_assoc, <- Heq in Hv.
    apply elem_of_app in Hv as [Hv|[_ Hin]%list_elem_of_filter]; [by apply Hcells|].
    by apply (g_complete node v).
Qed.

Lemma drain_queue_inv fuel :
  ∀ queue indegree sorted_nodes indegree' sorted_nodes',
    drain_queue fuel g queue indegree sorted_nodes = Some (indegree', sorted_nodes') →
    kahn_inv g cells queue indegree sorted_nodes →
    kahn_inv g cells [] indegree' sorted_nodes'.
Proof.
  induction fuel as [|fuel IH]; intros queue indegree sorted_nodes indegree' sorted' Hrun Hinv.
  - destruct queue; [|done]. by injection Hrun as <- <-.
  - destruct queue as [|node queue]; [by injection Hrun as <- <-|].
    simpl in Hrun. eapply IH; [done|]. by apply kahn_step.
Qed.

(** On a graph without cycles the queue does not run dry before every
    cell is emitted. *)
Lemma kahn_all_emitted (rank : string → nat) (bound : nat) indegree sorted_nodes :
  (∀ a b, edge g a b → rank b < rank a) → (∀ v, rank v ≤ bound) →
  kahn_inv g cells [] indegree sorted_nodes →
  ∀ c, c ∈ cells → c ∈ sorted_nodes.
Proof.
  intros Hrank Hbound [Hnd Hcount Hzero Hqueued Horder Hcells].
  rewrite app_nil_r in *.
  assert (∀ n c, c ∈ cells → c ∉ sorted_nodes → bound < rank c + n → False) as Hno.
  { induction n as [|n IH]; intros c Hc Hnin Hlt.
    - specialize (Hbound c). lia.
    - destruct (pending_waits g sorted_nodes c) as (a & Ha & Hac); [apply g_wf| |].
      + destruct (length (pending g sorted_nodes c)) eqn:Hlen; [|lia].
        destruct Hnin. apply Hqueued; [done|].
        rewrite Hcount, Hlen. done.
      + apply (IH a); [by apply (g_complete a c)|done|].
        specialize (Hrank a c Hac). lia. }
  intros c Hc. destruct (decide (c ∈ sorted_nodes)) as [|Hnin]; [done|].
  destruct (Hno (S bound) c Hc Hnin). lia.
Qed.
End kahn.

Lemma position_le (l : list string) v : position l v ≤ length l.
Proof.
  induction l as [|x l IH]; simpl; [done|]. destruct (decide (x = v)); lia.
Qed.

(** A graph without cycles has a rank that every edge lowers. *)
Lemma acyclic_has_rank (g : list (string * list string)) (cells : list string) :
  acyclic g → complete g cells →
  ∃ (rank : string → nat) (bound : nat),
    (∀ a b, edge g a b → rank b < rank a) ∧ ∀ v, rank v ≤ bound.
Proof.
  intros Hac Hc.
  destruct (resolve_and_sort_acyclic g cells Hac) as (st & _ & [_ Hnd Hresp] & Hin & _).
  exists (position (sorted_nodes st)), (length (sorted_nodes st)). split.
  - intros a b Hab. apply precedes_position; [done|]. apply Hresp; [|done].
    apply Hin. by apply (Hc a b).
  - intros v. apply position_le.
Qed.

(** X17: on a graph without cycles [topological_sort_all_cells] returns
    every cell once, each cell before the cells it references. *)
Theorem topological_sort_all_cells_acyclic (set_order : gset string → list string)
    (g : list (string * list string)) (cells : list string) :
  (∀ X, set_order X ≡ₚ elements X) →
  graph_wf g → complete g cells → acyclic g →
  ∃ order,
    topological_sort_all_cells set_order g cells = Some order
    ∧ NoDup order
    ∧ (∀ c, c ∈ order ↔ c ∈ cells)
    ∧ (∀ a b, edge g a b → precedes a b order).
Proof.
  intros Hperm Hwf Hc Hac. unfold topological_sort_all_cells. cbv zeta.
  destruct (queue_inv_init set_order g cells Hperm) as [Hinv Hz].
  destruct (drain_queue_returns g (vertices g cells) (graph_get_vertices g cells)
              (S (length (vertices g cells))) _ _ [] Hinv)
    as (indegree' & sorted_nodes & Hrun & Hnd & _ & HV).
  { intros v Hv. simpl in Hv. apply Hz in Hv as [Hv _].
    unfold vertices. apply elem_of_app. by left. }
  { simpl. lia. }
  rewrite Hrun.
  assert (kahn_inv g cells [] indegree' sorted_nodes) as Hfinal.
  { apply (drain_queue_inv g cells Hwf Hc _ _ _ _ _ _ Hrun). split; simpl.
    - rewrite (Hperm _). apply NoDup_elements.
    - intros v. by apply count_indegree_pending.
    - by intros v [_ Hv]%Hz.
    - intros v Hv Hzero. by apply Hz.
    - by intros a b _ ?%elem_of_nil.
    - by intros v [Hv _]%Hz. }
  destruct (acyclic_has_rank g cells Hac Hc) as (rank & bound & Hrank & Hbound).
  pose proof (kahn_all_emitted g cells Hwf Hc rank bound _ _ Hrank Hbound Hfinal) as Hall.
  assert (list_to_set cells ∖ list_to_set sorted_nodes = (∅ : gset string)) as Hempty.
  { apply set_eq. intros x. rewrite elem_of_difference, !elem_of_list_to_set.
    split; [|by intros ?%elem_of_empty]. intros [Hx Hnx]. destruct Hnx. by apply Hall. }
  destruct (force_emit_returns set_order Hperm g (length cells)
              (list_to_set cells ∖ list_to_set sorted_nodes) indegree' sorted_nodes)
    as (order & -> & _ & _ & Hsame).
  { rewrite Hempty, size_empty. lia. }
  { done. }
  { intros x. rewrite Hempty. by intros ?%elem_of_empty. }
  rewrite (Hsame Hempty). exists sorted_nodes.
  destruct Hfinal as [_ _ _ _ Horder Hcells]. rewrite app_nil_r in Hcells.
  split_and!; [done|done| |].
  - intros c. split; [apply Hcells|apply Hall].
  - intros a b Hab. apply Horder; [done|]. apply Hall. by apply (Hc a b).
Qed.

Lemma topological_sort_all_cells_acyclic_witness :
  ∃ order,
    topological_sort_all_cells elements [("C1", ["A1"; "B1"]); ("D1", ["C1"])]
      ["A1"; "B1"; "C1"; "D1"] = Some order
    ∧ NoDup order
    ∧ (∀ c, c ∈ order ↔ c ∈ ["A1"; "B1"; "C1"; "D1"])
    ∧ (∀ a b, edge [("C1", ["A1"; "B1"]); ("D1", ["C1"])] a b → precedes a b order).
Proof.
  apply topological_sort_all_cells_acyclic.
  - done.
  - split.
    + apply NoDup_cons. split; [by intros [= ?]%list_elem_of_singleton|apply NoDup_singleton].
    + intros k deps Hin. apply list_elem_of_In in Hin. simpl in Hin.
      destruct Hin as [[= <- <-]|[[= <- <-]|[]]].
      * apply NoDup_cons. split; [by intros [= ?]%list_elem_of_singleton|apply NoDup_singleton].
      * apply NoDup_singleton.
  - apply complete_cover. reflexivity.
  - apply (acyclic_ranked (position ["A1"; "B1"; "C1"; "D1"])). reflexivity.
Defined.

(** ** Reading a declaration back *)

Lemma declared_expression_prefix (cell : string) (u : list ascii) :
  strip_prefix (txt "var " ++ txt cell ++ txt " = ") u = None →
  declared_expression cell u = None.
Proof. intros H. unfold declared_expression. by rewrite H. Qed.

Lemma re_search_skip (m : list ascii → option (list ascii)) (pre rest : list ascii) :
  (∀ p1 c p2, pre = p1 ++ c :: p2 → m (c :: p2 ++ rest) = None) →
  re_search m (pre ++ rest) = re_search m rest.
Proof.
  induction pre as [|c pre IH]; intros Hpre; [done|].
  simpl. rewrite (Hpre [] c pre eq_refl). apply IH.
  intros p1 c' p2 ->. by apply (Hpre (c :: p1)).
Qed.

Lemma re_search_head (m : list ascii → option (list ascii)) (s found : list ascii) :
  m s = Some found → re_search m s = Some found.
Proof. intros H. destruct s; simpl; by rewrite H. Qed.

Lemma declared_expression_match (cell : string) (body post : list ascii) :
  Forall (λ c, in_expression c = true) body →
  declared_expression cell (txt "var " ++ txt cell ++ txt " = " ++ body ++ ";"%char :: post)
  = Some body.
Proof.
  intros Hbody. unfold declared_expression.
  rewrite !app_assoc, <- (app_assoc _ body), strip_prefix_app.
  rewrite (span_all in_expression body) by (done || by intros c [= <-]).
  done.
Qed.

(** X18: [extract_formula] reads a declaration back: where the program
    holds [var <cell> = <body>;], with no semicolon and no line feed in
    the body and no [var <cell> = ] before it, the result is the
    body. *)
Theorem extract_formula_reads_declaration (cell : string) (pre body post : list ascii) :
  Forall (λ c, is_word c = true) (txt cell) →
  Forall (λ c, in_expression c = true) body →
  not_declared_in cell pre
    (txt "var " ++ txt cell ++ txt " = " ++ body ++ ";"%char :: post) →
  extract_formula (pre ++ txt "var " ++ txt cell ++ txt " = " ++ body ++ ";"%char :: post) cell
  = body
  ∧ extract_formula (declaration cell body ++ post) cell = body.
Proof.
  intros _ Hbody Hpre. unfold extract_formula. split.
  - rewrite re_search_skip.
    + by rewrite (re_search_head _ _ body (declared_expression_match cell body post Hbody)).
    + intros p1 c p2 Heq. apply declared_expression_prefix. by apply (Hpre p1).
  - unfold declaration. rewrite <- !app_assoc.
    change (txt ";" ++ post) with (";"%char :: post).
    by rewrite (re_search_head _ _ body (declared_expression_match cell body post Hbody)).
Qed.

Lemma extract_formula_reads_declaration_witness :
  extract_formula
    ((txt "var C1 = 3;" ++ [ascii_of_nat 10]) ++ txt "var " ++ txt "B1" ++ txt " = "
     ++ txt "C1+1" ++ ";"%char :: ascii_of_nat 10 :: txt "var A1 = B1*2;") "B1"
  = txt "C1+1"
  ∧ extract_formula (declaration "B1" (txt "C1+1") ++ ascii_of_nat 10 :: txt "var A1 = B1*2;")
      "B1"
    = txt "C1+1".
Proof.
  apply (extract_formula_reads_declaration "B1" (txt "var C1 = 3;" ++ [ascii_of_nat 10])
           (txt "C1+1") (ascii_of_nat 10 :: txt "var A1 = B1*2;")).
  - repeat constructor.
  - repeat constructor.
  - intros p1 c p2 Heq.
    assert (c :: p2 ∈ suffixes (txt "var C1 = 3;" ++ [ascii_of_nat 10])) as Hin
      by (rewrite Heq; apply suffixes_elem).
    apply list_elem_of_In in Hin. simpl in Hin.
    repeat (destruct Hin as [Hin|Hin]; [injection Hin as <- <-; reflexivity|]).
    destruct Hin as [Hin|[]]. discriminate Hin.
Defined.

(** X19: where the program holds no [var <cell> = ], the result is the
    empty string. *)
Theorem extract_formula_not_found (cell : string) (js_code : list ascii) :
  Forall (λ c, is_word c = true) (txt cell) →
  not_declared_in cell js_code [] →
  extract_formula js_code cell = [].
Proof.
  intros _ Hno. unfold extract_formula.
  rewrite <- (app_nil_r js_code), re_search_skip; [reflexivity|].
  intros p1 c p2 Heq. apply declared_expression_prefix. by apply (Hno p1).
Qed.

Lemma extract_formula_not_found_witness :
  extract_formula (txt "var C1 = 3;") "B1" = [].
Proof.
  apply extract_formula_not_found.
  - repeat constructor.
  - intros p1 c p2 Heq.
    assert (c :: p2 ∈ suffixes (txt "var C1 = 3;")) as Hin
      by (rewrite Heq; apply suffixes_elem).
    apply list_elem_of_In in Hin. simpl in Hin.
    repeat (destruct Hin as [Hin|Hin]; [injection Hin as <- <-; reflexivity|]).
    destruct Hin as [Hin|[]]. discriminate Hin.
Defined.

(** ** One formula that raises *)

Section extractor_raises.
Variable float_repr : Z → Z → list ascii.

Lemma extract_cell_formula row_idx col_idx formula st :
  extract_cell float_repr row_idx col_idx (Text ("="%char :: formula)) st
  = (col ← get_column_letter (Z.of_nat col_idx);
     js_formula ← convert_to_js float_repr formula;
     let cell_ref := string_of_list_ascii (col ++ py_str (Z.of_nat row_idx)) in
     Ok (Extraction (dict_set (all_cells st) cell_ref (declaration cell_ref js_formula))
           (foldl (λ g r, graph_add g cell_ref r) (dependency_graph st)
              ((λ r, string_of_list_ascii (filter (λ c, c ≠ "$"%char) r))
                 <$> findall cell_reference formula))
           (dict_set (original_formulas st) cell_ref ("="%char :: formula))
           ({[cell_ref]} ∪ defined_cells st))).
Proof.
  unfold extract_cell. destruct (get_column_letter _); [|done]. simpl.
  by destruct (convert_to_js float_repr formula).
Qed.

Lemma formula_of_Some value formula :
  formula_of value = Some formula → value = Text ("="%char :: formula).
Proof.
  destruct value as [|[|c s]|]; try done. simpl.
  destruct (decide (c = "="%char)) as [->|Hne]; [by intros [= ->]|].
  intros H. exfalso. revert H. clear -Hne.
  destruct c as [[] [] [] [] [] [] [] []]; try done; congruence.
Qed.

Lemma extract_row_raises row :
  ∀ row_idx col_idx st formula e,
    formula ∈ omap formula_of row → convert_to_js float_repr formula = Raise e →
    ∃ e', extract_row float_repr row_idx col_idx row st = Raise e'.
Proof.
  induction row as [|value row IH]; intros row_idx col_idx st formula e Hin Hraise;
    [by apply elem_of_nil in Hin|].
  simpl. destruct (extract_cell float_repr row_idx col_idx value st) as [st1|e1] eqn:Hcell;
    [|by exists e1].
  rewrite result_bind_Ok. simpl in Hin.
  destruct (formula_of value) as [f|] eqn:Hf.
  - apply elem_of_cons in Hin as [->|Hin]; [|by apply (IH _ _ _ formula e)].
    exfalso. apply formula_of_Some in Hf as ->.
    rewrite extract_cell_formula in Hcell.
    destruct (get_column_letter _); [|done]. rewrite result_bind_Ok in Hcell.
    by rewrite Hraise in Hcell.
  - by apply (IH _ _ _ formula e).
Qed.

Lemma extract_rows_raises rows :
  ∀ row_idx st formula e,
    formula ∈ formulas_of rows → convert_to_js float_repr formula = Raise e →
    ∃ e', extract_rows float_repr row_idx rows st = Raise e'.
Proof.
  unfold formulas_of.
  induction rows as [|row rows IH]; intros row_idx st formula e Hin Hraise;
    [by apply elem_of_nil in Hin|].
  simpl. destruct (extract_row float_repr row_idx 1 row st) as [st1|e1] eqn:Hrow;
    [|by exists e1].
  rewrite result_bind_Ok. simpl in Hin. apply elem_of_app in Hin as [Hin|Hin].
  - destruct (extract_row_raises row row_idx 1 st formula e Hin Hraise) as [e' He'].
    congruence.
  - by apply (IH _ _ formula e).
Qed.

(** X20: one formula that the translator raises on stops the whole
    conversion: no cell mapping and no program is returned, for any of
    the other cells either. *)
Theorem one_formula_raises_all (s : list (list cell_value)) (formula : list ascii) (e : exn) :
  formula ∈ formulas_of s → convert_to_js float_repr formula = Raise e →
  ∃ e', extract_and_convert_all_cells float_repr s = Raise e'
        ∧ convert_excel_to_js float_repr s = Some (Raise e').
Proof.
  intros Hin Hraise.
  destruct (extract_rows_raises s 1 (Extraction [] [] [] ∅) formula e Hin Hraise) as [e' He'].
  exists e'. unfold convert_excel_to_js, extract_and_convert_all_cells. by rewrite He'.
Qed.
End extractor_raises.

Lemma one_formula_raises_all_witness :
  ∃ e', extract_and_convert_all_cells decimal_repr
          [[Number (txt "1"); Number (txt "2")]; [Text (txt "=A1+B1"); Text (txt "=SUM(1:3)")]]
        = Raise e'
        ∧ convert_excel_to_js decimal_repr
            [[Number (txt "1"); Number (txt "2")]; [Text (txt "=A1+B1"); Text (txt "=SUM(1:3)")]]
          = Some (Raise e').
Proof.
  apply (one_formula_raises_all decimal_repr _ (txt "SUM(1:3)")
           (ValueError "3 is not a valid column name")).
  - unfold formulas_of. simpl. right. by left.
  - reflexivity.
Defined.

(** ** Every formula translates *)

Section extractor_total.
Variable float_repr : Z → Z → list ascii.

Lemma get_column_letter_returns (col_idx : nat) :
  (1 ≤ Z.of_nat col_idx ≤ 18278)%Z → ∃ col, get_column_letter (Z.of_nat col_idx) = Ok col.
Proof.
  intros Hc. unfold get_column_letter.
  destruct (_ && _) eqn:H1; [by eexists|].
  destruct (_ && _) eqn:H2 in |- *; [by eexists|].
  destruct (_ && _) eqn:H3 in |- *; [by eexists|].
  exfalso. apply andb_false_iff in H1, H2, H3.
  rewrite !Z.leb_gt in H1, H2, H3. lia.
Qed.

Lemma extract_cell_returns row_idx col_idx value st :
  (1 ≤ Z.of_nat col_idx ≤ 18278)%Z →
  (∀ formula, formula_of value = Some formula →
     ∃ js, convert_to_js float_repr formula = Ok js) →
  ∃ st', extract_cell float_repr row_idx col_idx value st = Ok st'.
Proof.
  intros Hc Hf. destruct (get_column_letter_returns col_idx Hc) as [col Hcol].
  destruct (formula_of value) as [formula|] eqn:Hv.
  - apply formula_of_Some in Hv as ->. destruct (Hf formula eq_refl) as [js Hjs].
    rewrite extract_cell_formula, Hcol, result_bind_Ok, Hjs. by eexists.
  - unfold extract_cell. rewrite Hcol, result_bind_Ok.
    destruct value as [shown|[|c s]|]; try by eexists.
    destruct (decide (c = "="%char)) as [->|Hne]; [done|].
    exists st. clear -Hne. destruct c as [[] [] [] [] [] [] [] []]; try done; congruence.
Qed.

Lemma extract_row_returns row :
  ∀ row_idx col_idx st,
    1 ≤ col_idx → (Z.of_nat (col_idx + length row) ≤ 18279)%Z →
    (∀ formula, formula ∈ omap formula_of row →
       ∃ js, convert_to_js float_repr formula = Ok js) →
    ∃ st', extract_row float_repr row_idx col_idx row st = Ok st'.
Proof.
  induction row as [|value row IH]; intros row_idx col_idx st Hc Hlen Hf; simpl; [by eexists|].
  simpl in Hlen, Hf.
  destruct (extract_cell_returns row_idx col_idx value st) as [st1 ->]; [lia| |].
  - intros formula Hv. apply Hf. rewrite Hv. by left.
  - rewrite result_bind_Ok. apply IH; [lia|lia|].
    intros formula Hin. apply Hf. destruct (formula_of value); [by right|done].
Qed.

Lemma extract_rows_returns rows :
  ∀ row_idx st,
    (∀ row, row ∈ rows → (Z.of_nat (length row) ≤ 18278)%Z) →
    (∀ formula, formula ∈ formulas_of rows →
       ∃ js, convert_to_js float_repr formula = Ok js) →
    ∃ st', extract_rows float_repr row_idx rows st = Ok st'.
Proof.
  unfold formulas_of.
  induction rows as [|row rows IH]; intros row_idx st Hlen Hf; simpl; [by eexists|].
  simpl in Hf.
  destruct (extract_row_returns row row_idx 1 st) as [st1 ->]; [lia| | |].
  - specialize (Hlen row ltac:(by left)). lia.
  - intros formula Hin. apply Hf, elem_of_app. by left.
  - rewrite result_bind_Ok. apply IH.
    + intros row' Hin. apply Hlen. by right.
    + intros formula Hin. apply Hf, elem_of_app. by right.
Qed.

(** X21: the extractor returns on every sheet of at most 18278 columns
    whose formulas the translator returns on; numbers, text that is no
    formula and empty cells never make it raise. *)
Theorem extractor_returns (s : list (list cell_value)) :
  (∀ row, row ∈ s → (Z.of_nat (length row) ≤ 18278)%Z) →
  (∀ formula, formula ∈ formulas_of s → ∃ js, convert_to_js float_repr formula = Ok js) →
  ∃ cells g formulas, extract_and_convert_all_cells float_repr s = Ok (cells, g, formulas).
Proof.
  intros Hlen Hf. unfold extract_and_convert_all_cells.
  destruct (extract_rows_returns s 1 (Extraction [] [] [] ∅) Hlen Hf) as [st ->].
  rewrite result_bind_Ok. by eexists _, _, _.
Qed.
End extractor_total.

Lemma extractor_returns_witness :
  ∃ cells g formulas,
    extract_and_convert_all_cells decimal_repr
      [[Number (txt "1"); Text (txt "total"); Blank]; [Text (txt "=A1*10%")]]
    = Ok (cells, g, formulas).
Proof.
  apply extractor_returns.
  - intros row Hin. apply list_elem_of_In in Hin. simpl in Hin.
    destruct Hin as [<-|[<-|[]]]; simpl; lia.
  - intros formula Hin. unfold formulas_of in Hin. simpl in Hin.
    apply list_elem_of_singleton in Hin as ->. by eexists.
Defined.

(** ** The names of the cells *)

Lemma py_str_inj (n m : Z) : py_str n = py_str m → n = m.
Proof.
  unfold py_str. intros H.
  apply (f_equal string_of_list_ascii) in H.
  rewrite !string_of_list_ascii_of_string in H.
  apply (f_equal NilZero.int_of_string) in H.
  assert (∀ z, Z.to_int z ≠ Decimal.Pos Decimal.Nil ∧ Z.to_int z ≠ Decimal.Neg Decimal.Nil) as Hnz.
  { intros z. pose proof (DecimalZ.to_of (Z.to_int z)) as Hn. rewrite DecimalZ.of_to in Hn.
    split; intros Heq; rewrite Heq in Hn; discriminate Hn. }
  rewrite !NilZero.isi in H by apply Hnz.
  injection H as H. by apply DecimalZ.to_int_inj.
Qed.

Lemma py_str_digits (n : nat) :
  Forall (λ c, is_digit c = true) (py_str (Z.of_nat n)) ∧ py_str (Z.of_nat n) ≠ [].
Proof.
  unfold py_str. destruct (Z.to_int (Z.of_nat n)) as [d|d] eqn:Hd.
  - simpl. unfold NilZero.string_of_uint. destruct d; split;
      try (by repeat constructor); try done;
      try (simpl; constructor; [done|apply string_of_uint_chars]).
  - exfalso. destruct n; simpl in Hd; discriminate Hd.
Qed.

Lemma letter_upper (i : Z) : (1 ≤ i ≤ 26)%Z → is_upper (letter i) = true.
Proof.
  intros Hi. apply is_upper_code. unfold letter. rewrite code_ascii_of_nat; lia.
Qed.

Lemma letter_inj (i j : Z) : (1 ≤ i ≤ 26)%Z → (1 ≤ j ≤ 26)%Z → letter i = letter j → i = j.
Proof.
  intros Hi Hj H. apply (f_equal code) in H. unfold letter in H.
  rewrite !code_ascii_of_nat in H by lia. lia.
Qed.

Lemma get_column_letter_upper (idx : Z) (col : list ascii) :
  get_column_letter idx = Ok col → Forall (λ c, is_upper c = true) col ∧ col ≠ [].
Proof.
  unfold get_column_letter.
  destruct (_ && _) eqn:H1.
  { intros [= <-]. apply andb_true_iff in H1 as [?%Z.leb_le ?%Z.leb_le].
    split; [|done]. repeat constructor. apply letter_upper. lia. }
  destruct (_ && _) eqn:H2 in |- *.
  { intros [= <-]. apply andb_true_iff in H2 as [?%Z.leb_le ?%Z.leb_le].
    pose proof (Z.div_mod (idx - 27) 26 ltac:(lia)).
    pose proof (Z.mod_pos_bound (idx - 27) 26 ltac:(lia)).
    split; [|done]. repeat constructor; apply letter_upper; lia. }
  destruct (_ && _) eqn:H3 in |- *; [|done].
  intros [= <-]. apply andb_true_iff in H3 as [?%Z.leb_le ?%Z.leb_le].
  pose proof (Z.div_mod (idx - 703) 676 ltac:(lia)).
  pose proof (Z.mod_pos_bound (idx - 703) 676 ltac:(lia)).
  pose proof (Z.mod_pos_bound ((idx - 703) / 26) 26 ltac:(lia)).
  pose proof (Z.mod_pos_bound (idx - 703) 26 ltac:(lia)).
  split; [|done]. repeat constructor; apply letter_upper; lia.
Qed.

Lemma get_column_letter_inj (i j : Z) (col : list ascii) :
  get_column_letter i = Ok col → get_column_letter j = Ok col → i = j.
Proof.
  unfold get_column_letter.
  destruct ((1 <=? i)%Z && (i <=? 26)%Z) eqn:Hi1;
    [|destruct ((27 <=? i)%Z && (i <=? 702)%Z) eqn:Hi2;
      [|destruct ((703 <=? i)%Z && (i <=? 18278)%Z) eqn:Hi3; [|done]]];
  (destruct ((1 <=? j)%Z && (j <=? 26)%Z) eqn:Hj1;
    [|destruct ((27 <=? j)%Z && (j <=? 702)%Z) eqn:Hj2;
      [|destruct ((703 <=? j)%Z && (j <=? 18278)%Z) eqn:Hj3; [|done]]]);
  intros [= <-] Heq; try discriminate Heq;
  repeat match goal with
         | H : (_ && _) = true |- _ => apply andb_true_iff in H as [?%Z.leb_le ?%Z.leb_le]
         | H : (_ && _) = false |- _ => clear H
         end.
  - injection Heq as Heq. apply letter_inj in Heq; lia.
  - injection Heq as Ha Hb.
    pose proof (Z.div_mod (i - 27) 26 ltac:(lia)).
    pose proof (Z.mod_pos_bound (i - 27) 26 ltac:(lia)).
    pose proof (Z.div_mod (j - 27) 26 ltac:(lia)).
    pose proof (Z.mod_pos_bound (j - 27) 26 ltac:(lia)).
    apply letter_inj in Ha; [|lia..]. apply letter_inj in Hb; [|lia..]. lia.
  - injection Heq as Ha Hb Hc.
    pose proof (Z.div_mod (i - 703) 26 ltac:(lia)).
    pose proof (Z.mod_pos_bound (i - 703) 26 ltac:(lia)).
    pose proof (Z.div_mod ((i - 703) / 26) 26 ltac:(lia)).
    pose proof (Z.mod_pos_bound ((i - 703) / 26) 26 ltac:(lia)).
    pose proof (Z.div_mod (j - 703) 26 ltac:(lia)).
    pose proof (Z.mod_pos_bound (j - 703) 26 ltac:(lia)).
    pose proof (Z.div_mod ((j - 703) / 26) 26 ltac:(lia)).
    pose proof (Z.mod_pos_bound ((j - 703) / 26) 26 ltac:(lia)).
    assert ((i - 703) / 676 = (i - 703) / 26 / 26)%Z as Hi676
      by (rewrite Z.div_div by lia; done).
    assert ((j - 703) / 676 = (j - 703) / 26 / 26)%Z as Hj676
      by (rewrite Z.div_div by lia; done).
    rewrite Hi676, Hj676 in Ha.
    assert (0 ≤ (i - 703) / 26 / 26 < 26)%Z
      by (split; [apply Z.div_pos; [apply Z.div_pos|]; lia
                 |apply Z.div_lt_upper_bound; [lia|]; apply Z.div_lt_upper_bound; lia]).
    assert (0 ≤ (j - 703) / 26 / 26 < 26)%Z
      by (split; [apply Z.div_pos; [apply Z.div_pos|]; lia
                 |apply Z.div_lt_upper_bound; [lia|]; apply Z.div_lt_upper_bound; lia]).
    apply letter_inj in Ha; [|lia..]. apply letter_inj in Hb; [|lia..].
    apply letter_inj in Hc; [|lia..]. lia.
Qed.

Lemma app_class_inj (col col' d d' : list ascii) :
  Forall (λ c, is_upper c = true) col → Forall (λ c, is_upper c = true) col' →
  Forall (λ c, is_digit c = true) d → Forall (λ c, is_digit c = true) d' →
  col ++ d = col' ++ d' → col = col' ∧ d = d'.
Proof.
  intros Hc Hc' Hd Hd' Heq.
  assert (∀ l, Forall (λ c, is_digit c = true) l → ∀ c, head l = Some c → is_upper c = false)
    as Hhead.
  { intros l Hl c Hh. destruct l as [|x l]; [done|]. injection Hh as ->.
    apply Forall_inv, is_digit_code in Hl. apply not_true_is_false. rewrite is_upper_code. lia. }
  pose proof (span_all is_upper col d Hc (Hhead d Hd)) as H1.
  pose proof (span_all is_upper col' d' Hc' (Hhead d' Hd')) as H2.
  rewrite Heq, H2 in H1. by injection H1 as -> ->.
Qed.

Lemma string_of_list_ascii_inj (l l' : list ascii) :
  string_of_list_ascii l = string_of_list_ascii l' → l = l'.
Proof.
  intros H. apply (f_equal list_ascii_of_string) in H.
  by rewrite !list_ascii_of_string_of_list_ascii in H.
Qed.

Lemma cell_name_inj row_idx col_idx row_idx' col_idx' name :
  cell_name row_idx col_idx = Ok name → cell_name row_idx' col_idx' = Ok name →
  row_idx = row_idx' ∧ col_idx = col_idx'.
Proof.
  unfold cell_name.
  destruct (get_column_letter (Z.of_nat col_idx)) as [col|] eqn:Hcol; [|done].
  destruct (get_column_letter (Z.of_nat col_idx')) as [col'|] eqn:Hcol'; [|done].
  rewrite !result_bind_Ok. intros [= <-] [= Heq%string_of_list_ascii_inj].
  destruct (get_column_letter_upper _ _ Hcol) as [Hup _].
  destruct (get_column_letter_upper _ _ Hcol') as [Hup' _].
  apply app_class_inj in Heq as [-> Hrow%py_str_inj]; try done; try apply py_str_digits.
  split; [lia|]. pose proof (get_column_letter_inj _ _ _ Hcol Hcol'). lia.
Qed.

(** X22: no two cells of the sheet get the same name: the name is a
    column name of one to three capitals followed by the row number, and
    the row and the column can be read back from it. *)
Theorem cell_names_differ (row_idx col_idx row_idx' col_idx' : nat) (name : string) :
  cell_name row_idx col_idx = Ok name → cell_name row_idx' col_idx' = Ok name →
  (row_idx = row_idx' ∧ col_idx = col_idx')
  ∧ ∃ col, get_column_letter (Z.of_nat col_idx) = Ok col
      ∧ Forall (λ c, is_upper c = true) col ∧ 1 ≤ length col ≤ 3
      ∧ name = string_of_list_ascii (col ++ py_str (Z.of_nat row_idx))
      ∧ Forall (λ c, is_digit c = true) (py_str (Z.of_nat row_idx)).
Proof.
  intros H1 H2. split; [by apply (cell_name_inj _ _ _ _ name)|].
  unfold cell_name in H1.
  destruct (get_column_letter (Z.of_nat col_idx)) as [col|] eqn:Hcol; [|done].
  rewrite result_bind_Ok in H1. injection H1 as <-.
  exists col. split_and!; try done; try apply py_str_digits.
  - by apply (get_column_letter_upper _ _ Hcol).
  - unfold get_column_letter in Hcol.
    repeat (destruct (_ && _) in Hcol; [injection Hcol as <-; simpl; lia|]). done.
  - unfold get_column_letter in Hcol.
    repeat (destruct (_ && _) in Hcol; [injection Hcol as <-; simpl; lia|]). done.
Qed.

Lemma cell_names_differ_witness :
  (2 = 2 ∧ 28 = 28)
  ∧ ∃ col, get_column_letter (Z.of_nat 28) = Ok col
      ∧ Forall (λ c, is_upper c = true) col ∧ 1 ≤ length col ≤ 3
      ∧ "AB2" = string_of_list_ascii (col ++ py_str (Z.of_nat 2))
      ∧ Forall (λ c, is_digit c = true) (py_str (Z.of_nat 2)).
Proof. apply (cell_names_differ 2 28 2 28 "AB2"); reflexivity. Defined.

(** ** What the extractor records for each cell *)

Lemma edge_graph_add_refs (refs : list string) :
  ∀ (g : list (string * list string)) k a b,
    edge (foldl (λ g r, graph_add g k r) g refs) a b ↔ edge g a b ∨ (a = k ∧ b ∈ refs).
Proof.
  induction refs as [|r refs IH]; intros g k a b; simpl.
  - split; [by left|]. by intros [?|[_ ?%elem_of_nil]].
  - rewrite IH, edge_graph_add, elem_of_cons. split.
    + intros [[?|[-> ->]]|[-> ?]]; auto.
    + intros [?|[-> [->|?]]]; auto.
Qed.

Lemma dict_get_None {V : Type} (d : list (string * V)) k :
  k ∉ d.*1 → dict_get d k = None.
Proof.
  intros Hk. destruct (dict_get d k) as [v|] eqn:Hget; [|done].
  destruct Hk. apply dict_get_elem in Hget. apply list_elem_of_fmap. by exists (k, v).
Qed.

Lemma sheet_cells_lookup (rows : list (list cell_value)) :
  ∀ row_idx i j row value,
    rows !! i = Some row → row !! j = Some value →
    (row_idx + i, S j, value) ∈ sheet_cells row_idx rows.
Proof.
  assert (∀ row row_idx col_idx j value,
            row !! j = Some value → (row_idx, col_idx + j, value) ∈ row_cells row_idx col_idx row)
    as Hrow.
  { induction row as [|v row IH]; intros row_idx col_idx j value Hj; [done|].
    destruct j as [|j]; simpl in *.
    - injection Hj as ->. rewrite Nat.add_0_r. by left.
    - right. replace (col_idx + S j) with (S col_idx + j) by lia. by apply IH. }
  induction rows as [|r rows IH]; intros row_idx i j row value Hi Hj; [done|].
  simpl. apply elem_of_app. destruct i as [|i]; simpl in *.
  - injection Hi as ->. left. rewrite Nat.add_0_r. by apply (Hrow row row_idx 1 j).
  - right. replace (row_idx + S i) with (S row_idx + i) by lia. by apply (IH _ _ _ row).
Qed.

Lemma row_cells_bounds row :
  ∀ row_idx col_idx r c v,
    (r, c, v) ∈ row_cells row_idx col_idx row → r = row_idx ∧ col_idx ≤ c.
Proof.
  induction row as [|x row IH]; intros row_idx col_idx r c v Hin; simpl in Hin;
    [by apply elem_of_nil in Hin|].
  apply elem_of_cons in Hin as [[= -> -> ->]|Hin]; [done|].
  destruct (IH _ _ _ _ _ Hin). split; [done|lia].
Qed.

Section extractor_record.
Variable float_repr : Z → Z → list ascii.

Lemma recorded_keep (st st' : extraction) (name : string) (value : cell_value) :
  recorded float_repr st name value →
  (name ∈ defined_cells st' ↔ name ∈ defined_cells st) →
  dict_get (all_cells st') name = dict_get (all_cells st) name →
  dict_get (original_formulas st') name = dict_get (original_formulas st) name →
  (∀ b, edge (dependency_graph st') name b ↔ edge (dependency_graph st) name b) →
  recorded float_repr st' name value.
Proof.
  intros Hrec Hd Hc Hf Hg. unfold recorded in *.
  destruct value as [shown|s|]; [by rewrite Hd, Hc|..];
    (destruct (formula_of _) as [formula|]; [|by rewrite Hd]);
    rewrite Hd, Hc, Hf; destruct Hrec as (? & ? & ? & He); split_and!; try done;
    intros b; by rewrite Hg.
Qed.

Lemma extract_cell_other row_idx col_idx value st :
  (∀ shown, value ≠ Number shown) → formula_of value = None →
  extract_cell float_repr row_idx col_idx value st
  = (col ← get_column_letter (Z.of_nat col_idx); Ok st).
Proof.
  intros Hnum Hf. unfold extract_cell. destruct (get_column_letter _); [|done]. simpl.
  destruct value as [shown|[|c s]|]; try done; [by destruct (Hnum shown)|].
  simpl in Hf. destruct (decide (c = "="%char)) as [->|Hne]; [done|].
  clear -Hne. destruct c as [[] [] [] [] [] [] [] []]; try done; congruence.
Qed.

Lemma extract_cell_record row_idx col_idx value st st' seen :
  extract_cell float_repr row_idx col_idx value st = Ok st' →
  extraction_inv st → extraction_record float_repr st seen →
  (∀ r c v, (r, c, v) ∈ seen → (r, c) ≠ (row_idx, col_idx)) →
  extraction_record float_repr st' (seen ++ [(row_idx, col_idx, value)]).
Proof.
  intros Hrun [Hkeys _] (Hrec & Hdef & Hdom) Hnew.
  assert (∃ col, get_column_letter (Z.of_nat col_idx) = Ok col) as [col Hcol].
  { unfold extract_cell in Hrun. destruct (get_column_letter _); [by eexists|done]. }
  set (name := string_of_list_ascii (col ++ py_str (Z.of_nat row_idx))).
  assert (cell_name row_idx col_idx = Ok name) as Hname
    by (unfold cell_name; by rewrite Hcol).
  assert (name ∉ defined_cells st) as Hfresh.
  { intros (r & c & v & Hin & Hrc)%Hdef.
    destruct (cell_name_inj _ _ _ _ _ Hrc Hname) as [-> ->]. by destruct (Hnew _ _ _ Hin). }
  assert (graph_get (dependency_graph st) name = []) as Hnoedge.
  { apply graph_get_no_key. intros ((k & deps) & -> & Hin)%list_elem_of_fmap.
    apply Hfresh. by eapply Hkeys. }
  assert (∀ r c v n, (r, c, v) ∈ seen → cell_name r c = Ok n → n ≠ name) as Hother.
  { intros r c v n Hin Hn ->. destruct (cell_name_inj _ _ _ _ _ Hn Hname) as [-> ->].
    by destruct (Hnew _ _ _ Hin). }
  destruct value as [shown| |] eqn:Hvalue.
  - (* a number *)
    unfold extract_cell in Hrun. rewrite Hcol, result_bind_Ok in Hrun.
    fold name in Hrun. injection Hrun as <-. split_and!.
    + intros r c v [Hin|[= -> -> ->]%list_elem_of_singleton]%elem_of_app.
      * destruct (Hrec _ _ _ Hin) as (n & Hn & Hr). exists n. split; [done|].
        pose proof (Hother _ _ _ _ Hin Hn) as Hne.
        apply (recorded_keep st); simpl; try done.
        -- rewrite elem_of_union, elem_of_singleton. tauto.
        -- by rewrite dict_get_set, decide_False.
      * exists name. split; [done|]. simpl. split.
        -- apply elem_of_union. left. by apply elem_of_singleton.
        -- by rewrite dict_get_set, decide_True.
    + simpl. intros x [->%elem_of_singleton|Hx]%elem_of_union.
      * exists row_idx, col_idx, (Number shown). split; [|done].
        apply elem_of_app. right. by left.
      * destruct (Hdef x Hx) as (r & c & v & Hin & Hrc). exists r, c, v.
        split; [|done]. apply elem_of_app. by left.
    + simpl. intros k [->|Hk]%dict_set_keys; rewrite elem_of_union, elem_of_singleton; auto.
  - (* text *)
    destruct (formula_of (Text s)) as [formula|] eqn:Hf.
    + pose proof (formula_of_Some _ _ Hf) as Heq. injection Heq as ->.
      rewrite extract_cell_formula, Hcol, result_bind_Ok in Hrun.
      destruct (convert_to_js float_repr formula) as [js|] eqn:Hjs; [|done].
      rewrite result_bind_Ok in Hrun. cbv zeta in Hrun. fold name in Hrun.
      injection Hrun as <-. split_and!.
      * intros r c v [Hin|[= -> -> ->]%list_elem_of_singleton]%elem_of_app.
        -- destruct (Hrec _ _ _ Hin) as (n & Hn & Hr). exists n. split; [done|].
           pose proof (Hother _ _ _ _ Hin Hn) as Hne.
           apply (recorded_keep st); simpl; try done.
           ++ rewrite elem_of_union, elem_of_singleton. tauto.
           ++ by rewrite dict_get_set, decide_False.
           ++ by rewrite dict_get_set, decide_False.
           ++ intros b. rewrite edge_graph_add_refs. split; [|by left].
              intros [?|[? _]]; done.
        -- exists name. split; [done|]. unfold recorded. rewrite Hf. simpl. split_and!.
           ++ apply elem_of_union. left. by apply elem_of_singleton.
           ++ exists js. split; [done|]. by rewrite dict_get_set, decide_True.
           ++ by rewrite dict_get_set, decide_True.
           ++ intros b. rewrite edge_graph_add_refs. unfold edge at 1. rewrite Hnoedge.
              split; [intros [?%elem_of_nil|[_ ?]]; done|by right].
      * simpl. intros x [->%elem_of_singleton|Hx]%elem_of_union.
        -- exists row_idx, col_idx, (Text ("="%char :: formula)). split; [|done].
           apply elem_of_app. right. by left.
        -- destruct (Hdef x Hx) as (r & c & v & Hin & Hrc). exists r, c, v.
           split; [|done]. apply elem_of_app. by left.
      * simpl. intros k [->|Hk]%dict_set_keys; rewrite elem_of_union, elem_of_singleton; auto.
    + rewrite extract_cell_other, Hcol, result_bind_Ok in Hrun by done.
      injection Hrun as <-. split_and!; [| |done].
      * intros r c v [Hin|[= -> -> ->]%list_elem_of_singleton]%elem_of_app; [by apply Hrec|].
        exists name. split; [done|]. unfold recorded. by rewrite Hf.
      * intros x Hx. destruct (Hdef x Hx) as (r & c & v & Hin & Hrc). exists r, c, v.
        split; [|done]. apply elem_of_app. by left.
  - (* an empty cell *)
    rewrite extract_cell_other, Hcol, result_bind_Ok in Hrun by done.
    injection Hrun as <-. split_and!; [| |done].
    + intros r c v [Hin|[= -> -> ->]%list_elem_of_singleton]%elem_of_app; [by apply Hrec|].
      by exists name.
    + intros x Hx. destruct (Hdef x Hx) as (r & c & v & Hin & Hrc). exists r, c, v.
      split; [|done]. apply elem_of_app. by left.
Qed.

Lemma extract_row_record row :
  ∀ row_idx col_idx st st' seen,
    extract_row float_repr row_idx col_idx row st = Ok st' →
    extraction_inv st → extraction_record float_repr st seen →
    (∀ r c v, (r, c, v) ∈ seen → r < row_idx ∨ (r = row_idx ∧ c < col_idx)) →
    extraction_inv st'
    ∧ extraction_record float_repr st' (seen ++ row_cells row_idx col_idx row).
Proof.
  induction row as [|value row IH]; intros row_idx col_idx st st' seen Hrun Hinv Hrec Hseen;
    simpl in *.
  - injection Hrun as <-. by rewrite app_nil_r.
  - destruct (extract_cell float_repr row_idx col_idx value st) as [st1|] eqn:Hcell; [|done].
    rewrite result_bind_Ok in Hrun.
    destruct (IH row_idx (S col_idx) st1 st' (seen ++ [(row_idx, col_idx, value)]) Hrun)
      as [Hinv' Hrec'].
    + by eapply extract_cell_inv.
    + apply (extract_cell_record _ _ _ _ _ _ Hcell Hinv Hrec).
      intros r c v Hin [= -> ->]. destruct (Hseen _ _ _ Hin); lia.
    + intros r c v [Hin|[= -> -> ->]%list_elem_of_singleton]%elem_of_app.
      * destruct (Hseen _ _ _ Hin); [by left|right; lia].
      * right. lia.
    + split; [done|]. by rewrite <- app_assoc in Hrec'.
Qed.

Lemma extract_rows_record rows :
  ∀ row_idx st st' seen,
    extract_rows float_repr row_idx rows st = Ok st' →
    extraction_inv st → extraction_record float_repr st seen →
    (∀ r c v, (r, c, v) ∈ seen → r < row_idx) →
    extraction_inv st'
    ∧ extraction_record float_repr st' (seen ++ sheet_cells row_idx rows).
Proof.
  induction rows as [|row rows IH]; intros row_idx st st' seen Hrun Hinv Hrec Hseen; simpl in *.
  - injection Hrun as <-. by rewrite app_nil_r.
  - destruct (extract_row float_repr row_idx 1 row st) as [st1|] eqn:Hrow; [|done].
    rewrite result_bind_Ok in Hrun.
    destruct (extract_row_record row row_idx 1 st st1 seen Hrow Hinv Hrec) as [Hinv1 Hrec1].
    { intros r c v Hin. left. by apply (Hseen r c v). }
    destruct (IH (S row_idx) st1 st' (seen ++ row_cells row_idx 1 row) Hrun Hinv1 Hrec1)
      as [Hinv' Hrec'].
    { intros r c v [Hin|Hin]%elem_of_app.
      - specialize (Hseen _ _ _ Hin). lia.
      - apply row_cells_bounds in Hin as [-> _]. lia. }
    split; [done|]. by rewrite <- app_assoc in Hrec'.
Qed.

(** X23: the extractor records every cell of the sheet under its own
    name: a number is declared with its text, a formula with the
    translation of its text, kept as its original formula, and given
    exactly the references of its text as its set in the graph; any
    other cell is declared with 0 if some formula references it and is
    not declared otherwise. *)
Theorem extractor_records_every_cell (s : list (list cell_value)) cells g formulas
    (i j : nat) (row : list cell_value) (value : cell_value) :
  extract_and_convert_all_cells float_repr s = Ok (cells, g, formulas) →
  s !! i = Some row → row !! j = Some value →
  ∃ name,
    cell_name (S i) (S j) = Ok name
    ∧ match value with
      | Number shown => dict_get cells name = Some (declaration name shown)
      | _ =>
          match formula_of value with
          | Some formula =>
              (∃ js, convert_to_js float_repr formula = Ok js
                     ∧ dict_get cells name = Some (declaration name js))
              ∧ dict_get formulas name = Some ("="%char :: formula)
              ∧ ∀ b, edge g name b ↔ b ∈ references formula
          | None =>
              ((∃ a, edge g a name) →
               dict_get cells name = Some (declaration name (txt "0")))
              ∧ (¬ (∃ a, edge g a name) → dict_get cells name = None)
          end
      end.
Proof.
  unfold extract_and_convert_all_cells.
  destruct (extract_rows float_repr 1 s _) as [st|] eqn:Hrows; [|done].
  rewrite result_bind_Ok. intros [= <- <- <-] Hi Hj.
  destruct (extract_rows_record s 1 _ _ [] Hrows extraction_inv_init)
    as [[_ Hkeys] (Hrec & _ & Hdom)].
  { split_and!; [by intros r c v ?%elem_of_nil|by intros x ?%elem_of_empty|].
    by intros k ?%elem_of_nil. }
  { by intros r c v ?%elem_of_nil. }
  destruct (extract_rows_wf float_repr _ _ _ _ Hrows extraction_wf_init)
    as (_ & _ & _ & _ & Hnd & _).
  destruct (Hrec (S i) (S j) value) as (name & Hname & Hr).
  { simpl. by apply (sheet_cells_lookup s 1 i j row). }
  exists name. split; [done|].
  assert (name ∈ defined_cells st →
          dict_get (foldl (λ cells var, dict_set cells var (declaration var (txt "0")))
                      (all_cells st) (undefined_vars st)) name
          = dict_get (all_cells st) name) as Hkeep.
  { intros Hd. rewrite zero_defaults_get, decide_False; [done|].
    unfold undefined_vars. rewrite list_elem_of_filter. tauto. }
  assert (name ∉ defined_cells st →
          name ∈ undefined_vars st ↔ ∃ a, edge (dependency_graph st) a name) as Hundef.
  { intros Hd. unfold undefined_vars.
    rewrite list_elem_of_filter, elem_of_remove_dups, elem_of_app. split.
    - intros [_ [Hk|Hin]]; [by destruct Hd; apply Hdom|].
      apply list_elem_of_In, in_concat in Hin as (deps & Hdeps & Hin).
      apply list_elem_of_In, list_elem_of_fmap in Hdeps as ((a & deps') & -> & Ha).
      exists a. apply (edge_items _ _ _ Hnd). exists deps'. split; [done|].
      by apply list_elem_of_In.
    - intros (a & (deps & Ha & Hin)%edge_elem). split; [done|right].
      apply list_elem_of_In, in_concat. exists deps. split; [|by apply list_elem_of_In].
      apply list_elem_of_In, list_elem_of_fmap. by exists (a, deps). }
  assert (name ∉ defined_cells st →
          ((∃ a, edge (dependency_graph st) a name) →
           dict_get (foldl (λ cells var, dict_set cells var (declaration var (txt "0")))
                       (all_cells st) (undefined_vars st)) name
           = Some (declaration name (txt "0")))
          ∧ (¬ (∃ a, edge (dependency_graph st) a name) →
             dict_get (foldl (λ cells var, dict_set cells var (declaration var (txt "0")))
                         (all_cells st) (undefined_vars st)) name = None)) as Hzero.
  { intros Hd. rewrite zero_defaults_get. split; intros He.
    - rewrite decide_True; [done|]. by apply Hundef.
    - rewrite decide_False by (by rewrite (Hundef Hd)).
      apply dict_get_None. intros Hk. by destruct Hd; apply Hdom. }
  unfold recorded in Hr.
  destruct value as [shown|t|].
  - destruct Hr as [Hd <-]. by apply Hkeep.
  - destruct (formula_of (Text t)) as [formula|]; [|by apply Hzero].
    destruct Hr as (Hd & (js & Hjs & Hc) & Hf & He). split_and!; [|done|done].
    exists js. split; [done|]. rewrite <- Hc. by apply Hkeep.
  - by apply Hzero.
Qed.
End extractor_record.

Lemma extractor_records_every_cell_witness :
  ∃ name,
    cell_name 1 2 = Ok name
    ∧ (∃ js, convert_to_js decimal_repr (txt "$A$1+C1*10%") = Ok js
             ∧ dict_get [("A1", txt "var A1 = 5;"); ("B1", txt "var B1 = A1+C1*10/100;");
                         ("C1", txt "var C1 = 0;")] name
               = Some (declaration name js))
    ∧ dict_get [("B1", txt "=$A$1+C1*10%")] name = Some ("="%char :: txt "$A$1+C1*10%")
    ∧ ∀ b, edge [("B1", ["A1"; "C1"])] name b ↔ b ∈ references (txt "$A$1+C1*10%").
Proof.
  apply (extractor_records_every_cell decimal_repr
           [[Number (txt "5"); Text (txt "=$A$1+C1*10%")]] _ _ _
           0 1 [Number (txt "5"); Text (txt "=$A$1+C1*10%")] (Text (txt "=$A$1+C1*10%")));
    reflexivity.
Defined.

(** ** The keys of the graph *)

Lemma graph_add_all_nonempty (refs : list string) :
  ∀ (g : list (string * list string)) k,
    (∀ k' deps, (k', deps) ∈ g → deps ≠ []) →
    ∀ k' deps, (k', deps) ∈ foldl (λ g r, graph_add g k r) g refs → deps ≠ [].
Proof.
  induction refs as [|r refs IH]; intros g k Hg; simpl; [done|].
  apply IH. by apply graph_add_nonempty.
Qed.

Lemma sheet_cells_elem (rows : list (list cell_value)) :
  ∀ row_idx r c v,
    (r, c, v) ∈ sheet_cells row_idx rows →
    ∃ i j row, r = row_idx + i ∧ c = S j ∧ rows !! i = Some row ∧ row !! j = Some v.
Proof.
  assert (∀ row row_idx col_idx r c v,
            (r, c, v) ∈ row_cells row_idx col_idx row →
            ∃ j, r = row_idx ∧ c = col_idx + j ∧ row !! j = Some v) as Hrow.
  { induction row as [|x row IH]; intros row_idx col_idx r c v Hin; simpl in Hin;
      [by apply elem_of_nil in Hin|].
    apply elem_of_cons in Hin as [[= -> -> ->]|Hin].
    - exists 0. split_and!; [done|lia|done].
    - destruct (IH _ _ _ _ _ Hin) as (j & -> & -> & Hj). exists (S j).
      split_and!; [done|lia|done]. }
  induction rows as [|row rows IH]; intros row_idx r c v Hin; simpl in Hin;
    [by apply elem_of_nil in Hin|].
  apply elem_of_app in Hin as [Hin|Hin].
  - destruct (Hrow _ _ _ _ _ _ Hin) as (j & -> & -> & Hj).
    exists 0, j, row. split_and!; [lia|done|done|done].
  - destruct (IH _ _ _ _ Hin) as (i & j & row' & -> & -> & Hi & Hj).
    exists (S i), j, row'. split_and!; [lia|done|done|done].
Qed.

Section graph_keys.
Variable float_repr : Z → Z → list ascii.

Lemma graph_of_formulas_more st (seen more : list (nat * nat * cell_value)) :
  graph_of_formulas st seen → graph_of_formulas st (seen ++ more).
Proof.
  intros H k deps Hk. destruct (H k deps Hk) as (Hne & r & c & formula & Hin & Hn).
  split; [done|]. exists r, c, formula. split; [|done]. apply elem_of_app. by left.
Qed.

Lemma extract_cell_graph row_idx col_idx value st st' seen :
  extract_cell float_repr row_idx col_idx value st = Ok st' →
  graph_of_formulas st seen →
  graph_of_formulas st' (seen ++ [(row_idx, col_idx, value)]).
Proof.
  intros Hrun Hg.
  assert (∃ col, get_column_letter (Z.of_nat col_idx) = Ok col) as [col Hcol].
  { unfold extract_cell in Hrun. destruct (get_column_letter _); [by eexists|done]. }
  destruct (formula_of value) as [formula|] eqn:Hf.
  - apply formula_of_Some in Hf as ->.
    rewrite extract_cell_formula, Hcol, result_bind_Ok in Hrun.
    destruct (convert_to_js float_repr formula) as [js|]; [|done].
    rewrite result_bind_Ok in Hrun. cbv zeta in Hrun. injection Hrun as <-.
    intros k deps Hk. simpl in Hk. split.
    + revert k deps Hk. apply graph_add_all_nonempty. intros k deps Hk. by apply (Hg k deps).
    + apply graph_add_all_elem in Hk as [->|Hk].
      * exists row_idx, col_idx, formula. split; [apply elem_of_app; right; by left|].
        unfold cell_name. by rewrite Hcol.
      * by apply (graph_of_formulas_more st seen _ Hg k deps).
  - destruct value as [shown|t|].
    + unfold extract_cell in Hrun. rewrite Hcol, result_bind_Ok in Hrun.
      injection Hrun as <-. by apply (graph_of_formulas_more st seen).
    + rewrite extract_cell_other, Hcol, result_bind_Ok in Hrun by done.
      injection Hrun as <-. by apply graph_of_formulas_more.
    + rewrite extract_cell_other, Hcol, result_bind_Ok in Hrun by done.
      injection Hrun as <-. by apply graph_of_formulas_more.
Qed.

Lemma extract_row_graph row :
  ∀ row_idx col_idx st st' seen,
    extract_row float_repr row_idx col_idx row st = Ok st' →
    graph_of_formulas st seen →
    graph_of_formulas st' (seen ++ row_cells row_idx col_idx row).
Proof.
  induction row as [|value row IH]; intros row_idx col_idx st st' seen Hrun Hg; simpl in *.
  - injection Hrun as <-. by rewrite app_nil_r.
  - destruct (extract_cell float_repr row_idx col_idx value st) as [st1|] eqn:Hcell; [|done].
    rewrite result_bind_Ok in Hrun.
    pose proof (IH _ _ _ _ _ Hrun (extract_cell_graph _ _ _ _ _ _ Hcell Hg)) as H.
    by rewrite <- app_assoc in H.
Qed.

Lemma extract_rows_graph rows :
  ∀ row_idx st st' seen,
    extract_rows float_repr row_idx rows st = Ok st' →
    graph_of_formulas st seen →
    graph_of_formulas st' (seen ++ sheet_cells row_idx rows).
Proof.
  induction rows as [|row rows IH]; intros row_idx st st' seen Hrun Hg; simpl in *.
  - injection Hrun as <-. by rewrite app_nil_r.
  - destruct (extract_row float_repr row_idx 1 row st) as [st1|] eqn:Hrow; [|done].
    rewrite result_bind_Ok in Hrun.
    pose proof (IH _ _ _ _ Hrun (extract_row_graph _ _ _ _ _ _ Hrow Hg)) as H.
    by rewrite <- app_assoc in H.
Qed.

(** C9 (as amended): when the extractor has finished its pass over the
    sheet, every CellId in a value set of the dependency graph, and
    every key of the graph, is a key of the cell mapping [all_cells];
    the keys of the graph itself are only formula cells that reference
    at least one cell, each with the references of its formula text as
    its set. *)
Theorem extractor_closes_cell_mapping (s : list (list cell_value)) cells g formulas :
  extract_and_convert_all_cells float_repr s = Ok (cells, g, formulas) →
  ∀ k deps, (k, deps) ∈ g →
    k ∈ cells.*1 ∧ (∀ b, b ∈ deps → b ∈ cells.*1)
    ∧ deps ≠ []
    ∧ ∃ i j row formula,
        s !! i = Some row ∧ row !! j = Some (Text ("="%char :: formula))
        ∧ cell_name (S i) (S j) = Ok k
        ∧ ∀ b, b ∈ deps ↔ b ∈ references formula.
Proof.
  intros Hrun k deps Hk.
  pose proof (extract_and_convert_complete float_repr s cells g formulas Hrun) as Hc.
  revert Hrun. unfold extract_and_convert_all_cells.
  destruct (extract_rows float_repr 1 s _) as [st|] eqn:Hrows; [|done].
  rewrite result_bind_Ok. intros [= <- <- <-].
  destruct (extract_rows_wf float_repr _ _ _ _ Hrows extraction_wf_init)
    as (_ & _ & _ & _ & Hnd & _).
  assert (∀ b, b ∈ deps ↔ edge (dependency_graph st) k b) as Hedge.
  { intros b. unfold edge, graph_get. by rewrite (graph_lookup_NoDup _ k deps Hnd Hk). }
  assert (graph_of_formulas (Extraction [] [] [] ∅) []) as Hinit
    by (by intros ? ? ?%elem_of_nil).
  destruct (extract_rows_graph s 1 _ _ [] Hrows Hinit k deps Hk)
    as (Hne & r & c & formula & Hin & Hn).
  destruct (extract_rows_record float_repr s 1 _ _ [] Hrows extraction_inv_init)
    as [_ (Hrec & _ & _)].
  { split_and!; [by intros ? ? ? ?%elem_of_nil|by intros x ?%elem_of_empty|].
    by intros ? ?%elem_of_nil. }
  { by intros ? ? ? ?%elem_of_nil. }
  destruct (Hrec _ _ _ Hin) as (name & Hname & Hr).
  assert (name = k) as -> by congruence.
  simpl in Hin. apply sheet_cells_elem in Hin as (i & j & row & -> & -> & Hi & Hj).
  destruct deps as [|b0 deps'] eqn:Hdeps; [done|]. rewrite <- Hdeps in *.
  assert (edge (dependency_graph st) k b0) as Hb0 by (apply Hedge; rewrite Hdeps; by left).
  split_and!.
  - by apply (Hc k b0).
  - intros b Hb. by apply (Hc k b), Hedge.
  - by rewrite Hdeps.
  - exists i, j, row, formula. split_and!; try done.
    intros b. rewrite Hedge. unfold recorded in Hr. simpl in Hr.
    destruct Hr as (_ & _ & _ & He). apply He.
Qed.
End graph_keys.

Lemma extractor_closes_cell_mapping_witness :
  "B1" ∈ [("A1", txt "var A1 = 5;"); ("B1", txt "var B1 = A1+C1;"); ("C1", txt "var C1 = 0;")].*1
  ∧ (∀ b, b ∈ ["A1"; "C1"] →
          b ∈ [("A1", txt "var A1 = 5;"); ("B1", txt "var B1 = A1+C1;");
               ("C1", txt "var C1 = 0;")].*1)
  ∧ ["A1"; "C1"] ≠ []
  ∧ ∃ i j row formula,
      [[Number (txt "5"); Text (txt "=A1+C1")]] !! i = Some row
      ∧ row !! j = Some (Text ("="%char :: formula))
      ∧ cell_name (S i) (S j) = Ok "B1"
      ∧ ∀ b, b ∈ ["A1"; "C1"] ↔ b ∈ references formula.
Proof.
  apply (extractor_closes_cell_mapping decimal_repr
           [[Number (txt "5"); Text (txt "=A1+C1")]]
           [("A1", txt "var A1 = 5;"); ("B1", txt "var B1 = A1+C1;");
            ("C1", txt "var C1 = 0;")]
           [("B1", ["A1"; "C1"])]
           [("B1", txt "=A1+C1")]).
  - reflexivity.
  - by left.
Defined.
